(** * A shallow embedding of [epub_to_pdf.py]

    The converter unpacks an EPUB, reads its package document, flattens the
    spine into one HTML document, renders it and merges it with a cover page.
    This file embeds the pure parts of the script (string handling, the
    regular expressions, path arithmetic, the chapter loop, the cover
    geometry) as executable Rocq functions and the stateful parts (the
    file system, exceptions, the [try]/[finally] of the driver) as explicit
    state and error passing.

    Conventions.
    - A Python [str] is a [text], a list of characters.  A character is a
      code point below 256 (Latin-1); the character tables ([lower],
      [isspace], [isword]) follow Python on that range.
    - Paths follow [posixpath].
    - An exception is a value of [exn]; a function that can raise returns a
      [result]. *)

From Stdlib Require Import ZArith List Ascii String Floats Uint63 Lia Bool.
From stdpp Require Import gmap sorting.
Import ListNotations.
Open Scope list_scope.
Set Warnings "-register-all".

(* ================================================================= *)
(** ** Text *)

Definition text := list ascii.

Definition txt (s : string) : text := list_ascii_of_string s.
Arguments txt _%_string.

(** The double quote and the single quote, as characters. *)
Definition DQ : ascii := "034"%char.
Definition SQ : ascii := "039"%char.
Definition NL : ascii := "010"%char.

Definition code (c : ascii) : N := N_of_ascii c.

Definition in_range (lo hi : N) (c : ascii) : bool :=
  ((lo <=? code c) && (code c <=? hi))%N.

(** [str.lower] on one character: A-Z, and the Latin-1 capitals
    U+00C0..U+00DE except the multiplication sign U+00D7. *)
Definition lower_char (c : ascii) : ascii :=
  if in_range 65 90 c || (in_range 192 222 c && negb (code c =? 215)%N)
  then ascii_of_N (code c + 32)
  else c.

Definition lower (s : text) : text := map lower_char s.

(** [str.isspace], which is also the class [\s] of a [str] pattern. *)
Definition isspace (c : ascii) : bool :=
  in_range 9 13 c || in_range 28 32 c || (code c =? 133)%N || (code c =? 160)%N.

(** The class [\w] of a [str] pattern: alphanumerics and the underscore. *)
Definition isword (c : ascii) : bool :=
  in_range 48 57 c || in_range 65 90 c || (code c =? 95)%N || in_range 97 122 c
  || (code c =? 170)%N || in_range 178 179 c || (code c =? 181)%N
  || in_range 185 186 c || in_range 188 190 c
  || in_range 192 214 c || in_range 216 246 c || in_range 248 255 c.

Definition is_chr (c x : ascii) : bool := Ascii.eqb c x.

Fixpoint starts_with (p s : text) : bool :=
  match p, s with
  | [], _ => true
  | a :: p', b :: s' => Ascii.eqb a b && starts_with p' s'
  | _ :: _, [] => false
  end.

Definition ends_with (p s : text) : bool := starts_with (rev p) (rev s).

(** [p in s] for strings. *)
Fixpoint contains (p s : text) : bool :=
  starts_with p s || match s with [] => false | _ :: s' => contains p s' end.

Fixpoint lstrip (s : text) : text :=
  match s with
  | c :: s' => if isspace c then lstrip s' else s
  | [] => []
  end.

Definition rstrip (s : text) : text := rev (lstrip (rev s)).

(** [str.strip()] *)
Definition strip (s : text) : text := rstrip (lstrip s).

(* ----------------------------------------------------------------- *)
(** *** Left-to-right scanning

    [str.replace], [re.sub] and [re.finditer] all walk the subject from
    left to right, and after a hit resume behind it.  [m] is tried at the
    current position and answers with the output for the hit and the
    number of characters it covers; [skip] counts the characters of the
    last hit that are still to be passed over. *)

Fixpoint scan_sub (m : text -> option (text * nat)) (skip : nat) (s : text) : text :=
  match s with
  | [] => match skip, m [] with
          | O, Some (out, _) => out
          | _, _ => []
          end
  | c :: s' =>
      match skip with
      | S k => scan_sub m k s'
      | O => match m s with
             | Some (out, O) => out ++ c :: scan_sub m 0 s'
             | Some (out, S n) => out ++ scan_sub m n s'
             | None => c :: scan_sub m 0 s'
             end
      end
  end.

Fixpoint scan_all {A} (m : text -> option (A * nat)) (skip : nat) (s : text) : list A :=
  match s with
  | [] => match skip, m [] with
          | O, Some (a, _) => [a]
          | _, _ => []
          end
  | c :: s' =>
      match skip with
      | S k => scan_all m k s'
      | O => match m s with
             | Some (a, n) => a :: scan_all m (pred n) s'
             | None => scan_all m 0 s'
             end
      end
  end.

(** [s.replace(old, new)] for a non-empty [old]. *)
Definition replace (old new : text) (s : text) : text :=
  scan_sub (fun s => if starts_with old s then Some (new, length old) else None) 0 s.

(* ================================================================= *)
(** ** Paths ([posixpath]) *)

Definition SEP : ascii := "/"%char.

(** [p[:i], p[i:]] with [i = p.rfind('/') + 1]. *)
Fixpoint split_path (p : text) : text * text :=
  match p with
  | [] => ([], [])
  | c :: p' =>
      let (h, t) := split_path p' in
      if Ascii.eqb c SEP then (c :: h, t)
      else match h with
           | [] => ([], c :: t)
           | _ :: _ => (c :: h, t)
           end
  end.

(** [os.path.basename] *)
Definition basename (p : text) : text := snd (split_path p).

Fixpoint lstrip_sep (s : text) : text :=
  match s with
  | c :: s' => if Ascii.eqb c SEP then lstrip_sep s' else s
  | [] => []
  end.

Definition rstrip_sep (s : text) : text := rev (lstrip_sep (rev s)).

(** [os.path.dirname]: the head keeps its slashes only when it is made of
    slashes alone. *)
Definition dirname (p : text) : text :=
  let head := fst (split_path p) in
  if forallb (Ascii.eqb SEP) head then head else rstrip_sep head.

(** [os.path.join(a, b)] *)
Definition path_join (a b : text) : text :=
  if starts_with [SEP] b then b
  else if match a with [] => true | _ => ends_with [SEP] a end then a ++ b
  else a ++ SEP :: b.

(** [p.split('/')] *)
Fixpoint split_sep (p : text) : list text :=
  match p with
  | [] => [[]]
  | c :: p' =>
      if Ascii.eqb c SEP then [] :: split_sep p'
      else match split_sep p' with
           | w :: ws => (c :: w) :: ws
           | [] => [[c]]
           end
  end.

(** ['/'.join(comps)] *)
Fixpoint join_sep (comps : list text) : text :=
  match comps with
  | [] => []
  | [w] => w
  | w :: ws => w ++ SEP :: join_sep ws
  end.

(** The loop of [normpath] over the components; [acc] is [new_comps]
    with its last element first. *)
Fixpoint norm_comps (initial_slashes : nat) (acc : list text) (comps : list text) : list text :=
  match comps with
  | [] => rev acc
  | comp :: rest =>
      if bool_decide (comp = []) || bool_decide (comp = txt ".")
      then norm_comps initial_slashes acc rest
      else if negb (bool_decide (comp = txt ".."))
              || (bool_decide (initial_slashes = 0) && bool_decide (acc = []))
              || match acc with top :: _ => bool_decide (top = txt "..") | [] => false end
      then norm_comps initial_slashes (comp :: acc) rest
      else norm_comps initial_slashes (tl acc) rest
  end.

(** [os.path.normpath] *)
Definition normpath (p : text) : text :=
  match p with
  | [] => txt "."
  | _ =>
      let initial_slashes :=
        if starts_with [SEP] p
        then if starts_with [SEP; SEP] p && negb (starts_with [SEP; SEP; SEP] p) then 2 else 1
        else 0 in
      let path := repeat SEP initial_slashes ++ join_sep (norm_comps initial_slashes [] (split_sep p)) in
      match path with
      | [] => txt "."
      | _ => path
      end
  end.

(* ================================================================= *)
(** ** Regular expressions

    A backtracking matcher with the priorities of Python's [re]: the
    alternatives of a pattern are tried in order and the first complete
    match wins.  The repetitions of the script all range over a single
    character class, so a repetition takes a class, a minimum and whether
    it is greedy.  A match is run against a continuation [k] that receives
    the groups captured so far and the rest of the subject. *)

Inductive greed := Greedy | Lazy.

Inductive regex :=
| Eps
| Chr (p : ascii -> bool)
| Cat (r1 r2 : regex)
| Alt (r1 r2 : regex)
| Rep (g : greed) (min : nat) (p : ascii -> bool)
| Grp (n : nat) (r : regex).

Definition captures := list (nat * text).

Definition group (n : nat) (cs : captures) : option text :=
  snd <$> List.find (fun e => Nat.eqb (fst e) n) cs.

Section Repeat.
Context {R : Type} (p : ascii -> bool) (k : text -> option R).

Fixpoint rep_greedy (min : nat) (s : text) : option R :=
  let stop := match min with O => k s | S _ => None end in
  match s with
  | c :: s' =>
      if p c then
        match rep_greedy (pred min) s' with
        | Some r => Some r
        | None => stop
        end
      else stop
  | [] => stop
  end.

Fixpoint rep_lazy (min : nat) (s : text) : option R :=
  let more := match s with
              | c :: s' => if p c then rep_lazy (pred min) s' else None
              | [] => None
              end in
  match min with
  | S _ => more
  | O => match k s with
         | Some r => Some r
         | None => more
         end
  end.
End Repeat.

Definition kont := captures -> text -> option (captures * text).

Fixpoint exec (r : regex) (cs : captures) (s : text) (k : kont) : option (captures * text) :=
  match r with
  | Eps => k cs s
  | Chr p => match s with
             | c :: s' => if p c then k cs s' else None
             | [] => None
             end
  | Cat r1 r2 => exec r1 cs s (fun cs' s' => exec r2 cs' s' k)
  | Alt r1 r2 => match exec r1 cs s k with
                 | Some x => Some x
                 | None => exec r2 cs s k
                 end
  | Rep Greedy m p => rep_greedy p (k cs) m s
  | Rep Lazy m p => rep_lazy p (k cs) m s
  | Grp n r => exec r cs s (fun cs' s' => k ((n, take (length s - length s') s) :: cs') s')
  end.

(** A match at the start of [s]: the groups and the number of characters
    matched. *)
Definition match_at (r : regex) (s : text) : option (captures * nat) :=
  match exec r [] s (fun cs s' => Some (cs, s')) with
  | Some (cs, rest) => Some (cs, length s - length rest)
  | None => None
  end.

(** [re.match] *)
Definition re_match (r : regex) (s : text) : option (captures * nat) := match_at r s.

(** [re.search]: the leftmost match, as (start, groups, length). *)
Fixpoint search_from (r : regex) (i : nat) (s : text) : option (nat * captures * nat) :=
  match match_at r s with
  | Some (cs, n) => Some (i, cs, n)
  | None => match s with
            | [] => None
            | _ :: s' => search_from r (S i) s'
            end
  end.

Definition re_search (r : regex) (s : text) : option (nat * captures * nat) :=
  search_from r 0 s.

(** [re.finditer], keeping the groups of each match. *)
Definition re_finditer (r : regex) (s : text) : list captures :=
  scan_all (match_at r) 0 s.

(** [re.sub(r, f, s)] with a function [f] of the groups. *)
Definition re_sub (r : regex) (f : captures -> text) (s : text) : text :=
  scan_sub (fun s => match match_at r s with
                     | Some (cs, n) => Some (f cs, n)
                     | None => None
                     end) 0 s.

(** Pattern syntax. *)
Definition any_char (c : ascii) : bool := true.
Definition not_newline (c : ascii) : bool := negb (Ascii.eqb c NL).
Definition none_of (l : list ascii) (c : ascii) : bool :=
  negb (existsb (Ascii.eqb c) l).
Definition one_of (l : list ascii) (c : ascii) : bool := existsb (Ascii.eqb c) l.
(** A literal character under [re.IGNORECASE]. *)
Definition is_chr_i (c x : ascii) : bool := Ascii.eqb (lower_char x) (lower_char c).

Fixpoint cat (rs : list regex) : regex :=
  match rs with
  | [] => Eps
  | [r] => r
  | r :: rs' => Cat r (cat rs')
  end.

Definition lit (s : text) : regex := cat (map (fun c => Chr (is_chr c)) s).
Definition lit_i (s : text) : regex := cat (map (fun c => Chr (is_chr_i c)) s).
Definition opt (r : regex) : regex := Alt r Eps.
Definition star (p : ascii -> bool) : regex := Rep Greedy 0 p.
Definition plus (p : ascii -> bool) : regex := Rep Greedy 1 p.
Definition star_lazy (p : ascii -> bool) : regex := Rep Lazy 0 p.
Definition plus_lazy (p : ascii -> bool) : regex := Rep Lazy 1 p.

(** The patterns of the script, in the order in which they appear; in
    these comments the double quote is written [\x22]. *)

(** [r'\{.*\}'] *)
Definition NS_RE : regex :=
  cat [lit (txt "{"); star not_newline; lit (txt "}")].

(** [r'<body[^>]*>(.*?)</body>'] with [re.DOTALL | re.IGNORECASE] *)
Definition BODY_RE : regex :=
  cat [lit_i (txt "<body"); star (none_of [">"%char]); lit (txt ">");
       Grp 1 (star_lazy any_char); lit_i (txt "</body>")].

(** [r'<[^>]+>'] *)
Definition TAG_RE : regex :=
  cat [lit (txt "<"); plus (none_of [">"%char]); lit (txt ">")].

(** [r'<img\s'] with [re.IGNORECASE] *)
Definition IMG_RE : regex := cat [lit_i (txt "<img"); Chr isspace].

(** [r'<body[^>]*class=\x22[^\x22]*cover[^\x22]*\x22'] with [re.IGNORECASE] *)
Definition BODY_CLASS_RE : regex :=
  cat [lit_i (txt "<body"); star (none_of [">"%char]); lit_i (txt "class=");
       Chr (is_chr DQ); star (none_of [DQ]); lit_i (txt "cover");
       star (none_of [DQ]); Chr (is_chr DQ)].

(** [r'<link[^>]+href=[\x22\']([^\x22\']+\.css)[\x22\']'] with [re.IGNORECASE] *)
Definition CSS_LINK_RE : regex :=
  cat [lit_i (txt "<link"); plus (none_of [">"%char]); lit_i (txt "href=");
       Chr (one_of [DQ; SQ]);
       Grp 1 (cat [plus (none_of [DQ; SQ]); lit_i (txt ".css")]);
       Chr (one_of [DQ; SQ])].

(** [r'</head>'] with [re.IGNORECASE] *)
Definition HEAD_END_RE : regex := lit_i (txt "</head>").

(** [r'</?html[^>]*>'] with [re.IGNORECASE] *)
Definition HTML_TAG_RE : regex :=
  cat [lit (txt "<"); opt (lit (txt "/")); lit_i (txt "html");
       star (none_of [">"%char]); lit (txt ">")].

(** [r'href=\x22([^\x22#]+?\.xhtml)(?:#([^\x22]*?))?\x22'] *)
Definition LINK_RE : regex :=
  cat [lit (txt "href="); Chr (is_chr DQ);
       Grp 1 (cat [plus_lazy (none_of [DQ; "#"%char]); lit (txt ".xhtml")]);
       opt (cat [lit (txt "#"); Grp 2 (star_lazy (none_of [DQ]))]);
       Chr (is_chr DQ)].

(** [r'\s+xmlns(?::\w+)?=\x22[^\x22]*\x22'] *)
Definition XMLNS_RE : regex :=
  cat [plus isspace; lit (txt "xmlns");
       opt (cat [lit (txt ":"); plus isword]);
       lit (txt "="); Chr (is_chr DQ); star (none_of [DQ]); Chr (is_chr DQ)].

(** [r'\s+epub:type=\x22[^\x22]*\x22'] *)
Definition EPUB_TYPE_RE : regex :=
  cat [plus isspace; lit (txt "epub:type="); Chr (is_chr DQ);
       star (none_of [DQ]); Chr (is_chr DQ)].

(* ================================================================= *)
(** ** Exceptions and the file system *)

Inductive exn :=
| FileNotFoundError (msg : text)
| IsADirectoryError (path : text)
| NotADirectoryError (path : text)
| ValueError (msg : text)
| TypeError
| ZeroDivisionError
| ParseError
| OverflowError
| LibraryError (who : text).

Inductive result (A : Type) :=
| Ok (a : A)
| Raise (e : exn).
Arguments Ok {A} a.
Arguments Raise {A} e.

#[global] Instance result_ret : MRet result := fun A a => Ok a.
#[global] Instance result_bind : MBind result := fun A B f m =>
  match m with
  | Ok a => f a
  | Raise e => Raise e
  end.

#[global] Instance result_fmap : FMap result := fun A B f m =>
  match m with
  | Ok a => Ok (f a)
  | Raise e => Raise e
  end.

(** [o] when it is there, and the exception [e] otherwise. *)
Definition or_raise {A} (e : exn) (o : option A) : result A :=
  match o with
  | Some a => Ok a
  | None => Raise e
  end.

Inductive node :=
| File (content : text)
| Dir.

(** The file system maps a path to what is stored there.  The content of
    a file is its text as [open(..., encoding='utf-8', errors='replace')]
    decodes it. *)
Definition filesystem := text -> option node.

(** [os.path.exists] *)
Definition path_exists (fs : filesystem) (p : text) : bool :=
  match fs p with
  | Some _ => true
  | None => false
  end.

(** [open(p, 'r').read()] *)
Definition read_text (fs : filesystem) (p : text) : result text :=
  match fs p with
  | Some (File content) => Ok content
  | Some Dir => Raise (IsADirectoryError p)
  | None => Raise (FileNotFoundError p)
  end.

Definition text_eqb (a b : text) : bool := bool_decide (a = b).

Definition fs_put (fs : filesystem) (p : text) (n : node) : filesystem :=
  fun q => if text_eqb q p then Some n else fs q.

(** [open(p, 'w').write(content)]: the directory of [p] has to be there. *)
Definition write_text (fs : filesystem) (p content : text) : result filesystem :=
  match fs p with
  | Some Dir => Raise (IsADirectoryError p)
  | _ =>
      match dirname p with
      | [] => Ok (fs_put fs p (File content))
      | d => match fs d with
             | Some Dir => Ok (fs_put fs p (File content))
             | Some (File _) => Raise (NotADirectoryError p)
             | None => Raise (FileNotFoundError p)
             end
      end
  end.

(** [p] is [d] or lies below it. *)
Definition inside (d p : text) : bool :=
  text_eqb p d || starts_with (d ++ [SEP]) p.

(** [p] names [d] or something below it: both paths are normalised, so
    that [d/../x] is not below [d]. *)
Definition below (d p : text) : bool := inside (normpath d) (normpath p).

(** [shutil.rmtree(d, ignore_errors=True)]: what is at [d] or below it
    goes, except the paths that the operating system refuses to remove
    ([locked]) and the directories above them, which are not empty then;
    these errors are ignored. *)
Definition rmtree (locked : list text) (fs : filesystem) (d : text) : filesystem :=
  fun p => if below d p && negb (existsb (below p) locked) then None else fs p.

(* ================================================================= *)
(** ** XML trees ([xml.etree.ElementTree]) *)

(** An element: its tag (a namespaced tag is [{uri}local]), its
    attributes, the text before its first child, and its children. *)
Inductive element :=
| Element (tag : text) (attrib : list (text * text)) (etext : option text)
          (children : list element).

Definition tag (e : element) : text := let 'Element t _ _ _ := e in t.
Definition attrib (e : element) := let 'Element _ a _ _ := e in a.
Definition etext (e : element) : option text := let 'Element _ _ t _ := e in t.
Definition children (e : element) : list element := let 'Element _ _ _ c := e in c.

(** [e.get(key)] *)
Definition get (key : text) (e : element) : option text :=
  snd <$> List.find (fun kv => text_eqb (fst kv) key) (attrib e).

(** The element and its descendants in document order. *)
Fixpoint iter_all (e : element) : list element :=
  match e with
  | Element _ _ _ cs => e :: concat (map iter_all cs)
  end.

(** [e.iter(tag)] *)
Definition iter (name : text) (e : element) : list element :=
  filter (fun x => tag x = name) (iter_all e).

(** [e.find('.//name')]: the first proper descendant with that tag. *)
Definition find_descendant (name : text) (e : element) : option element :=
  head (filter (fun x => tag x = name) (concat (map iter_all (children e)))).

(* ================================================================= *)
(** ** The manifest *)

(** The dictionary the parser stores for an [<item>]. *)
Record item := Item {
  href : text;
  media_type : text;
  properties : text;
  full_path : text
}.

(** [manifest] is a [dict]: its keys are the [id] attributes ([None]
    when the attribute is missing); it is iterated in the order of first
    insertion. *)
Definition manifest_t := list (option text * item).

Definition manifest_get (k : option text) (m : manifest_t) : option item :=
  snd <$> List.find (fun e => bool_decide (fst e = k)) m.

Fixpoint manifest_set (k : option text) (v : item) (m : manifest_t) : manifest_t :=
  match m with
  | [] => [(k, v)]
  | (k', v') :: m' =>
      if bool_decide (k' = k) then (k, v) :: m' else (k', v') :: manifest_set k v m'
  end.

Section ParseOpf.
(** [ET.parse] applied to the text of a file; [None] when the text is
    not well-formed XML. *)
Variable xml_parse : text -> option element.

Definition ET_parse (fs : filesystem) (p : text) : result element :=
  content ← read_text fs p;
  or_raise ParseError (xml_parse content).

Definition CONTAINER_NS : text := txt "urn:oasis:names:tc:opendocument:xmlns:container".
Definition DC_NS : text := txt "http://purl.org/dc/elements/1.1/".
Definition clark (ns local : text) : text := txt "{" ++ ns ++ txt "}" ++ local.

Definition NO_CONTAINER : exn :=
  FileNotFoundError (txt "No META-INF/container.xml found - not a valid EPUB").
Definition NO_ROOTFILE : exn :=
  ValueError (txt "No rootfile found in container.xml").

(** The loop that fills [manifest]. *)
Fixpoint build_manifest (opf_dir : text) (items : list element) (manifest : manifest_t)
  : result manifest_t :=
  match items with
  | [] => Ok manifest
  | it :: rest =>
      let item_id := get (txt "id") it in
      h ← or_raise TypeError (get (txt "href") it);
      let entry := {| href := h;
                      media_type := default [] (get (txt "media-type") it);
                      properties := default [] (get (txt "properties") it);
                      full_path := normpath (path_join opf_dir h) |} in
      build_manifest opf_dir rest (manifest_set item_id entry manifest)
  end.

(** The loop that fills [spine]. *)
Definition build_spine (manifest : manifest_t) (itemrefs : list element) : list item :=
  omap (fun itemref => manifest_get (get (txt "idref") itemref) manifest) itemrefs.

(** The two loops that fill [metadata]. *)
Definition build_metadata (root : element) : gmap string (option text) :=
  let metadata := foldl (fun md elem => <["title"%string := etext elem]> md) ∅
                        (iter (clark DC_NS (txt "title")) root) in
  foldl (fun md elem => <["creator"%string := etext elem]> md) metadata
        (iter (clark DC_NS (txt "creator")) root).

(** The search for the cover image. *)
Definition find_cover (ns_prefix : text) (root : element) (manifest : manifest_t) : option text :=
  match List.find (fun e => contains (txt "cover-image") (properties (snd e))) manifest with
  | Some (_, item_data) => Some (full_path item_data)
  | None =>
      full_path <$>
        head (omap (fun meta =>
                      if bool_decide (get (txt "name") meta = Some (txt "cover"))
                      then manifest_get (get (txt "content") meta) manifest
                      else None)
                   (iter (ns_prefix ++ txt "meta") root))
  end.

Definition parse_opf (fs : filesystem) (extract_dir : text)
  : result (list item * manifest_t * gmap string (option text) * text * option text) :=
  let container_path :=
    path_join (path_join extract_dir (txt "META-INF")) (txt "container.xml") in
  if negb (path_exists fs container_path) then Raise NO_CONTAINER else
  root ← ET_parse fs container_path;
  rootfile_elem ← or_raise NO_ROOTFILE
                    (find_descendant (clark CONTAINER_NS (txt "rootfile")) root);
  opf_relative ← or_raise TypeError (get (txt "full-path") rootfile_elem);
  let opf_path := path_join extract_dir opf_relative in
  let opf_dir := dirname opf_path in
  root ← ET_parse fs opf_path;
  let ns_prefix := match re_match NS_RE (tag root) with
                   | Some (_, n) => take n (tag root)
                   | None => []
                   end in
  manifest ← build_manifest opf_dir (iter (ns_prefix ++ txt "item") root) [];
  let spine := build_spine manifest (iter (ns_prefix ++ txt "itemref") root) in
  let metadata := build_metadata root in
  let cover_image_path := find_cover ns_prefix root manifest in
  Ok (spine, manifest, metadata, opf_dir, cover_image_path).
End ParseOpf.

(* ================================================================= *)
(** ** The cover page: geometry of [create_cover_pdf]

    Python's [float] is IEEE binary64, as is [PrimFloat.float]. *)

(** [float(n)] for an integer below 2^53. *)
Definition float_of_Z (n : Z) : float := PrimFloat.of_uint63 (Uint63.of_Z n).

(** [int(x)]: truncation towards zero. *)
Definition int_of_float (x : float) : result Z :=
  match Prim2SF x with
  | S754_zero _ => Ok 0%Z
  | S754_finite s m e =>
      let a := match e with
               | Zneg k => (Zpos m / 2 ^ Zpos k)%Z
               | _ => (Zpos m * 2 ^ e)%Z
               end in
      Ok (if s then (- a)%Z else a)
  | S754_infinity _ => Raise OverflowError
  | S754_nan => Raise (ValueError (txt "cannot convert float NaN to integer"))
  end.

(** [x / y] on floats *)
Definition float_div (x y : float) : result float :=
  if PrimFloat.eqb y 0%float then Raise ZeroDivisionError else Ok (PrimFloat.div x y).

(** [a / b] on integers *)
Definition true_div (a b : Z) : result float := float_div (float_of_Z a) (float_of_Z b).

Record geometry := Geometry {
  page_w_px : Z;
  page_h_px : Z;
  new_w : Z;          (** size passed to [img.resize] *)
  new_h : Z;
  crop_left : Z;      (** box passed to [img_resized.crop] *)
  crop_top : Z;
  crop_right : Z;
  crop_bottom : Z
}.

Definition dpi : Z := 150.

Definition cover_geometry (img_w img_h : Z) (page_width_in page_height_in : float)
  : result geometry :=
  page_w_px ← int_of_float (PrimFloat.mul page_width_in (float_of_Z dpi));
  page_h_px ← int_of_float (PrimFloat.mul page_height_in (float_of_Z dpi));
  img_aspect ← true_div img_w img_h;
  page_aspect ← true_div page_w_px page_h_px;
  '(new_w, new_h) ←
    (if PrimFloat.ltb page_aspect img_aspect then
       new_w ← int_of_float (PrimFloat.mul (float_of_Z page_h_px) img_aspect);
       Ok (new_w, page_h_px)
     else
       q ← float_div (float_of_Z page_w_px) img_aspect;
       new_h ← int_of_float q;
       Ok (page_w_px, new_h));
  let left := ((new_w - page_w_px) / 2)%Z in
  let top := ((new_h - page_h_px) / 2)%Z in
  Ok {| page_w_px := page_w_px; page_h_px := page_h_px;
        new_w := new_w; new_h := new_h;
        crop_left := left; crop_top := top;
        crop_right := (left + page_w_px)%Z; crop_bottom := (top + page_h_px)%Z |}.

(** The columns of the resized image that the crop drops on each side. *)
Definition removed_left (g : geometry) : Z := crop_left g.
Definition removed_right (g : geometry) : Z := (new_w g - crop_right g)%Z.
Definition removed_top (g : geometry) : Z := crop_top g.
Definition removed_bottom (g : geometry) : Z := (new_h g - crop_bottom g)%Z.

Definition PAGE_WIDTH_IN : float := 5.5%float.
Definition PAGE_HEIGHT_IN : float := 8.5%float.

(* ================================================================= *)
(** ** The cover-page detector *)

Definition drop_match (cs : captures) : text := [].

Definition is_cover_page (fs : filesystem) (html_path : text) (it : item) : bool :=
  let href_lower := lower (href it) in
  if negb (contains (txt "cover") (basename href_lower)) then false else
  let attempt : result bool :=
    content ← read_text fs html_path;
    let wraps_image :=
      match re_search BODY_RE content with
      | Some (_, cs, _) =>
          let body := strip (default [] (group 1 cs)) in
          let text_content := strip (re_sub TAG_RE drop_match body) in
          let has_img := bool_decide (is_Some (re_search IMG_RE body)) in
          has_img && (length text_content <? 100)
      | None => false
      end in
    if wraps_image then Ok true
    else if bool_decide (is_Some (re_search BODY_CLASS_RE content)) then Ok true
    else Ok false in
  match attempt with
  | Ok b => b
  | Raise _ => false
  end.

(* ================================================================= *)
(** ** The document flattener *)

(** One element of [all_bodies]: the loop appends
    [<div id=ID class=CLS>\nBODY\n</div>\n]; the three parts are kept
    apart here and put together by [block_html]. *)
Record block := Block {
  anchor : text;
  cls : text;
  body_html : text
}.

(** A string literal in which a backquote stands for the double quote. *)
Definition fmt (s : string) : text :=
  map (fun c => if Ascii.eqb c "`"%char then DQ else c) (txt s).
Arguments fmt _%_string.

Definition block_html (b : block) : text :=
  fmt "<div id=`" ++ anchor b ++ fmt "` class=`" ++ cls b ++ fmt "`>
" ++ body_html b ++ fmt "
</div>
".

Record loop_state := LoopState {
  all_css : gset text;
  all_bodies : list block;
  skipped_cover : bool
}.

(** [filename.replace('.xhtml', '').replace('.html', '')] *)
Definition anchor_id (it : item) : text :=
  let filename := basename (href it) in
  replace (txt ".html") [] (replace (txt ".xhtml") [] filename).

(** The replacement function of the link rewriting:
    [href=\x22#{m.group(1).replace('.xhtml', '')}\x22]. *)
Definition link_repl (m : captures) : text :=
  fmt "href=`#" ++ replace (txt ".xhtml") [] (default [] (group 1 m)) ++ fmt "`".

Definition rewrite_links (body : text) : text := re_sub LINK_RE link_repl body.

Definition strip_namespaces (body : text) : text :=
  re_sub EPUB_TYPE_RE drop_match (re_sub XMLNS_RE drop_match body).

(** The stylesheets one chapter adds to [all_css]. *)
Definition collect_css (fs : filesystem) (html_path content : text) (css : gset text)
  : gset text :=
  foldl (fun acc m =>
           let css_href := default [] (group 1 m) in
           let css_full := normpath (path_join (dirname html_path) css_href) in
           if path_exists fs css_full then acc ∪ {[css_full]} else acc)
        css (re_finditer CSS_LINK_RE content).

(** The body of a chapter, before any rewriting. *)
Definition extract_body (content : text) : text :=
  match re_search BODY_RE content with
  | Some (_, cs, _) => default [] (group 1 cs)
  | None =>
      match re_search HEAD_END_RE content with
      | Some (start, _, n) => re_sub HTML_TAG_RE drop_match (drop (start + n) content)
      | None => content
      end
  end.

(** The element a chapter adds to [all_bodies]. *)
Definition make_block (i : nat) (it : item) (content : text) : block :=
  let body := extract_body content in
  let body := rewrite_links body in
  let body := strip_namespaces body in
  let cls := if 0 <? i then txt "epub-chapter-break" else txt "epub-chapter-first" in
  Block (anchor_id it) cls body.

(** One turn of the loop over [enumerate(spine)]. *)
Definition chapter (fs : filesystem) (skip_cover : bool) (i : nat) (it : item)
    (st : loop_state) : result loop_state :=
  let html_path := full_path it in
  if negb (path_exists fs html_path) then Ok st else
  if skip_cover && negb (skipped_cover st) && is_cover_page fs html_path it
  then Ok {| all_css := all_css st; all_bodies := all_bodies st; skipped_cover := true |}
  else
    content ← read_text fs html_path;
    Ok {| all_css := collect_css fs html_path content (all_css st);
          all_bodies := all_bodies st ++ [make_block i it content];
          skipped_cover := skipped_cover st |}.

Fixpoint chapters (fs : filesystem) (skip_cover : bool) (i : nat) (spine : list item)
    (st : loop_state) : result loop_state :=
  match spine with
  | [] => Ok st
  | it :: rest =>
      st' ← chapter fs skip_cover i it st;
      chapters fs skip_cover (S i) rest st'
  end.

Definition flatten (fs : filesystem) (spine : list item) (skip_cover : bool)
  : result loop_state :=
  chapters fs skip_cover 0 spine
    {| all_css := ∅; all_bodies := []; skipped_cover := false |}.

(** Lexicographic comparison of strings by code point, the order of
    [sorted] on a set of [str]. *)
Fixpoint text_le (a b : text) : bool :=
  match a, b with
  | [], _ => true
  | _ :: _, [] => false
  | x :: a', y :: b' =>
      if (code x <? code y)%N then true
      else if (code y <? code x)%N then false
      else text_le a' b'
  end.

Definition text_order (a b : text) : Prop := text_le a b = true.

#[global] Instance text_order_dec : RelDecision text_order :=
  fun a b => bool_eq_dec (text_le a b) true.

(** [sorted(all_css)] *)
Definition sorted_css (css : gset text) : list text :=
  merge_sort text_order (elements css).

(** [urllib.parse.quote_from_bytes] on the UTF-8 bytes of a path. *)
Definition hex_digit (n : N) : ascii :=
  ascii_of_N (if (n <? 10)%N then 48 + n else 55 + n).

Definition percent (byte : N) : text :=
  ["%"%char; hex_digit (byte / 16); hex_digit (byte mod 16)].

Definition uri_safe (c : ascii) : bool :=
  in_range 48 57 c || in_range 65 90 c || in_range 97 122 c
  || one_of ["_"%char; "."%char; "-"%char; "~"%char; "/"%char] c.

Definition quote_char (c : ascii) : text :=
  if uri_safe c then [c]
  else if (code c <? 128)%N then percent (code c)
  else percent (192 + code c / 64) ++ percent (128 + code c mod 64).

(** [Path(p).as_uri()] for a normalised path *)
Definition as_uri (p : text) : result text :=
  if starts_with [SEP] p then Ok (txt "file://" ++ concat (map quote_char p))
  else Raise (ValueError (txt "relative path can't be expressed as a file URI")).

Fixpoint css_links (paths : list text) : result text :=
  match paths with
  | [] => Ok []
  | css :: rest =>
      uri ← as_uri css;
      links ← css_links rest;
      Ok (fmt "<link rel=`stylesheet` type=`text/css` href=`" ++ uri ++ fmt "`/>" ++ links)
  end.

Definition combined_html (links : text) (bodies : list block) : text :=
  fmt "<!DOCTYPE html>
<html lang=`en`>
<head>
    <meta charset=`utf-8`/>
    <title>Combined EPUB</title>
    " ++ links ++ fmt "
    <style type=`text/css`>
    /* Chapter page breaks */
    .epub-chapter-break {
        page-break-before: always !important;
        break-before: page !important;
    }
    /* PDF print optimization */
    @media print {
        body {
            orphans: 3;
            widows: 3;
        }
        img {
            max-width: 100% !important;
            height: auto !important;
            page-break-inside: avoid;
        }
        p {
            page-break-inside: avoid;
        }
        h1, h2, h3, h4, h5, h6 {
            page-break-after: avoid;
        }
    }
    </style>
</head>
<body>
" ++ concat (map block_html bodies) ++ fmt "
</body>
</html>".

(** [build_combined_html]: the file system after the call and the path
    of the combined document. *)
Definition build_combined_html (fs : filesystem) (spine : list item) (opf_dir : text)
    (skip_cover : bool) : result (filesystem * text) :=
  st ← flatten fs spine skip_cover;
  links ← css_links (sorted_css (all_css st));
  let combined_path := path_join opf_dir (txt "_combined_epub.html") in
  fs' ← write_text fs combined_path (combined_html links (all_bodies st));
  Ok (fs', combined_path).

(* ================================================================= *)
(** ** The driver

    The steps of [epub_to_pdf] change the file system and may raise; a
    step maps the file system to the file system it leaves behind and to
    its outcome. *)

Definition step (A : Type) := filesystem -> filesystem * result A.

Definition step_ret {A} (a : A) : step A := fun fs => (fs, Ok a).

Definition step_bind {A B} (m : step A) (f : A -> step B) : step B :=
  fun fs =>
    match m fs with
    | (fs', Ok a) => f a fs'
    | (fs', Raise e) => (fs', Raise e)
    end.

(** A computation that reads the file system. *)
Definition reading {A} (f : filesystem -> result A) : step A := fun fs => (fs, f fs).

(** A computation that answers with a new file system. *)
Definition writing (f : filesystem -> result filesystem) : step unit :=
  fun fs =>
    match f fs with
    | Ok fs' => (fs', Ok tt)
    | Raise e => (fs, Raise e)
    end.

Declare Scope step_scope.
Delimit Scope step_scope with step.
Notation "x <~ m ;; k" := (step_bind m (fun x => k))
  (at level 100, m at next level, right associativity) : step_scope.

(** [try: body finally: cleanup] *)
Definition try_finally {A} (body : step A) (cleanup : filesystem -> filesystem) : step A :=
  fun fs => let (fs', r) := body fs in (cleanup fs', r).

(** [PurePath.with_suffix('.pdf')] *)
Fixpoint stem_of (name : text) : text :=
  match name with
  | [] => []
  | c :: rest =>
      if contains (txt ".") rest then c :: stem_of rest
      else if Ascii.eqb c "."%char then [] else c :: rest
  end.

Definition with_suffix_pdf (p : text) : result text :=
  let name := basename p in
  match name with
  | [] => Raise (ValueError (txt "has an empty name"))
  | c :: rest =>
      let stem := if ends_with (txt ".") name then name else c :: stem_of rest in
      Ok (fst (split_path p) ++ stem ++ txt ".pdf")
  end.

Section Driver.
(** The libraries the script drives. *)
Variable xml_parse : text -> option element.
(** [tempfile.mkdtemp]: creates a directory and answers with its path *)
Variable mkdtemp : step text.
(** [zipfile.ZipFile(epub_path).extractall(output_dir)] *)
Variable extractall : text -> text -> step unit.
(** [Image.open]: the size of the decoded image *)
Variable image_open : text -> option (Z * Z).
(** [resize], [crop] and [save]: the PDF that PIL saves for the resized
    and cropped image, or the error it raises (an image mode that a PDF
    cannot hold, a size that cannot be allocated) *)
Variable image_pdf : text -> geometry -> result text.
(** [render_to_pdf]: Chromium prints the document at the first path to
    the second path *)
Variable render_to_pdf : text -> text -> step unit.
(** [PdfWriter]: the cover, the content and the metadata merged *)
Variable merge_pdf : option text -> text -> gmap string (option text) -> result text.
(** the paths that the operating system refuses to remove *)
Variable locked : list text.

Definition extract_epub (epub_path output_dir : text) : step unit :=
  extractall epub_path output_dir.

Definition create_cover_pdf (cover_image_path output_path : text)
    (page_width_in page_height_in : float) : step text :=
  (_ <~ writing (fun fs =>
          content ← read_text fs cover_image_path;
          '(img_w, img_h) ← or_raise (LibraryError (txt "PIL")) (image_open content);
          g ← cover_geometry img_w img_h page_width_in page_height_in;
          pdf ← image_pdf content g;
          write_text fs output_path pdf) ;;
   step_ret output_path)%step.

(** The body of the [try] of [epub_to_pdf]. *)
Definition convert (epub_path pdf_path extract_dir : text) : step text :=
  (_ <~ extract_epub epub_path extract_dir ;;
   parsed <~ reading (fun fs => parse_opf xml_parse fs extract_dir) ;;
   let '(spine, manifest, metadata, opf_dir, cover_image_path) := parsed in
   cover_pdf_path <~
     (fun fs =>
        match cover_image_path with
        | Some p =>
            if path_exists fs p then
              (path <~ create_cover_pdf p (path_join extract_dir (txt "_cover.pdf"))
                         PAGE_WIDTH_IN PAGE_HEIGHT_IN ;;
               step_ret (Some path))%step fs
            else step_ret None fs
        | None => step_ret None fs
        end) ;;
   let has_cover := bool_decide (is_Some cover_pdf_path) in
   combined_html_path <~
     (fun fs =>
        match build_combined_html fs spine opf_dir has_cover with
        | Ok (fs', path) => (fs', Ok path)
        | Raise e => (fs, Raise e)
        end) ;;
   let content_pdf_path := path_join extract_dir (txt "_content.pdf") in
   _ <~ render_to_pdf combined_html_path content_pdf_path ;;
   cover <~ reading (fun fs =>
              match cover_pdf_path with
              | Some p => if path_exists fs p then Some <$> read_text fs p else Ok None
              | None => Ok None
              end) ;;
   content <~ reading (fun fs => read_text fs content_pdf_path) ;;
   merged <~ reading (fun _ => merge_pdf cover content metadata) ;;
   _ <~ writing (fun fs => write_text fs pdf_path merged) ;;
   step_ret pdf_path)%step.

(** [epub_to_pdf]; the paths are the ones [Path.resolve] answers with. *)
Definition epub_to_pdf (epub_path : text) (pdf_path : option text) : step text :=
  (pdf_path <~ reading (fun _ => match pdf_path with
                                 | Some p => Ok p
                                 | None => with_suffix_pdf epub_path
                                 end) ;;
   extract_dir <~ mkdtemp ;;
   try_finally (convert epub_path pdf_path extract_dir)
               (fun fs => rmtree locked fs extract_dir))%step.
End Driver.

(* ================================================================= *)
(** * Specifications

    The definitions in which the properties below are stated: the
    outcome of the chapter loop described without running it, the
    rewriting rule and the cover rule in the words of the specification,
    and the sample inputs. *)

(* ----------------------------------------------------------------- *)
(** ** Cover geometry and metadata *)

Definition geometry_eqb (a b : geometry) : bool :=
  ((page_w_px a =? page_w_px b) && (page_h_px a =? page_h_px b)
   && (new_w a =? new_w b) && (new_h a =? new_h b)
   && (crop_left a =? crop_left b) && (crop_top a =? crop_top b)
   && (crop_right a =? crop_right b) && (crop_bottom a =? crop_bottom b))%Z.

(** The geometry of an image of the page's own aspect ratio, and of one
    twice as wide. *)
Definition FULL_PAGE : geometry := Geometry 825 1275 825 1275 0 0 825 1275.
Definition DOUBLE_WIDTH : geometry := Geometry 825 1275 1650 1275 412 0 1237 1275.

Definition geometry_is (expected : geometry) (img_w img_h : Z) : bool :=
  match cover_geometry img_w img_h PAGE_WIDTH_IN PAGE_HEIGHT_IN with
  | Ok g => geometry_eqb g expected
  | Raise _ => false
  end.

(** Images up to 66000 by 51000 pixels. *)
Definition MAX_SCALE : nat := 3000.

(** A package document with a main title and a subtitle. *)
Definition TWO_TITLES : element :=
  Element (txt "package") [] None
    [Element (txt "metadata") [] None
       [Element (clark DC_NS (txt "title")) [] (Some (txt "Main")) [];
        Element (clark DC_NS (txt "title")) [] (Some (txt "Sub")) []]].

(* ----------------------------------------------------------------- *)
(** ** The outcome of the chapter loop *)

Fixpoint enumerate_from {A} (i : nat) (l : list A) : list (nat * A) :=
  match l with
  | [] => []
  | x :: l' => (i, x) :: enumerate_from (S i) l'
  end.

(** [enumerate(spine)] *)
Definition enumerate {A} (l : list A) : list (nat * A) := enumerate_from 0 l.

Fixpoint remove_first {A} (P : A -> bool) (l : list A) : list A :=
  match l with
  | [] => []
  | x :: l' => if P x then l' else x :: remove_first P l'
  end.

(** The file of a spine entry is there. *)
Definition on_disk (fs : filesystem) (e : nat * item) : bool :=
  path_exists fs (full_path (snd e)).

(** The detector flags a spine entry. *)
Definition flagged (fs : filesystem) (e : nat * item) : bool :=
  is_cover_page fs (full_path (snd e)) (snd e).

(** The entries whose file is there, without the first flagged one when
    cover skipping is active. *)
Definition survivors (fs : filesystem) (active : bool) (spine : list (nat * item))
  : list (nat * item) :=
  let present := List.filter (on_disk fs) spine in
  if active then remove_first (flagged fs) present else present.

Definition content_of (fs : filesystem) (it : item) : text :=
  match read_text fs (full_path it) with
  | Ok content => content
  | Raise _ => []
  end.

Definition block_of (fs : filesystem) (e : nat * item) : block :=
  make_block (fst e) (snd e) (content_of fs (snd e)).

Definition css_of (fs : filesystem) (css : gset text) (e : nat * item) : gset text :=
  collect_css fs (full_path (snd e)) (content_of fs (snd e)) css.

(* ----------------------------------------------------------------- *)
(** ** A sample book

    A cover wrapper, two chapters sharing a stylesheet, and a spine entry
    whose file is missing. *)

Definition SAMPLE_DIR : text := txt "/tmp/x/OEBPS".

Definition COVER_XHTML : text :=
  fmt "<html><body><img src=`cover.jpg`/></body></html>".
Definition CH1_XHTML : text :=
  fmt "<html><head><link rel=`stylesheet` href=`css/book.css`/></head><body><a href=`ch2.xhtml#s1`>Next</a></body></html>".
Definition CH2_XHTML : text :=
  fmt "<html><head><link rel=`stylesheet` href=`css/book.css`/><link rel=`stylesheet` href=`css/a.css`/></head><body><p>End</p></body></html>".

Definition SAMPLE_FILES : list (text * node) :=
  [(txt "/tmp/x/OEBPS", Dir);
   (txt "/tmp/x/OEBPS/cover.xhtml", File COVER_XHTML);
   (txt "/tmp/x/OEBPS/ch1.xhtml", File CH1_XHTML);
   (txt "/tmp/x/OEBPS/ch2.xhtml", File CH2_XHTML);
   (txt "/tmp/x/OEBPS/css", Dir);
   (txt "/tmp/x/OEBPS/css/book.css", File (txt "p { margin: 0 }"));
   (txt "/tmp/x/OEBPS/css/a.css", File (txt "a { color: red }"))].

(** The file system that holds the files of a list and nothing else. *)
Definition fs_of (files : list (text * node)) : filesystem :=
  fun p => snd <$> List.find (fun e => text_eqb (fst e) p) files.

Definition SAMPLE_FS : filesystem := fs_of SAMPLE_FILES.

Definition sample_item (name : text) : item :=
  {| href := name; media_type := txt "application/xhtml+xml"; properties := [];
     full_path := normpath (path_join SAMPLE_DIR name) |}.

Definition SAMPLE_SPINE : list item :=
  [sample_item (txt "cover.xhtml"); sample_item (txt "ch1.xhtml");
   sample_item (txt "missing.xhtml"); sample_item (txt "ch2.xhtml")].

(** The spine entries whose file is there. *)
Definition present_items (fs : filesystem) (spine : list item) : list item :=
  List.filter (fun it => path_exists fs (full_path it)) spine.

(** One of them is flagged by the detector. *)
Definition cover_detected (fs : filesystem) (spine : list item) : bool :=
  existsb (fun it => is_cover_page fs (full_path it) it) (present_items fs spine).

Definition CLS_FIRST : text := txt "epub-chapter-first".
Definition CLS_BREAK : text := txt "epub-chapter-break".

(** The path a [<link>] of a chapter resolves to. *)
Definition stylesheet_path (it : item) (m : captures) : text :=
  normpath (path_join (dirname (full_path it)) (default [] (group 1 m))).

(** [p] is the resolved path of a stylesheet link of one of the chapters
    [live], and exists. *)
Definition referenced (fs : filesystem) (live : list item) (p : text) : Prop :=
  exists it m, In it live
    /\ In m (re_finditer CSS_LINK_RE (content_of fs it))
    /\ p = stylesheet_path it m
    /\ path_exists fs p = true.

(** The chapters that make it into the document. *)
Definition chapters_kept (fs : filesystem) (spine : list item) (skip_cover : bool)
  : list item :=
  map snd (survivors fs skip_cover (enumerate spine)).

(** Three chapters that name the same stylesheet. *)
Definition SHARED_CSS_FS : filesystem :=
  fs_of [(txt "/b/one.xhtml", File CH1_XHTML);
         (txt "/b/two.xhtml", File CH1_XHTML);
         (txt "/b/three.xhtml", File CH2_XHTML);
         (txt "/b/css/book.css", File []);
         (txt "/b/css/a.css", File [])].

Definition SHARED_CSS_SPINE : list item :=
  map (fun name => {| href := name; media_type := []; properties := [];
                      full_path := txt "/b/" ++ name |})
      [txt "one.xhtml"; txt "two.xhtml"; txt "three.xhtml"].

(* ----------------------------------------------------------------- *)
(** ** The link rule *)

(** [href=] and the opening quote. *)
Definition HREF_DQ : text := fmt "href=`".
Definition XHTML : text := txt ".xhtml".
Definition link_class : ascii -> bool := none_of [DQ; "#"%char].
Definition unquoted : ascii -> bool := none_of [DQ].

(** The continuation that ends every match. *)
Definition accept : kont := fun cs s => Some (cs, s).

(** The pattern behind the first group: the optional fragment and the
    closing quote. *)
Definition LINK_TAIL : regex :=
  Cat (opt (Cat (lit (txt "#")) (Grp 2 (star_lazy unquoted)))) (Chr (is_chr DQ)).

(** What the lazy repetition of the first group continues with, on a
    subject [s0] that starts behind the opening quote. *)
Definition link_kont (s0 : text) (k : kont) (s' : text) : option (captures * text) :=
  if starts_with XHTML s'
  then exec LINK_TAIL [(1, take (length s0 - length (drop 6 s')) s0)] (drop 6 s') k
  else None.

(** The target of a link up to its fragment. *)
Fixpoint before_hash (v : text) : text :=
  match v with
  | [] => []
  | c :: v' => if Ascii.eqb c "#" then [] else c :: before_hash v'
  end.

(** The chapter a link value points at: the value without its fragment,
    when that is a name of at least one character followed by [.xhtml]. *)
Definition link_target (v : text) : option text :=
  let g := before_hash v in
  if ends_with XHTML g && (length XHTML <? length g) then Some g else None.

(** A double-quoted [href] attribute with value [v]. *)
Definition href_attr (v : text) : text := HREF_DQ ++ v ++ [DQ].

(** What the rule makes of it: a reference to the anchor named after the
    target with every [.xhtml] removed, or the attribute as it was. *)
Definition rewritten_attr (v : text) : text :=
  match link_target v with
  | Some g => fmt "href=`#" ++ replace XHTML [] g ++ [DQ]
  | None => href_attr v
  end.

(** A body as a sequence of [href] attributes, each followed by other
    text. *)
Fixpoint with_links (attr : text -> text) (l : list (text * text)) : text :=
  match l with
  | [] => []
  | (v, t) :: l' => attr v ++ t ++ with_links attr l'
  end.

(** Text without a double-quoted [href]. *)
Definition plain (t : text) : Prop := contains HREF_DQ t = false.

(** An attribute value: it holds no double quote, and when it has no
    target it does not itself end in [href=]. *)
Definition value_ok (v : text) : Prop :=
  forallb unquoted v = true
  /\ (link_target v = None -> ends_with (txt "href=") v = false).

Definition segment_ok (seg : text * text) : Prop := value_ok (fst seg) /\ plain (snd seg).

(** The rest of a body is empty or starts with [h]. *)
Definition starts_h (r : text) : bool :=
  match r with
  | [] => true
  | c :: _ => Ascii.eqb "h" c
  end.

Definition link_step (s : text) : option (text * nat) :=
  match match_at LINK_RE s with
  | Some (cs, n) => Some (link_repl cs, n)
  | None => None
  end.

(** A body with a chapter link, a link to an [.html] file and an
    external link. *)
Definition SAMPLE_LINKS : list (text * text) :=
  [(txt "ch2.xhtml#s1", txt ">Next</a> <a ");
   (txt "notes.html", txt ">Notes</a> <a ");
   (txt "http://example.org/", txt ">Site</a>")].


Definition no_dot (s : text) : Prop :=
  forallb (fun c => negb (Ascii.eqb "." c)) s = true.

(** The file name of a spine entry is a name without a dot followed by
    [.xhtml]. *)
Definition simple_name (it : item) : Prop :=
  exists stem, basename (href it) = stem ++ XHTML /\ no_dot stem.

(** Two chapters with the same file name in different directories; the
    first links to the second. *)
Definition TWIN_FS : filesystem :=
  fs_of [(txt "/b/Text/ch1.xhtml",
          File (fmt "<html><body><a href=`../Extra/ch1.xhtml`>More</a></body></html>"));
         (txt "/b/Extra/ch1.xhtml", File (fmt "<html><body><p>More</p></body></html>"))].

Definition TWIN_SPINE : list item :=
  map (fun name => {| href := name; media_type := []; properties := [];
                      full_path := txt "/b/" ++ name |})
      [txt "Text/ch1.xhtml"; txt "Extra/ch1.xhtml"].

(* ----------------------------------------------------------------- *)
(** ** The cover rule *)

(** The file name of the entry contains [cover] in some mix of cases. *)
Definition name_mentions_cover (it : item) : Prop :=
  exists pre mid post,
    basename (href it) = pre ++ mid ++ post /\ lower mid = txt "cover".

(* ----------------------------------------------------------------- *)
(** ** Runs of the driver *)

Definition container_path (extract_dir : text) : text :=
  path_join (path_join extract_dir (txt "META-INF")) (txt "container.xml").

(** A run on an archive that holds only a [mimetype] entry. *)
Definition TMP_DIR : text := txt "/tmp/epub2pdf_extract_k3".

Definition toy_mkdtemp : step text := fun fs => (fs_put fs TMP_DIR Dir, Ok TMP_DIR).
Definition toy_extractall (epub_path output_dir : text) : step unit :=
  fun fs => (fs_put fs (path_join output_dir (txt "mimetype"))
                    (File (txt "application/epub+zip")), Ok tt).
Definition toy_render (html_path pdf_path : text) : step unit :=
  writing (fun fs => write_text fs pdf_path (txt "%PDF")).
Definition toy_merge (cover : option text) (content : text)
    (metadata : gmap string (option text)) : result text :=
  Ok (default [] cover ++ content).

Definition EMPTY_FS : filesystem := fs_of [(txt "/tmp", Dir); (txt "/book.epub", File [])].

Definition toy_run : filesystem * result text :=
  epub_to_pdf (fun _ => None) toy_mkdtemp toy_extractall (fun _ => None)
    (fun _ _ => Ok []) toy_render toy_merge [] (txt "/book.epub") None EMPTY_FS.

(* ----------------------------------------------------------------- *)
(** ** The manifest as a dictionary *)

(** The [id] of an [<item>]. *)
Definition item_id (e : element) : option text := get (txt "id") e.

(** The entry the parser stores for an [<item>] that has an [href]. *)
Definition entry_of (opf_dir : text) (e : element) : option item :=
  match get (txt "href") e with
  | Some h => Some {| href := h;
                      media_type := default [] (get (txt "media-type") e);
                      properties := default [] (get (txt "properties") e);
                      full_path := normpath (path_join opf_dir h) |}
  | None => None
  end.

(** The last [<item>] of a list that carries the id [k]. *)
Definition last_with_id (k : option text) (items : list element) : option element :=
  last (List.filter (fun e => bool_decide (item_id e = k)) items).

(** An entry declares the cover image. *)
Definition declares_cover (kv : option text * item) : bool :=
  contains (txt "cover-image") (properties (snd kv)).

(** A [<meta>] element names the cover. *)
Definition names_cover (meta : element) : bool :=
  bool_decide (get (txt "name") meta = Some (txt "cover")).

(** A package document: declared in the OPF namespace, with a duplicated
    id, a reference to an unknown id and a cover named by a [<meta>]. *)
Definition OPF_NS : text := txt "http://www.idpf.org/2007/opf".

Definition SAMPLE_PACKAGE : element :=
  Element (clark OPF_NS (txt "package")) [] None
    [Element (clark OPF_NS (txt "metadata")) [] None
       [Element (clark DC_NS (txt "title")) [] (Some (txt "A Book")) [];
        Element (clark OPF_NS (txt "meta"))
          [(txt "name", txt "cover"); (txt "content", txt "img")] None []];
     Element (clark OPF_NS (txt "manifest")) [] None
       [Element (clark OPF_NS (txt "item"))
          [(txt "id", txt "c1"); (txt "href", txt "Text/old.xhtml")] None [];
        Element (clark OPF_NS (txt "item"))
          [(txt "id", txt "img"); (txt "href", txt "Images/cover.jpg");
           (txt "media-type", txt "image/jpeg")] None [];
        Element (clark OPF_NS (txt "item"))
          [(txt "id", txt "c1"); (txt "href", txt "Text/ch1.xhtml")] None []];
     Element (clark OPF_NS (txt "spine")) [] None
       [Element (clark OPF_NS (txt "itemref")) [(txt "idref", txt "c1")] None [];
        Element (clark OPF_NS (txt "itemref")) [(txt "idref", txt "ghost")] None []]].

Definition SAMPLE_CONTAINER : element :=
  Element (clark CONTAINER_NS (txt "container")) [] None
    [Element (clark CONTAINER_NS (txt "rootfiles")) [] None
       [Element (clark CONTAINER_NS (txt "rootfile"))
          [(txt "full-path", txt "OEBPS/content.opf")] None []]].

(** An extracted archive, and a parser that knows its two documents. *)
Definition ARCHIVE_FS : filesystem :=
  fs_of [(txt "/t/META-INF/container.xml", File (txt "<container/>"));
         (txt "/t/OEBPS/content.opf", File (txt "<package/>"))].

Definition sample_xml_parse (content : text) : option element :=
  if text_eqb content (txt "<container/>") then Some SAMPLE_CONTAINER
  else if text_eqb content (txt "<package/>") then Some SAMPLE_PACKAGE
  else None.

(** The namespace prefix the parser reads off the tag of the root. *)
Definition ns_prefix_of (root : element) : text :=
  match re_match NS_RE (tag root) with
  | Some (_, n) => take n (tag root)
  | None => []
  end.

Definition no_brace : ascii -> bool := none_of ["}"%char].

(* ----------------------------------------------------------------- *)
(** ** More on the flattened document *)

(** The detector applied to a spine entry. *)
Definition is_cover (fs : filesystem) (it : item) : bool :=
  is_cover_page fs (full_path it) it.

(** The first spine entry makes it into the document. *)
Definition first_entry_kept (fs : filesystem) (spine : list item) (skip_cover : bool)
  : bool :=
  match spine with
  | it :: _ => path_exists fs (full_path it) && negb (skip_cover && is_cover fs it)
  | [] => false
  end.

(** A path that starts at the root. *)
Definition absolute (p : text) : bool := starts_with [SEP] p.

(** The characters [as_uri] can produce. *)
Definition uri_char (c : ascii) : bool :=
  uri_safe c || Ascii.eqb c "%" || Ascii.eqb c ":".

(** A spine with a directory in the place of a chapter. *)
Definition DIR_SPINE : list item :=
  [sample_item (txt "ch1.xhtml"); sample_item (txt "css"); sample_item (txt "ch2.xhtml")].

(** The error of [Path.as_uri] on a relative path. *)
Definition RELATIVE_PATH : exn :=
  ValueError (txt "relative path can't be expressed as a file URI").

(* ----------------------------------------------------------------- *)
(** ** More on matching *)

(** [starts_with] under [re.IGNORECASE]. *)
Fixpoint starts_with_i (p s : text) : bool :=
  match p, s with
  | [], _ => true
  | a :: p', b :: s' => is_chr_i a b && starts_with_i p' s'
  | _ :: _, [] => false
  end.

(** [r] is empty or starts with [a]. *)
Definition starts_with_chr (a : ascii) (r : text) : bool :=
  match r with
  | [] => true
  | c :: _ => Ascii.eqb a c
  end.

(** A cover image and the libraries around it, for runs of the driver. *)
Definition toy_image_open (content : text) : option (Z * Z) := Some (1650, 1275)%Z.
Definition toy_image_pdf (content : text) (g : geometry) : result text :=
  Ok (txt "%PDF cover").

(* ----------------------------------------------------------------- *)
(** ** A run of the driver that succeeds *)

(** An archive with a container descriptor, a package document, one
    chapter and a cover image. *)
Definition full_extractall (epub_path output_dir : text) : step unit :=
  fun fs =>
    (foldl (fun fs' e => fs_put fs' (path_join output_dir (fst e)) (snd e)) fs
       [(txt "META-INF", Dir);
        (txt "META-INF/container.xml", File (txt "<container/>"));
        (txt "OEBPS", Dir);
        (txt "OEBPS/content.opf", File (txt "<package/>"));
        (txt "OEBPS/Text", Dir);
        (txt "OEBPS/Text/ch1.xhtml",
         File (txt "<html><body><p>One</p></body></html>"));
        (txt "OEBPS/Images", Dir);
        (txt "OEBPS/Images/cover.jpg", File (txt "JFIF"))],
     Ok tt).

Definition ROOT_FS : filesystem :=
  fs_of [(txt "/", Dir); (txt "/tmp", Dir); (txt "/book.epub", File (txt "PK"))].

Definition full_run : filesystem * result text :=
  epub_to_pdf sample_xml_parse toy_mkdtemp full_extractall toy_image_open
    toy_image_pdf toy_render toy_merge [] (txt "/book.epub") None ROOT_FS.

(** A file name: not empty, without a separator. *)
Definition file_name (s : text) : Prop :=
  s <> [] /\ forallb (fun c => negb (Ascii.eqb c SEP)) s = true.

(* ----------------------------------------------------------------- *)
(** ** Patterns, read as sets of texts *)

(** The texts that a pattern stands for. *)
Fixpoint matches (r : regex) (a : text) : Prop :=
  match r with
  | Eps => a = []
  | Chr p => exists c, a = [c] /\ p c = true
  | Cat r1 r2 => exists a1 a2, a = a1 ++ a2 /\ matches r1 a1 /\ matches r2 a2
  | Alt r1 r2 => matches r1 a \/ matches r2 a
  | Rep _ min p => forallb p a = true /\ min <= length a
  | Grp _ r' => matches r' a
  end.

(** A continuation whose success does not depend on the groups. *)
Definition group_blind (k : kont) : Prop :=
  forall cs cs' s, is_Some (k cs s) -> is_Some (k cs' s).

(* ----------------------------------------------------------------- *)
(** ** The cover rule, without patterns *)

(** No character of [s] is [x]. *)
Definition lacks (x : ascii) (s : text) : bool :=
  forallb (fun c => negb (Ascii.eqb c x)) s.

(** The text before the first occurrence of the word [w] in [s], case
    ignored, and the text behind that occurrence. *)
Fixpoint cut_i (w s : text) : option (text * text) :=
  if starts_with_i w s then Some ([], drop (length w) s)
  else match s with
       | [] => None
       | c :: s' => match cut_i w s' with
                    | Some (a, b) => Some (c :: a, b)
                    | None => None
                    end
       end.

(** The body of a document: what stands behind the first [<body] and the
    next [>], up to the next [</body>]. *)
Definition body_of (content : text) : option text :=
  '(_, s1) ← cut_i (txt "<body") content;
  '(_, s2) ← cut_i (txt ">") s1;
  '(inner, _) ← cut_i (txt "</body>") s2;
  Some inner.

(** [t] neither starts nor ends with white space. *)
Definition tight (t : text) : bool :=
  match t with [] => true | c :: _ => negb (isspace c) end
  && match rev t with [] => true | c :: _ => negb (isspace c) end.

(** [t] is [s] without the white space around it. *)
Definition trimmed_of (s t : text) : Prop :=
  exists a b, s = a ++ t ++ b
    /\ forallb isspace a = true /\ forallb isspace b = true /\ tight t = true.

(** The text without its tags.  A tag runs from a [<] over at least one
    character to the next [>]; [pending] holds, last character first,
    what was read since a [<] that may still open a tag. *)
Fixpoint untag (pending : option text) (s : text) : text :=
  match s, pending with
  | [], None => []
  | [], Some buf => "<"%char :: rev buf
  | c :: s', None =>
      if Ascii.eqb c "<" then untag (Some []) s' else c :: untag None s'
  | c :: s', Some buf =>
      if Ascii.eqb c ">"
      then match buf with
           | [] => "<"%char :: ">"%char :: untag None s'
           | _ :: _ => untag None s'
           end
      else untag (Some (c :: buf)) s'
  end.

Definition without_tags (s : text) : text := untag None s.

(** An image tag the detector sees: [<img] and white space behind it. *)
Definition has_image_tag (body : text) : Prop :=
  exists pre w c post,
    body = pre ++ w ++ c :: post /\ lower w = txt "<img" /\ isspace c = true.

Definition wraps_image (content : text) : Prop :=
  exists inner body plain,
    body_of content = Some inner /\ trimmed_of inner body
    /\ has_image_tag body
    /\ trimmed_of (without_tags body) plain /\ length plain < 100.

(** A class the detector sees: behind a [<body] and before any [>], the
    text [class=] and a value in double quotes that holds [cover]. *)
Definition body_class_mentions_cover (content : text) : Prop :=
  exists pre open attrs cls v1 cov v2 post,
    content = pre ++ open ++ attrs ++ cls ++ DQ :: v1 ++ cov ++ v2 ++ DQ :: post
    /\ lower open = txt "<body" /\ lacks ">" attrs = true
    /\ lower cls = txt "class=" /\ lower cov = txt "cover"
    /\ lacks DQ v1 = true /\ lacks DQ v2 = true.

Definition cover_rule (it : item) (content : text) : Prop :=
  name_mentions_cover it
  /\ (wraps_image content \/ body_class_mentions_cover content).

(** The rule as the specification words it: any image tag, and a class
    attribute in either kind of quotes. *)
Definition any_image_tag (body : text) : Prop :=
  exists pre w post, body = pre ++ w ++ post /\ lower w = txt "<img".

Definition any_body_class (content : text) : Prop :=
  exists pre open attrs cls q v1 cov v2 post,
    content = pre ++ open ++ attrs ++ cls ++ q :: v1 ++ cov ++ v2 ++ q :: post
    /\ lower open = txt "<body" /\ lacks ">" attrs = true
    /\ lower cls = txt "class=" /\ lower cov = txt "cover"
    /\ (q = DQ \/ q = SQ) /\ lacks q v1 = true /\ lacks q v2 = true.

Definition worded_rule (it : item) (content : text) : Prop :=
  name_mentions_cover it
  /\ ((exists inner body plain,
         body_of content = Some inner /\ trimmed_of inner body
         /\ any_image_tag body
         /\ trimmed_of (without_tags body) plain /\ length plain < 100)
      \/ any_body_class content).

(** Two cover pages of that kind. *)
Definition SINGLE_QUOTED_COVER : text :=
  txt "<html><body class='cover'><p>Title</p></body></html>".
Definition BARE_IMAGE_COVER : text :=
  txt "<html><body><img/></body></html>".
Definition COVER_PAGES_FS : filesystem :=
  fs_of [(txt "/b/cover1.xhtml", File SINGLE_QUOTED_COVER);
         (txt "/b/cover2.xhtml", File BARE_IMAGE_COVER)].
Definition cover_item (name : text) : item :=
  {| href := name; media_type := txt "application/xhtml+xml"; properties := [];
     full_path := txt "/b/" ++ name |}.

(* ----------------------------------------------------------------- *)
(** ** Paths below the temporary directory *)











(** A run in which the operating system refuses to remove an extracted
    file. *)
Definition locked_run : filesystem * result text :=
  epub_to_pdf (fun _ => None) toy_mkdtemp toy_extractall (fun _ => None)
    (fun _ _ => Ok []) toy_render toy_merge [path_join TMP_DIR (txt "mimetype")]
    (txt "/book.epub") None EMPTY_FS.

(* ----------------------------------------------------------------- *)
(** ** The combined document *)

(** The link element of a stylesheet. *)
Definition link_element (uri : text) : text :=
  fmt "<link rel=`stylesheet` type=`text/css` href=`" ++ uri ++ fmt "`/>".

(** Every [<] of the text is followed by a character other than [b] or
    [B]: no tag of the text is a body tag. *)
Fixpoint tags_not_body (s : text) : bool :=
  match s with
  | [] => true
  | c :: s' =>
      (if Ascii.eqb c "<"
       then match s' with
            | c' :: _ => negb (Ascii.eqb (lower_char c') "b")
            | [] => false
            end
       else true)
      && tags_not_body s'
  end.

(* ----------------------------------------------------------------- *)
(** ** The steps of a run *)

(** The package document names a cover image and the extracted archive
    holds it: the driver makes a cover page. *)
Definition cover_wanted (fs : filesystem) (cover_ref : option text) : bool :=
  match cover_ref with
  | Some c => path_exists fs c
  | None => false
  end.

(** The file at [p], if there is one. *)
Definition file_at (fs : filesystem) (p : text) : option text :=
  match fs p with
  | Some (File content) => Some content
  | _ => None
  end.

(* ================================================================= *)
(** * Properties *)

(* ----------------------------------------------------------------- *)
(** ** Cover geometry *)

Lemma geometry_eqb_eq a b : geometry_eqb a b = true -> a = b.
Proof.
  destruct a, b; unfold geometry_eqb; simpl; intros H.
  repeat (apply andb_prop in H; destruct H as [H ?]).
  f_equal; now apply Z.eqb_eq.
Qed.

Lemma geometry_is_eq expected img_w img_h :
  geometry_is expected img_w img_h = true ->
  cover_geometry img_w img_h PAGE_WIDTH_IN PAGE_HEIGHT_IN = Ok expected.
Proof.
  unfold geometry_is.
  destruct (cover_geometry _ _ _ _) as [g|e]; [|discriminate].
  intros H. f_equal. now apply geometry_eqb_eq.
Qed.

Lemma forallb_range (P : Z -> bool) (n : nat) :
  forallb P (map Z.of_nat (seq 1 n)) = true ->
  forall k, (1 <= k <= Z.of_nat n)%Z -> P k = true.
Proof.
  intros H k Hk. rewrite forallb_forall in H. apply H.
  apply in_map_iff. exists (Z.to_nat k). split; [lia|].
  apply in_seq. lia.
Qed.

Lemma exact_ratio_checked :
  forallb (fun k => geometry_is FULL_PAGE (11 * k) (17 * k))
          (map Z.of_nat (seq 1 MAX_SCALE)) = true.
Proof. vm_compute. reflexivity. Qed.

Lemma double_width_checked :
  forallb (fun k => geometry_is DOUBLE_WIDTH (22 * k) (17 * k))
          (map Z.of_nat (seq 1 MAX_SCALE)) = true.
Proof. vm_compute. reflexivity. Qed.

(** C9, as the code has it.  At the default trim (825 by 1275 pixels) an
    image of the page's aspect ratio, 11k by 17k pixels, is resized to
    exactly 825 by 1275 and the crop removes nothing on any side.  An image
    twice as wide, 22k by 17k, is resized to 1650 by 1275 and the crop
    removes 412 columns on the left and 413 on the right: the excess of 825
    columns is odd, and the floor division gives the left side the smaller
    half. *)
Theorem cover_geometry_default (k : Z) :
  (1 <= k <= Z.of_nat MAX_SCALE)%Z ->
  (exists g, cover_geometry (11 * k) (17 * k) PAGE_WIDTH_IN PAGE_HEIGHT_IN = Ok g
             /\ new_w g = page_w_px g /\ new_h g = page_h_px g
             /\ page_w_px g = 825%Z /\ page_h_px g = 1275%Z
             /\ removed_left g = 0%Z /\ removed_right g = 0%Z
             /\ removed_top g = 0%Z /\ removed_bottom g = 0%Z)
  /\ (exists g, cover_geometry (22 * k) (17 * k) PAGE_WIDTH_IN PAGE_HEIGHT_IN = Ok g
             /\ new_w g = 1650%Z /\ new_h g = 1275%Z
             /\ removed_left g = 412%Z /\ removed_right g = 413%Z
             /\ removed_top g = 0%Z /\ removed_bottom g = 0%Z).
Proof.
  intros Hk. split.
  - exists FULL_PAGE. split.
    + apply geometry_is_eq.
      exact (forallb_range _ _ exact_ratio_checked k Hk).
    + repeat split.
  - exists DOUBLE_WIDTH. split.
    + apply geometry_is_eq.
      exact (forallb_range _ _ double_width_checked k Hk).
    + repeat split.
Qed.

Lemma cover_geometry_default_witness :
  (exists g, cover_geometry (11 * 75) (17 * 75) PAGE_WIDTH_IN PAGE_HEIGHT_IN = Ok g
             /\ new_w g = page_w_px g /\ new_h g = page_h_px g
             /\ page_w_px g = 825%Z /\ page_h_px g = 1275%Z
             /\ removed_left g = 0%Z /\ removed_right g = 0%Z
             /\ removed_top g = 0%Z /\ removed_bottom g = 0%Z)
  /\ (exists g, cover_geometry (22 * 75) (17 * 75) PAGE_WIDTH_IN PAGE_HEIGHT_IN = Ok g
             /\ new_w g = 1650%Z /\ new_h g = 1275%Z
             /\ removed_left g = 412%Z /\ removed_right g = 413%Z
             /\ removed_top g = 0%Z /\ removed_bottom g = 0%Z).
Proof. apply (cover_geometry_default 75). unfold MAX_SCALE. lia. Defined.

(** C9 as the specification words it fails on the image of 1650 by 1275
    pixels, twice the page's width: the crop is not symmetric. *)
Lemma double_width_crop_not_symmetric :
  exists g, cover_geometry 1650 1275 PAGE_WIDTH_IN PAGE_HEIGHT_IN = Ok g
            /\ removed_left g <> removed_right g.
Proof.
  exists DOUBLE_WIDTH. split; [vm_compute; reflexivity|].
  vm_compute. discriminate.
Qed.

(* ----------------------------------------------------------------- *)
(** ** Metadata *)

Lemma foldl_insert_last {A} (key : string) (f : A -> option text) (l : list A)
    (m : gmap string (option text)) :
  foldl (fun md x => <[key := f x]> md) m l !! key =
  match last l with
  | Some x => Some (f x)
  | None => m !! key
  end.
Proof.
  induction l as [|x l _] using rev_ind; [reflexivity|].
  rewrite foldl_app, last_snoc. simpl. apply lookup_insert_eq.
Qed.

Lemma foldl_insert_other {A} (key key' : string) (f : A -> option text) (l : list A)
    (m : gmap string (option text)) :
  key <> key' ->
  foldl (fun md x => <[key := f x]> md) m l !! key' = m !! key'.
Proof.
  intros Hne. revert m. induction l as [|x l IH]; intros m; simpl; [reflexivity|].
  rewrite IH. now apply lookup_insert_ne.
Qed.

(** C6, as the code has it.  Each of the two loops assigns the field at
    every occurrence, so the metadata holds the text of the last title and
    of the last creator in document order; a field whose element does not
    occur stays unset. *)
Theorem metadata_last_occurrence (root : element) :
  build_metadata root !! "title"%string =
    etext <$> last (iter (clark DC_NS (txt "title")) root)
  /\ build_metadata root !! "creator"%string =
    etext <$> last (iter (clark DC_NS (txt "creator")) root).
Proof.
  unfold build_metadata. split.
  - rewrite (foldl_insert_other "creator" "title" etext) by discriminate.
    rewrite (foldl_insert_last "title" etext).
    destruct (last _); reflexivity.
  - rewrite (foldl_insert_last "creator" etext).
    destruct (last _); [reflexivity|].
    rewrite (foldl_insert_other "title" "creator" etext) by discriminate.
    reflexivity.
Qed.

(** C6 as the specification words it fails on [TWO_TITLES]: the metadata
    holds the second title, not the first. *)
Lemma metadata_not_first_occurrence :
  head (iter (clark DC_NS (txt "title")) TWO_TITLES)
    = Some (Element (clark DC_NS (txt "title")) [] (Some (txt "Main")) [])
  /\ build_metadata TWO_TITLES !! "title"%string = Some (Some (txt "Sub"))
  /\ build_metadata TWO_TITLES !! "title"%string <> Some (Some (txt "Main")).
Proof.
  split; [vm_compute; reflexivity|].
  split; [vm_compute; reflexivity|].
  vm_compute. discriminate.
Qed.

(* ----------------------------------------------------------------- *)
(** ** The chapter loop

    The loop is compared with a description of its outcome that does not
    run it: the spine entries that survive, and what each contributes. *)

Lemma survivors_cons fs active e spine :
  survivors fs active (e :: spine) =
  if on_disk fs e then
    if active && flagged fs e then survivors fs false spine
    else e :: survivors fs active spine
  else survivors fs active spine.
Proof.
  unfold survivors. simpl.
  destruct (on_disk fs e); [|reflexivity].
  destruct active; simpl; [|reflexivity].
  destruct (flagged fs e); reflexivity.
Qed.

Lemma chapters_spec fs skip_cover spine : forall i st st',
  chapters fs skip_cover i spine st = Ok st' ->
  all_bodies st' =
    all_bodies st ++ map (block_of fs)
      (survivors fs (skip_cover && negb (skipped_cover st)) (enumerate_from i spine))
  /\ all_css st' =
    foldl (css_of fs) (all_css st)
      (survivors fs (skip_cover && negb (skipped_cover st)) (enumerate_from i spine)).
Proof.
  induction spine as [|it spine IH]; intros i st st' H; simpl in H |- *.
  - injection H as <-. unfold survivors. simpl.
    destruct (skip_cover && negb (skipped_cover st)); simpl; now rewrite app_nil_r.
  - rewrite survivors_cons. unfold on_disk, flagged. simpl.
    unfold chapter in H.
    destruct (path_exists fs (full_path it)); simpl in H.
    2:{ now apply IH in H. }
    destruct (skip_cover && negb (skipped_cover st) && is_cover_page fs (full_path it) it)
      eqn:Hskip; simpl in H.
    + apply IH in H. simpl in H. rewrite andb_false_r in H. exact H.
    + destruct (read_text fs (full_path it)) as [content|e] eqn:Hread; simpl in H;
        [|discriminate].
      apply IH in H. simpl in H. destruct H as [Hb Hc].
      rewrite Hb, Hc, <- app_assoc. simpl.
      unfold block_of, css_of, content_of. simpl. rewrite Hread. split; reflexivity.
Qed.

Lemma flatten_spec fs spine skip_cover st :
  flatten fs spine skip_cover = Ok st ->
  all_bodies st = map (block_of fs) (survivors fs skip_cover (enumerate spine))
  /\ all_css st = foldl (css_of fs) ∅ (survivors fs skip_cover (enumerate spine)).
Proof.
  intros H. apply chapters_spec in H. simpl in H.
  now rewrite andb_true_r in H.
Qed.

(** The loop raises only when a spine entry is a directory. *)
Lemma chapters_total fs skip_cover spine : forall i st,
  (forall it, In it spine -> fs (full_path it) <> Some Dir) ->
  exists st', chapters fs skip_cover i spine st = Ok st'.
Proof.
  induction spine as [|it spine IH]; intros i st Hfiles; simpl.
  - now exists st.
  - assert (Hrest : forall it', In it' spine -> fs (full_path it') <> Some Dir)
      by (intros; apply Hfiles; now right).
    assert (Hit : fs (full_path it) <> Some Dir) by (apply Hfiles; now left).
    unfold chapter, path_exists, read_text.
    destruct (fs (full_path it)) as [[content|]|]; simpl; try congruence.
    + destruct (skip_cover && negb (skipped_cover st) && _); simpl; now apply IH.
    + now apply IH.
Qed.

Lemma flatten_total fs spine skip_cover :
  (forall it, In it spine -> fs (full_path it) <> Some Dir) ->
  exists st, flatten fs spine skip_cover = Ok st.
Proof. apply chapters_total. Qed.

Lemma remove_first_length {A} (P : A -> bool) (l : list A) :
  length (remove_first P l) = length l - (if existsb P l then 1 else 0).
Proof.
  induction l as [|x l IH]; simpl; [reflexivity|].
  destruct (P x); simpl; [lia|].
  rewrite IH. destruct (existsb P l) eqn:E; [|lia].
  destruct l; [discriminate|simpl; lia].
Qed.

(* ----------------------------------------------------------------- *)
(** ** The number of content blocks *)

Lemma present_enumerate fs spine : forall i,
  map snd (List.filter (on_disk fs) (enumerate_from i spine)) = present_items fs spine.
Proof.
  induction spine as [|it spine IH]; intros i; simpl; [reflexivity|].
  unfold on_disk at 1. simpl.
  destruct (path_exists fs (full_path it)); simpl; now rewrite IH.
Qed.

Lemma existsb_map {A B} (f : A -> B) (P : B -> bool) (l : list A) :
  existsb P (map f l) = existsb (fun x => P (f x)) l.
Proof. induction l as [|x l IH]; simpl; [reflexivity|]. now rewrite IH. Qed.

Lemma survivors_length fs active spine :
  length (survivors fs active (enumerate spine)) =
  length (present_items fs spine)
  - (if active && cover_detected fs spine then 1 else 0).
Proof.
  unfold survivors, cover_detected, enumerate.
  rewrite <- (present_enumerate fs spine 0), length_map, existsb_map.
  destruct active; simpl; [|lia].
  apply remove_first_length.
Qed.

(** C4.  The flattened document has one block for each spine entry whose
    file exists, less one exactly when cover skipping is active and the
    detector flags one of these entries; never more than one block is
    missing. *)
Theorem block_count (fs : filesystem) (spine : list item) (skip_cover : bool)
    (st : loop_state) :
  flatten fs spine skip_cover = Ok st ->
  length (all_bodies st) =
    length (present_items fs spine)
    - (if skip_cover && cover_detected fs spine then 1 else 0)
  /\ length (present_items fs spine) <= length (all_bodies st) + 1.
Proof.
  intros H. apply flatten_spec in H. destruct H as [-> _].
  rewrite length_map, survivors_length.
  destruct (skip_cover && cover_detected fs spine); lia.
Qed.

Lemma block_count_witness :
  exists st, flatten SAMPLE_FS SAMPLE_SPINE true = Ok st
    /\ length (present_items SAMPLE_FS SAMPLE_SPINE) = 3
    /\ cover_detected SAMPLE_FS SAMPLE_SPINE = true
    /\ length (all_bodies st) = 2
    /\ (length (all_bodies st) =
          length (present_items SAMPLE_FS SAMPLE_SPINE)
          - (if true && cover_detected SAMPLE_FS SAMPLE_SPINE then 1 else 0)
        /\ length (present_items SAMPLE_FS SAMPLE_SPINE) <= length (all_bodies st) + 1).
Proof.
  eexists. split; [vm_compute; reflexivity|].
  split; [vm_compute; reflexivity|].
  split; [vm_compute; reflexivity|].
  split; [vm_compute; reflexivity|].
  apply (block_count SAMPLE_FS SAMPLE_SPINE true). vm_compute. reflexivity.
Defined.

(* ----------------------------------------------------------------- *)
(** ** Page-break classes *)

(** The class of a block follows the position of its entry in the spine,
    whatever was skipped before it. *)
Lemma block_class fs i it :
  cls (block_of fs (i, it)) = if 0 <? i then CLS_BREAK else CLS_FIRST.
Proof. reflexivity. Qed.

(** C3 on the sample book with cover skipping: the cover wrapper at
    position 0 is elided, and the first block of the document, the one of
    [ch1.xhtml] at position 1, carries the class [epub-chapter-break];
    no block carries [epub-chapter-first]. *)
Theorem first_survivor_gets_break_class :
  exists st, flatten SAMPLE_FS SAMPLE_SPINE true = Ok st
    /\ map (fun b => (anchor b, cls b)) (all_bodies st)
       = [(txt "ch1", CLS_BREAK); (txt "ch2", CLS_BREAK)].
Proof. eexists. split; vm_compute; reflexivity. Qed.

(* ----------------------------------------------------------------- *)
(** ** The stylesheet list *)

Lemma code_inj x y : code x = code y -> x = y.
Proof.
  unfold code. intros H.
  rewrite <- (ascii_N_embedding x), <- (ascii_N_embedding y). now rewrite H.
Qed.

#[global] Instance text_order_total : Total text_order.
Proof.
  intros a. unfold text_order.
  induction a as [|x a IH]; intros [|y b]; simpl; auto.
  destruct (N.ltb_spec (code x) (code y)); [auto|].
  destruct (N.ltb_spec (code y) (code x)); [auto|].
  apply IH.
Qed.

#[global] Instance text_order_trans : Transitive text_order.
Proof.
  intros a. unfold text_order.
  induction a as [|x a IH]; intros [|y b] [|z c]; simpl; try congruence.
  destruct (N.ltb_spec (code x) (code y)), (N.ltb_spec (code y) (code x)),
    (N.ltb_spec (code y) (code z)), (N.ltb_spec (code z) (code y)),
    (N.ltb_spec (code x) (code z)), (N.ltb_spec (code z) (code x));
    try congruence; try lia.
  apply IH.
Qed.

#[global] Instance text_order_antisymm : AntiSymm (=) text_order.
Proof.
  intros a. unfold text_order.
  induction a as [|x a IH]; intros [|y b]; simpl; try congruence.
  destruct (N.ltb_spec (code x) (code y)), (N.ltb_spec (code y) (code x));
    try congruence; try lia.
  intros Hab Hba. f_equal; [apply code_inj; lia|now apply IH].
Qed.

(** [text_order] is the lexicographic order of the code points: [a] comes
    first when it is a prefix of [b], or when at the first position where
    they differ [a] has the smaller code point. *)
Lemma text_order_lexicographic (a b : text) :
  text_order a b <->
  (exists t, b = a ++ t)
  \/ (exists p x y a' b', a = p ++ x :: a' /\ b = p ++ y :: b' /\ (code x < code y)%N).
Proof.
  unfold text_order. revert b.
  induction a as [|x a IH]; intros [|y b]; simpl.
  - split; [left; now exists []|reflexivity].
  - split; [left; now exists (y :: b)|reflexivity].
  - split; [discriminate|].
    intros [[t Ht]|(p & x' & y' & a' & b' & Ha & Hb & _)]; [discriminate|].
    destruct p; discriminate.
  - destruct (N.ltb_spec (code x) (code y)) as [Hlt|Hge].
    + split; [|reflexivity]. intros _. right. now exists [], x, y, a, b.
    + destruct (N.ltb_spec (code y) (code x)) as [Hgt|Hle].
      * split; [discriminate|].
        intros [[t Ht]|(p & x' & y' & a' & b' & Ha & Hb & Hc)].
        -- simplify_eq/=. lia.
        -- destruct p as [|c p]; simplify_eq/=; lia.
      * assert (x = y) as -> by (apply code_inj; lia).
        rewrite IH. split.
        -- intros [[t ->]|(p & x' & y' & a' & b' & -> & -> & Hc)].
           ++ left. now exists t.
           ++ right. now exists (y :: p), x', y', a', b'.
        -- intros [[t Ht]|(p & x' & y' & a' & b' & Ha & Hb & Hc)].
           ++ simplify_eq/=. left. now exists t.
           ++ destruct p as [|c p]; simplify_eq/=; [lia|].
              right. now exists p, x', y', a', b'.
Qed.

Lemma collect_css_elem (fs : filesystem) (html_path content : text)
    (css : gset text) (p : text) :
  p ∈ collect_css fs html_path content css <->
  p ∈ css
  \/ exists m, In m (re_finditer CSS_LINK_RE content)
       /\ p = normpath (path_join (dirname html_path) (default [] (group 1 m)))
       /\ path_exists fs p = true.
Proof.
  unfold collect_css. generalize (re_finditer CSS_LINK_RE content) as ms.
  intros ms. revert css.
  induction ms as [|m ms IH]; intros css; simpl.
  - split; [auto|]. intros [H|(m & [] & _)]. exact H.
  - rewrite IH. split.
    + intros [H|(m' & Hm' & Hp & He)].
      * destruct (path_exists fs (normpath _)) eqn:E; [|now left].
        apply elem_of_union in H as [H|H]; [now left|].
        apply elem_of_singleton in H. right. exists m. subst p. auto.
      * right. exists m'. auto.
    + intros [H|(m' & [<-|Hm'] & Hp & He)].
      * left. destruct (path_exists fs (normpath _)); [|exact H].
        apply elem_of_union. now left.
      * left. rewrite <- Hp, He. apply elem_of_union. right.
        now apply elem_of_singleton.
      * right. exists m'. auto.
Qed.

Lemma foldl_css_elem (fs : filesystem) (live : list (nat * item))
    (css : gset text) (p : text) :
  p ∈ foldl (css_of fs) css live <->
  p ∈ css \/ referenced fs (map snd live) p.
Proof.
  revert css. induction live as [|e live IH]; intros css; simpl.
  - split; [auto|]. intros [H|(it & m & [] & _)]. exact H.
  - rewrite IH. unfold css_of. rewrite collect_css_elem. split.
    + intros [[H|(m & Hm & Hp & He)]|(it & m & Hit & Hm & Hp & He)].
      * now left.
      * right. exists (snd e), m. repeat split; [now left|exact Hm|exact Hp|exact He].
      * right. exists it, m. repeat split; [now right|exact Hm|exact Hp|exact He].
    + intros [H|(it & m & [<-|Hit] & Hm & Hp & He)].
      * left. now left.
      * left. right. exists m. repeat split; [exact Hm|exact Hp|exact He].
      * right. exists it, m. repeat split; [exact Hit|exact Hm|exact Hp|exact He].
Qed.

(** C7.  The stylesheet list of the flattened document holds no path
    twice, is sorted in the lexicographic order of the resolved paths, and
    holds exactly the paths that a stylesheet link of a kept chapter
    resolves to and that exist, however many chapters name them. *)
Theorem stylesheets_sorted_unique (fs : filesystem) (spine : list item)
    (skip_cover : bool) (st : loop_state) :
  flatten fs spine skip_cover = Ok st ->
  List.NoDup (sorted_css (all_css st))
  /\ StronglySorted text_order (sorted_css (all_css st))
  /\ forall p, In p (sorted_css (all_css st))
               <-> referenced fs (chapters_kept fs spine skip_cover) p.
Proof.
  intros H. apply flatten_spec in H. destruct H as [_ Hcss].
  unfold sorted_css. split; [|split].
  - apply NoDup_ListNoDup. rewrite merge_sort_Permutation. apply NoDup_elements.
  - apply StronglySorted_merge_sort; apply _.
  - intros p. rewrite <- list_elem_of_In, merge_sort_Permutation, elem_of_elements.
    rewrite Hcss, foldl_css_elem. unfold chapters_kept.
    split; [intros [H|H]; [|exact H]|auto].
    now apply not_elem_of_empty in H.
Qed.

Lemma stylesheets_sorted_unique_witness :
  exists st, flatten SAMPLE_FS SAMPLE_SPINE true = Ok st
    /\ sorted_css (all_css st)
       = [txt "/tmp/x/OEBPS/css/a.css"; txt "/tmp/x/OEBPS/css/book.css"]
    /\ (List.NoDup (sorted_css (all_css st))
        /\ StronglySorted text_order (sorted_css (all_css st))
        /\ forall p, In p (sorted_css (all_css st))
                     <-> referenced SAMPLE_FS (chapters_kept SAMPLE_FS SAMPLE_SPINE true) p).
Proof.
  eexists. split; [vm_compute; reflexivity|].
  split; [vm_compute; reflexivity|].
  apply (stylesheets_sorted_unique SAMPLE_FS SAMPLE_SPINE true).
  vm_compute. reflexivity.
Defined.

Example shared_stylesheet_once :
  exists st, flatten SHARED_CSS_FS SHARED_CSS_SPINE false = Ok st
    /\ sorted_css (all_css st) = [txt "/b/css/a.css"; txt "/b/css/book.css"].
Proof. eexists. split; vm_compute; reflexivity. Qed.

(* ----------------------------------------------------------------- *)
(** ** Scanning and matching: general facts *)

Lemma starts_with_app p x y :
  starts_with p x = true -> starts_with p (x ++ y) = true.
Proof.
  revert x. induction p as [|a p IH]; intros [|b x]; simpl; try congruence.
  intros H. apply andb_prop in H as [-> H]. simpl. now apply IH.
Qed.

Lemma starts_with_split p s :
  starts_with p s = true <-> exists t, s = p ++ t.
Proof.
  revert s. induction p as [|a p IH]; intros s; simpl.
  - split; [now exists s|reflexivity].
  - destruct s as [|b s].
    + split; [discriminate|]. now intros [t Ht].
    + rewrite andb_true_iff, IH, Ascii.eqb_eq. split.
      * intros [-> [t ->]]. now exists t.
      * intros [t Ht]. injection Ht as -> ->. split; [reflexivity|now exists t].
Qed.

Lemma contains_split p s :
  contains p s = true <-> exists pre post, s = pre ++ p ++ post.
Proof.
  induction s as [|c s IH]; simpl.
  - rewrite orb_false_r, starts_with_split. split.
    + intros [t Ht]. now exists [], t.
    + intros (pre & post & H). destruct pre; [now exists post|discriminate].
  - rewrite orb_true_iff, starts_with_split, IH. split.
    + intros [[t Ht]|(pre & post & ->)].
      * now exists [], t.
      * now exists (c :: pre), post.
    + intros (pre & post & H). destruct pre as [|c' pre]; simpl in H.
      * left. now exists post.
      * injection H as -> ->. right. now exists pre, post.
Qed.

Lemma contains_tail p c s : contains p (c :: s) = false -> contains p s = false.
Proof. simpl. intros H. now apply orb_false_elim in H as [_ H]. Qed.

Lemma contains_head p s : contains p s = false -> starts_with p s = false.
Proof. destruct s; simpl; intros H; now apply orb_false_elim in H as [H _]. Qed.

Section Scan.
Variable m : text -> option (text * nat).

Lemma scan_sub_skip : forall k s,
  k <= length s -> scan_sub m k s = scan_sub m 0 (drop k s).
Proof.
  induction k as [|k IH]; intros s Hk; [now rewrite drop_0|].
  destruct s as [|c s]; simpl in *; [lia|].
  apply IH. lia.
Qed.

Lemma scan_sub_miss c s :
  m (c :: s) = None -> scan_sub m 0 (c :: s) = c :: scan_sub m 0 s.
Proof. simpl. now intros ->. Qed.

Lemma scan_sub_hit out a rest :
  a <> [] -> m (a ++ rest) = Some (out, length a) ->
  scan_sub m 0 (a ++ rest) = out ++ scan_sub m 0 rest.
Proof.
  destruct a as [|c a]; [congruence|]. intros _ H. simpl in *. rewrite H.
  f_equal. rewrite scan_sub_skip by (rewrite length_app; lia).
  now rewrite drop_app_length.
Qed.

(** Where nothing is hit, nothing changes. *)
Lemma scan_sub_prefix pre rest :
  (forall i, i < length pre -> m (drop i pre ++ rest) = None) ->
  scan_sub m 0 (pre ++ rest) = pre ++ scan_sub m 0 rest.
Proof.
  induction pre as [|c pre IH]; intros H; [reflexivity|].
  change ((c :: pre) ++ rest) with (c :: (pre ++ rest)).
  rewrite scan_sub_miss by (apply (H 0); simpl; lia).
  simpl. f_equal. apply IH. intros i Hi. apply (H (S i)). simpl. lia.
Qed.
End Scan.

Section RepeatFacts.
Context {R : Type} (p : ascii -> bool) (k : text -> option R).

(** A repetition hands to its continuation a rest of the subject that
    follows characters of the class. *)
Lemma rep_lazy_some : forall s min r,
  rep_lazy p k min s = Some r ->
  exists a b, s = a ++ b /\ forallb p a = true /\ min <= length a /\ k b = Some r.
Proof.
  induction s as [|c s IH]; intros min r; simpl.
  - destruct min; [|discriminate].
    destruct (k []) eqn:E; [|discriminate].
    intros [= <-]. now exists [], [].
  - assert (Hmore : (if p c then rep_lazy p k (pred min) s else None) = Some r ->
                    exists a b, c :: s = a ++ b /\ forallb p a = true
                                /\ min <= length a /\ k b = Some r).
    { destruct (p c) eqn:Hc; [|discriminate]. intros H.
      apply IH in H as (a & b & -> & Ha & Hmin & Hk).
      exists (c :: a), b. simpl. rewrite Hc, Ha. repeat split; [lia|exact Hk]. }
    destruct min; [|exact Hmore].
    destruct (k (c :: s)) eqn:E; [|exact Hmore].
    intros [= <-]. exists [], (c :: s). repeat split; [simpl; lia|exact E].
Qed.

Lemma rep_greedy_some : forall s min r,
  rep_greedy p k min s = Some r ->
  exists a b, s = a ++ b /\ forallb p a = true /\ min <= length a /\ k b = Some r.
Proof.
  induction s as [|c s IH]; intros min r; simpl.
  - destruct min; [|discriminate]. intros H. now exists [], [].
  - assert (Hstop : match min with 0 => k (c :: s) | S _ => None end = Some r ->
                    exists a b, c :: s = a ++ b /\ forallb p a = true
                                /\ min <= length a /\ k b = Some r).
    { destruct min; [|discriminate]. intros H. exists [], (c :: s).
      repeat split; [simpl; lia|exact H]. }
    destruct (p c) eqn:Hc; [|exact Hstop].
    destruct (rep_greedy p k (pred min) s) eqn:E; [|exact Hstop].
    intros [= <-]. apply IH in E as (a & b & -> & Ha & Hmin & Hk).
    exists (c :: a), b. simpl. rewrite Hc, Ha. repeat split; [lia|exact Hk].
Qed.

(** A lazy repetition stops at the first place, from the minimum on,
    where the continuation succeeds. *)
Lemma rep_lazy_first : forall a b min r,
  forallb p a = true -> min <= length a -> k b = Some r ->
  (forall a1 a2, a = a1 ++ a2 -> a2 <> [] -> min <= length a1 -> k (a2 ++ b) = None) ->
  rep_lazy p k min (a ++ b) = Some r.
Proof.
  induction a as [|c a IH]; intros b min r Ha Hmin Hk Hfirst; simpl in *.
  - assert (min = 0) as -> by lia. destruct b; simpl; now rewrite Hk.
  - apply andb_prop in Ha as [Hc Ha]. rewrite Hc.
    assert (Hrec : rep_lazy p k (pred min) (a ++ b) = Some r).
    { apply IH; [exact Ha|lia|exact Hk|].
      intros a1 a2 -> Ha2 Hlen. apply (Hfirst (c :: a1) a2); [reflexivity|exact Ha2|].
      simpl. lia. }
    destruct min; [|exact Hrec].
    assert (Hn : k (c :: a ++ b) = None)
      by (apply (Hfirst [] (c :: a)); [reflexivity|discriminate|simpl; lia]).
    rewrite Hn. exact Hrec.
Qed.

Lemma rep_lazy_none : forall s min,
  (forall a b, s = a ++ b -> forallb p a = true -> min <= length a -> k b = None) ->
  rep_lazy p k min s = None.
Proof.
  intros s min H. destruct (rep_lazy p k min s) as [r|] eqn:E; [|reflexivity].
  apply rep_lazy_some in E as (a & b & Hs & Ha & Hmin & Hk).
  rewrite (H a b Hs Ha Hmin) in Hk. discriminate.
Qed.
End RepeatFacts.

Lemma exec_lit w : forall cs s k,
  exec (lit w) cs s k = if starts_with w s then k cs (drop (length w) s) else None.
Proof.
  unfold lit. induction w as [|a w IH]; intros cs s k; [reflexivity|].
  destruct w as [|b w].
  - simpl. destruct s as [|c s]; [reflexivity|]. unfold is_chr.
    rewrite andb_true_r. destruct (Ascii.eqb a c); reflexivity.
  - change (cat (map (fun c => Chr (is_chr c)) (a :: b :: w)))
      with (Cat (Chr (is_chr a)) (cat (map (fun c => Chr (is_chr c)) (b :: w)))).
    change (exec (Cat ?r1 ?r2) cs s k) with (exec r1 cs s (fun cs' s' => exec r2 cs' s' k)).
    destruct s as [|c s]; [reflexivity|].
    change (starts_with (a :: b :: w) (c :: s))
      with (Ascii.eqb a c && starts_with (b :: w) s).
    simpl exec at 1. unfold is_chr. destruct (Ascii.eqb a c); [|reflexivity].
    rewrite IH. reflexivity.
Qed.

(** The characters that match do not depend on the continuation: a match
    covers a prefix of the subject. *)
Lemma match_at_length r s cs n : match_at r s = Some (cs, n) -> n <= length s.
Proof.
  unfold match_at. destruct (exec r [] s _) as [[cs' rest]|]; [|discriminate].
  intros [= _ <-]. lia.
Qed.

Lemma rep_lazy_ext {R} p (k1 k2 : text -> option R) :
  (forall s, k1 s = k2 s) ->
  forall s min, rep_lazy p k1 min s = rep_lazy p k2 min s.
Proof.
  intros Hk. induction s as [|c s IH]; intros min; simpl.
  - now rewrite Hk.
  - rewrite Hk, IH. reflexivity.
Qed.

(* ----------------------------------------------------------------- *)
(** ** The link pattern *)

Lemma link_exec s k :
  exec LINK_RE [] s k =
  if starts_with HREF_DQ s
  then rep_lazy link_class (link_kont (drop 6 s) k) 1 (drop 6 s)
  else None.
Proof.
  unfold LINK_RE. cbn [cat]. cbn [exec]. rewrite exec_lit.
  change HREF_DQ with (txt "href=" ++ [DQ]).
  destruct (starts_with (txt "href=") s) eqn:Hp.
  - apply starts_with_split in Hp as [t ->].
    change (length (txt "href=")) with 5. rewrite drop_app_length' by reflexivity.
    destruct t as [|c t]; [reflexivity|].
    change (drop 6 (txt "href=" ++ c :: t)) with t.
    change (starts_with (txt "href=" ++ [DQ]) (txt "href=" ++ c :: t))
      with (Ascii.eqb DQ c && true).
    unfold is_chr. rewrite andb_true_r. destruct (Ascii.eqb DQ c); [|reflexivity].
    unfold plus_lazy. cbn [exec]. apply rep_lazy_ext. intros s'.
    rewrite exec_lit. unfold link_kont, XHTML.
    destruct (starts_with (txt ".xhtml") s'); reflexivity.
  - replace (starts_with (txt "href=" ++ [DQ]) s) with false; [reflexivity|].
    symmetry. apply not_true_is_false. intros H.
    apply starts_with_split in H as [t ->]. rewrite <- app_assoc in Hp.
    rewrite (starts_with_app _ (txt "href=") _) in Hp; [discriminate|].
    apply starts_with_split. now exists [].
Qed.

Lemma link_class_false c : link_class c = false <-> c = DQ \/ c = "#"%char.
Proof.
  unfold link_class, none_of. simpl. rewrite orb_false_r, negb_false_iff, orb_true_iff.
  now rewrite !Ascii.eqb_eq.
Qed.

Lemma link_tail_some cs s k r :
  exec LINK_TAIL cs s k = Some r -> exists c s', s = c :: s' /\ link_class c = false.
Proof.
  unfold LINK_TAIL, opt. cbn [exec]. rewrite exec_lit.
  destruct s as [|c s]; [discriminate|]. intros H. exists c, s. split; [reflexivity|].
  apply link_class_false.
  change (starts_with (txt "#") (c :: s)) with (Ascii.eqb "#" c && true) in H.
  rewrite andb_true_r in H.
  destruct (Ascii.eqb "#" c) eqn:Eh; [right; symmetry; now apply Ascii.eqb_eq|].
  unfold is_chr in H. destruct (Ascii.eqb DQ c) eqn:Eq; [|discriminate].
  left. symmetry. now apply Ascii.eqb_eq.
Qed.

Lemma link_tail_quote cs rest : exec LINK_TAIL cs (DQ :: rest) accept = Some (cs, rest).
Proof. reflexivity. Qed.

Lemma unquoted_true c : unquoted c = true <-> c <> DQ.
Proof.
  unfold unquoted, none_of. simpl. rewrite orb_false_r, negb_true_iff.
  rewrite <- not_true_iff_false, Ascii.eqb_eq. reflexivity.
Qed.

Lemma link_tail_fragment cs frag rest :
  forallb unquoted frag = true ->
  exec LINK_TAIL cs ("#"%char :: frag ++ DQ :: rest) accept = Some ((2, frag) :: cs, rest).
Proof.
  intros Hfrag. unfold LINK_TAIL, opt, star_lazy. cbn [exec]. rewrite exec_lit.
  change (starts_with (txt "#") ("#"%char :: frag ++ DQ :: rest)) with true.
  change (drop (length (txt "#")) ("#"%char :: frag ++ DQ :: rest))
    with (frag ++ DQ :: rest). cbv iota.
  rewrite (rep_lazy_first unquoted _ frag (DQ :: rest) 0 ((2, frag) :: cs, rest));
    [reflexivity|exact Hfrag|lia| |].
  - cbn [exec]. unfold is_chr. rewrite Ascii.eqb_refl. unfold accept. do 3 f_equal.
    rewrite length_app. cbn [length].
    replace (length frag + S (length rest) - S (length rest)) with (length frag) by lia.
    now rewrite take_app_length.
  - intros a1 a2 -> Ha2 _. destruct a2 as [|c a2]; [congruence|]. cbn [exec app].
    rewrite forallb_app in Hfrag. apply andb_prop in Hfrag as [_ Hfrag].
    cbn [forallb] in Hfrag. apply andb_prop in Hfrag as [Hc _].
    apply unquoted_true in Hc. unfold is_chr.
    destruct (Ascii.eqb DQ c) eqn:E; [|reflexivity].
    apply Ascii.eqb_eq in E. congruence.
Qed.

(** Two splits of a text at the first character outside a class agree. *)
Lemma first_outside_unique (p : ascii -> bool) : forall x x' c c' t t',
  x ++ c :: t = x' ++ c' :: t' ->
  forallb p x = true -> p c = false -> forallb p x' = true -> p c' = false ->
  x = x' /\ c = c' /\ t = t'.
Proof.
  induction x as [|a x IH]; intros [|a' x'] c c' t t' H Hx Hc Hx' Hc'; simpl in *.
  - now injection H as -> ->.
  - injection H as -> _. apply andb_prop in Hx' as [Ha _]. congruence.
  - injection H as -> _. apply andb_prop in Hx as [Ha _]. congruence.
  - injection H as -> H.
    apply andb_prop in Hx as [_ Hx]. apply andb_prop in Hx' as [_ Hx'].
    destruct (IH x' c c' t t' H Hx Hc Hx' Hc') as (-> & -> & ->). auto.
Qed.

(* ----------------------------------------------------------------- *)
(** *** The target of a link value *)

Lemma ends_with_split p s : ends_with p s = true <-> exists t, s = t ++ p.
Proof.
  unfold ends_with. rewrite starts_with_split. split.
  - intros [t Ht]. exists (rev t).
    rewrite <- (rev_involutive s), Ht, rev_app_distr, rev_involutive. reflexivity.
  - intros [t ->]. exists (rev t). now rewrite rev_app_distr.
Qed.

Lemma before_hash_split v :
  exists w, v = before_hash v ++ w
    /\ (w = [] \/ exists frag, w = "#"%char :: frag)
    /\ forallb (fun c => negb (Ascii.eqb c "#")) (before_hash v) = true.
Proof.
  induction v as [|c v (w & Hv & Hw & Hg)]; simpl.
  - exists []. auto.
  - destruct (Ascii.eqb c "#") eqn:E.
    + apply Ascii.eqb_eq in E as ->. exists ("#"%char :: v). eauto.
    + exists w. simpl. rewrite E, Hg. split; [now f_equal|auto].
Qed.

Lemma forallb_link_class x :
  forallb unquoted x = true ->
  forallb (fun c => negb (Ascii.eqb c "#")) x = true ->
  forallb link_class x = true.
Proof.
  induction x as [|c x IH]; simpl; [reflexivity|].
  intros H1 H2. apply andb_prop in H1 as [Hq H1]. apply andb_prop in H2 as [Hh H2].
  rewrite IH by assumption. rewrite andb_true_r.
  destruct (link_class c) eqn:E; [reflexivity|].
  apply link_class_false in E as [->| ->]; [discriminate Hq|discriminate Hh].
Qed.

(** The shape of a value with a target. *)
Lemma link_target_some v g :
  forallb unquoted v = true -> link_target v = Some g ->
  exists stem w, g = stem ++ XHTML /\ stem <> [] /\ v = g ++ w
    /\ forallb link_class g = true
    /\ (w = [] \/ exists frag, w = "#"%char :: frag /\ forallb unquoted frag = true).
Proof.
  intros Hv. unfold link_target.
  destruct (ends_with XHTML (before_hash v)) eqn:He; [|discriminate].
  destruct (length XHTML <? length (before_hash v)) eqn:Hl; [|discriminate].
  simpl. intros [= <-].
  apply ends_with_split in He as [stem He]. apply Nat.ltb_lt in Hl.
  destruct (before_hash_split v) as (w & Hsplit & Hw & Hg).
  exists stem, w. split; [exact He|]. split.
  { intros ->. rewrite He in Hl. simpl in Hl. lia. }
  split; [exact Hsplit|].
  rewrite Hsplit, forallb_app in Hv. apply andb_prop in Hv as [Hvg Hvw].
  split; [now apply forallb_link_class|].
  destruct Hw as [->|[frag ->]]; [now left|]. right. exists frag. split; [reflexivity|].
  cbn [forallb] in Hvw. now apply andb_prop in Hvw as [_ Hvw].
Qed.

Lemma drop_inside (p : ascii -> bool) n x t c s' :
  forallb p x = true -> n < length x -> drop n (x ++ t) = c :: s' -> p c = true.
Proof.
  revert x. induction n as [|n IH]; intros [|a x] Hx Hn H; simpl in *; try lia.
  - injection H as -> _. now apply andb_prop in Hx as [Hx _].
  - apply andb_prop in Hx as [_ Hx]. apply (IH x); [exact Hx|lia|exact H].
Qed.

Lemma match_at_link s :
  match_at LINK_RE s =
  if starts_with HREF_DQ s
  then match rep_lazy link_class (link_kont (drop 6 s) accept) 1 (drop 6 s) with
       | Some (cs, rest) => Some (cs, length s - length rest)
       | None => None
       end
  else None.
Proof.
  unfold match_at. fold accept. rewrite link_exec.
  destruct (starts_with HREF_DQ s); reflexivity.
Qed.

(** A value with a target is matched up to its closing quote, and the
    first group is the target. *)
Lemma link_hit v g rest :
  forallb unquoted v = true -> link_target v = Some g ->
  exists cs, match_at LINK_RE (HREF_DQ ++ v ++ DQ :: rest)
             = Some (cs, length (HREF_DQ ++ v ++ [DQ]))
             /\ group 1 cs = Some g.
Proof.
  intros Hv Ht.
  destruct (link_target_some v g Hv Ht) as (stem & w & Hg & Hstem & Hvg & Hcls & Hw).
  assert (Hstem_cls : forallb link_class stem = true).
  { rewrite Hg, forallb_app in Hcls. now apply andb_prop in Hcls as [H _]. }
  set (cs := match w with [] => [(1, g)] | _ :: frag => [(2, frag); (1, g)] end).
  exists cs. split; [|destruct w; reflexivity].
  rewrite match_at_link.
  replace (starts_with HREF_DQ (HREF_DQ ++ v ++ DQ :: rest)) with true
    by (symmetry; apply starts_with_split; eauto).
  change 6 with (length HREF_DQ). rewrite drop_app_length.
  assert (Hs0 : v ++ DQ :: rest = stem ++ (XHTML ++ w ++ DQ :: rest)).
  { rewrite Hvg, Hg, <- !app_assoc. reflexivity. }
  rewrite Hs0.
  rewrite (rep_lazy_first link_class _ stem (XHTML ++ w ++ DQ :: rest) 1 (cs, rest)
             Hstem_cls).
  - f_equal. f_equal. rewrite <- Hs0, !length_app. simpl. lia.
  - destruct stem; [congruence|simpl; lia].
  - unfold link_kont.
    replace (starts_with XHTML (XHTML ++ w ++ DQ :: rest)) with true
      by (symmetry; apply starts_with_split; eauto).
    change (drop 6 (XHTML ++ w ++ DQ :: rest)) with (w ++ DQ :: rest).
    replace (take _ _) with g.
    2:{ rewrite <- Hs0, Hvg, <- app_assoc, length_app.
        replace (length g + length (w ++ DQ :: rest) - length (w ++ DQ :: rest))
          with (length g) by lia.
        now rewrite take_app_length. }
    destruct Hw as [->|(frag & -> & Hfrag)].
    + apply link_tail_quote.
    + apply (link_tail_fragment [(1, g)] frag rest Hfrag).
  - intros a1 a2 Hsplit Ha2 _. unfold link_kont.
    destruct (starts_with XHTML _); [|reflexivity].
    destruct (exec LINK_TAIL _ _ _) as [r|] eqn:E; [|reflexivity].
    apply link_tail_some in E as (c & s' & Hdrop & Hc).
    rewrite app_assoc in Hdrop.
    assert (Hin : forallb link_class (a2 ++ XHTML) = true).
    { rewrite forallb_app. rewrite Hsplit, forallb_app in Hstem_cls.
      apply andb_prop in Hstem_cls as [_ ->]. reflexivity. }
    rewrite (drop_inside link_class 6 (a2 ++ XHTML) (w ++ DQ :: rest) c s' Hin) in Hc;
      [discriminate| |exact Hdrop].
    rewrite length_app. destruct a2; [congruence|simpl; lia].
Qed.

(** A value without a target is not matched. *)
Lemma link_miss v rest :
  forallb unquoted v = true -> link_target v = None ->
  match_at LINK_RE (HREF_DQ ++ v ++ DQ :: rest) = None.
Proof.
  intros Hv Ht. rewrite match_at_link.
  destruct (starts_with HREF_DQ _); [|reflexivity].
  change 6 with (length HREF_DQ). rewrite drop_app_length.
  rewrite rep_lazy_none; [reflexivity|].
  intros a b Hs Ha Hmin. unfold link_kont.
  destruct (starts_with XHTML b) eqn:Hx; [|reflexivity].
  destruct (exec LINK_TAIL _ _ _) as [r|] eqn:E; [|reflexivity].
  exfalso.
  apply starts_with_split in Hx as [b' ->].
  change (drop 6 (XHTML ++ b')) with b' in E.
  apply link_tail_some in E as (c & s' & -> & Hc).
  destruct (before_hash_split v) as (w & Hsplit & Hw & Hg).
  assert (Hgv : forallb link_class (before_hash v) = true).
  { apply forallb_link_class; [|exact Hg].
    rewrite Hsplit, forallb_app in Hv. now apply andb_prop in Hv as [H _]. }
  assert (Hfirst : exists c0 t0, w ++ DQ :: rest = c0 :: t0 /\ link_class c0 = false).
  { destruct Hw as [->|[frag ->]]; simpl; eauto. }
  destruct Hfirst as (c0 & t0 & Hw0 & Hc0).
  assert (Heq : before_hash v ++ c0 :: t0 = (a ++ XHTML) ++ c :: s').
  { rewrite <- Hw0, app_assoc, <- Hsplit, Hs, <- app_assoc. reflexivity. }
  apply first_outside_unique with (p := link_class) in Heq as (Hb & _ & _);
    [|exact Hgv|exact Hc0| |exact Hc].
  2:{ rewrite forallb_app, Ha. reflexivity. }
  unfold link_target in Ht. rewrite Hb in Ht.
  replace (ends_with XHTML (a ++ XHTML)) with true in Ht
    by (symmetry; apply ends_with_split; eauto).
  replace (length XHTML <? length (a ++ XHTML)) with true in Ht; [discriminate|].
  symmetry. apply Nat.ltb_lt. rewrite length_app. lia.
Qed.

(** Where the subject does not start with [href=] and a quote, the link
    pattern does not match. *)
Lemma link_needs_href s : starts_with HREF_DQ s = false -> match_at LINK_RE s = None.
Proof. intros H. rewrite match_at_link, H. reflexivity. Qed.

(* ----------------------------------------------------------------- *)
(** *** Link rewriting on a whole body *)

Lemma with_links_starts_h l : starts_h (with_links href_attr l) = true.
Proof. destruct l as [|[v t] l]; reflexivity. Qed.

Lemma HREF_DQ_chars : HREF_DQ = ["h"; "r"; "e"; "f"; "="; DQ]%char.
Proof. reflexivity. Qed.

Lemma starts_h_no_tail (q : text) (a : ascii) r :
  starts_h r = true -> Ascii.eqb a "h" = false -> starts_with (a :: q) r = false.
Proof.
  destruct r as [|c r]; [reflexivity|]. cbn [starts_h]. intros Hc Ha.
  apply Ascii.eqb_eq in Hc as <-. cbn [starts_with]. now rewrite Ha.
Qed.

Lemma starts_with_cons a q c x :
  starts_with (a :: q) (c :: x) = Ascii.eqb a c && starts_with q x.
Proof. reflexivity. Qed.

Lemma starts_with_nil_r a q : starts_with (a :: q) [] = false.
Proof. reflexivity. Qed.

Lemma starts_with_nil_l x : starts_with [] x = true.
Proof. destruct x; reflexivity. Qed.

(** An occurrence of [href=] and a quote cannot begin in text that has
    none and end in what follows. *)
Lemma no_straddle x r :
  x <> [] -> starts_with HREF_DQ x = false -> starts_h r = true ->
  starts_with HREF_DQ (x ++ r) = false.
Proof.
  intros Hx Hs Hr. rewrite HREF_DQ_chars in *.
  destruct x as [|c1 [|c2 [|c3 [|c4 [|c5 [|c6 x]]]]]]; [congruence|..];
    cbn [app]; rewrite !starts_with_cons in *;
    rewrite ?(starts_h_no_tail _ _ r Hr) by reflexivity;
    rewrite ?andb_false_r; try reflexivity.
  rewrite starts_with_nil_l in *. exact Hs.
Qed.

Lemma contains_drop p s i : contains p s = false -> contains p (drop i s) = false.
Proof.
  revert s. induction i as [|i IH]; intros s H; [now rewrite drop_0|].
  destruct s as [|c s]; [exact H|]. apply IH. now apply contains_tail in H.
Qed.

Lemma rewrite_links_scan s : rewrite_links s = scan_sub link_step 0 s.
Proof. reflexivity. Qed.

Lemma link_step_needs_href s : starts_with HREF_DQ s = false -> link_step s = None.
Proof. intros H. unfold link_step. now rewrite link_needs_href. Qed.

(** Plain text is copied. *)
Lemma plain_copied t r :
  plain t -> starts_h r = true -> rewrite_links (t ++ r) = t ++ rewrite_links r.
Proof.
  intros Ht Hr. rewrite !rewrite_links_scan. apply scan_sub_prefix.
  intros i Hi. apply link_step_needs_href, no_straddle; [| |exact Hr].
  - intros H. apply (f_equal length) in H. rewrite length_drop in H. simpl in H. lia.
  - apply contains_head, contains_drop, Ht.
Qed.

Lemma forallb_drop {A} (p : A -> bool) l i : forallb p l = true -> forallb p (drop i l) = true.
Proof.
  revert l. induction i as [|i IH]; intros l H; [now rewrite drop_0|].
  destruct l as [|c l]; [exact H|]. apply IH. simpl in H. now apply andb_prop in H as [_ H].
Qed.

Lemma ends_with_drop p s i : ends_with p (drop i s) = true -> ends_with p s = true.
Proof.
  rewrite !ends_with_split. intros [t Ht]. exists (take i s ++ t).
  rewrite <- app_assoc, <- Ht. now rewrite take_drop.
Qed.

(** Inside a value that does not end in [href=], no occurrence begins. *)
Lemma value_no_hit u x :
  forallb unquoted u = true -> ends_with (txt "href=") u = false ->
  starts_with HREF_DQ (u ++ DQ :: x) = false.
Proof.
  intros Hu He. rewrite HREF_DQ_chars.
  destruct u as [|c1 [|c2 [|c3 [|c4 [|c5 [|c6 u]]]]]];
    cbn [app]; rewrite !starts_with_cons;
    try (change (Ascii.eqb ?a DQ) with false; rewrite ?andb_false_r; reflexivity).
  - unfold ends_with in He. cbn [rev app txt list_ascii_of_string] in He.
    rewrite !starts_with_cons in He.
    destruct (Ascii.eqb "h" c1), (Ascii.eqb "r" c2), (Ascii.eqb "e" c3),
      (Ascii.eqb "f" c4), (Ascii.eqb "=" c5); try reflexivity. discriminate He.
  - cbn [forallb] in Hu. repeat (apply andb_prop in Hu as [? Hu]).
    match goal with H : unquoted c6 = true |- _ => apply unquoted_true in H end.
    destruct (Ascii.eqb DQ c6) eqn:E; [|now rewrite ?andb_false_r].
    apply Ascii.eqb_eq in E. congruence.
Qed.

(** An attribute without a target is copied. *)
Lemma attr_copied v x :
  value_ok v -> link_target v = None ->
  rewrite_links (href_attr v ++ x) = href_attr v ++ rewrite_links x.
Proof.
  intros [Hv He] Ht. specialize (He Ht).
  rewrite !rewrite_links_scan. apply scan_sub_prefix. intros i Hi.
  unfold href_attr in *.
  destruct i as [|i].
  { rewrite drop_0, <- !app_assoc. unfold link_step.
    change ([DQ] ++ x) with (DQ :: x). now rewrite link_miss. }
  apply link_step_needs_href. rewrite HREF_DQ_chars in *.
  do 5 (destruct i as [|i]; [reflexivity|]).
  change (drop (S (S (S (S (S (S i))))))
            (["h"; "r"; "e"; "f"; "="; DQ]%char ++ v ++ [DQ]))
    with (drop i (v ++ [DQ])).
  rewrite length_app in Hi. cbn [length] in Hi.
  rewrite length_app in Hi. cbn [length] in Hi.
  rewrite drop_app_le by lia. rewrite <- app_assoc.
  rewrite <- HREF_DQ_chars. apply value_no_hit.
  - now apply forallb_drop.
  - apply not_true_is_false. intros H. apply ends_with_drop in H. congruence.
Qed.

(** An attribute with a target is replaced. *)
Lemma attr_rewritten v g x :
  value_ok v -> link_target v = Some g ->
  rewrite_links (href_attr v ++ x)
  = fmt "href=`#" ++ replace XHTML [] g ++ [DQ] ++ rewrite_links x.
Proof.
  intros [Hv _] Ht. destruct (link_hit v g x Hv Ht) as (cs & Hm & Hg).
  rewrite !rewrite_links_scan.
  rewrite (scan_sub_hit link_step (link_repl cs) (href_attr v) x).
  - unfold link_repl. rewrite Hg. simpl default. rewrite <- !app_assoc. reflexivity.
  - unfold href_attr. destruct v; discriminate.
  - unfold link_step, href_attr in *. rewrite <- !app_assoc.
    change ([DQ] ++ x) with (DQ :: x). now rewrite Hm.
Qed.

(** On a body made of plain text and well-formed [href] attributes, the
    link rewriting replaces the attributes one by one and copies the
    rest. *)
Lemma rewrite_links_segments t0 l :
  plain t0 -> Forall segment_ok l ->
  rewrite_links (t0 ++ with_links href_attr l) = t0 ++ with_links rewritten_attr l.
Proof.
  intros Ht0 Hl. rewrite plain_copied by (exact Ht0 || apply with_links_starts_h).
  f_equal. induction Hl as [|[v t] l [Hv Ht] Hl IH]; [reflexivity|].
  cbn [with_links fst snd] in *. unfold rewritten_attr.
  destruct (link_target v) as [g|] eqn:E.
  - rewrite (attr_rewritten v g) by assumption.
    rewrite plain_copied by (exact Ht || apply with_links_starts_h).
    rewrite IH, <- !app_assoc. reflexivity.
  - rewrite attr_copied by assumption.
    rewrite plain_copied by (exact Ht || apply with_links_starts_h).
    rewrite IH. reflexivity.
Qed.


(** A target that ends in [.html] is not a target of the rule. *)
Lemma html_target_none v :
  ends_with (txt ".html") (before_hash v) = true -> link_target v = None.
Proof.
  intros H. apply ends_with_split in H as [t Ht]. unfold link_target.
  replace (ends_with XHTML (before_hash v)) with false; [reflexivity|].
  unfold ends_with. rewrite Ht, rev_app_distr. reflexivity.
Qed.

Lemma link_target_shape v g :
  link_target v = Some g ->
  g = before_hash v /\ exists stem, stem <> [] /\ g = stem ++ XHTML.
Proof.
  unfold link_target.
  destruct (ends_with XHTML (before_hash v)) eqn:He; [|discriminate].
  destruct (length XHTML <? length (before_hash v)) eqn:Hl; [|discriminate].
  simpl. intros [= <-]. split; [reflexivity|].
  apply ends_with_split in He as [stem He]. apply Nat.ltb_lt in Hl.
  exists stem. split; [|exact He].
  intros ->. rewrite He in Hl. simpl in Hl. lia.
Qed.

(** C2, as the code has it.  In a body made of text without [href=] and
    a double quote, and of double-quoted [href] attributes, the rule
    replaces every attribute whose value, up to its first [#], is a
    non-empty name followed by [.xhtml] by a reference to [#] and that
    value with every [.xhtml] removed, and drops the fragment; this holds
    for external URLs of that shape as well.  Every other attribute, among
    them the ones whose target ends in [.html], and all other text are
    copied unchanged. *)
Theorem xhtml_links_rewritten (t0 : text) (l : list (text * text)) :
  plain t0 -> Forall segment_ok l ->
  rewrite_links (t0 ++ with_links href_attr l) = t0 ++ with_links rewritten_attr l
  /\ (forall v g, link_target v = Some g ->
        rewritten_attr v = fmt "href=`#" ++ replace XHTML [] g ++ [DQ]
        /\ g = before_hash v /\ exists stem, stem <> [] /\ g = stem ++ XHTML)
  /\ (forall v, link_target v = None -> rewritten_attr v = href_attr v)
  /\ (forall v, ends_with (txt ".html") (before_hash v) = true ->
        rewritten_attr v = href_attr v).
Proof.
  intros Ht0 Hl. split; [now apply rewrite_links_segments|].
  split; [|split].
  - intros v g Hg. split; [|now apply link_target_shape].
    unfold rewritten_attr. now rewrite Hg.
  - intros v Hv. unfold rewritten_attr. now rewrite Hv.
  - intros v Hv. unfold rewritten_attr. now rewrite html_target_none.
Qed.

Lemma xhtml_links_rewritten_witness :
  rewrite_links (txt "<a " ++ with_links href_attr SAMPLE_LINKS)
    = txt "<a " ++ with_links rewritten_attr SAMPLE_LINKS
  /\ (forall v g, link_target v = Some g ->
        rewritten_attr v = fmt "href=`#" ++ replace XHTML [] g ++ [DQ]
        /\ g = before_hash v /\ exists stem, stem <> [] /\ g = stem ++ XHTML)
  /\ (forall v, link_target v = None -> rewritten_attr v = href_attr v)
  /\ (forall v, ends_with (txt ".html") (before_hash v) = true ->
        rewritten_attr v = href_attr v).
Proof.
  apply (xhtml_links_rewritten (txt "<a ") SAMPLE_LINKS).
  - vm_compute. reflexivity.
  - repeat constructor; try (vm_compute; reflexivity);
      intros _; vm_compute; reflexivity.
Defined.

Example sample_links_rewritten :
  txt "<a " ++ with_links rewritten_attr SAMPLE_LINKS
  = fmt "<a href=`#ch2`>Next</a> <a href=`notes.html`>Notes</a> <a href=`http://example.org/`>Site</a>".
Proof. vm_compute. reflexivity. Qed.

(** C2 as the specification words it fails on an external URL that ends
    in [.xhtml]: it is rewritten like a chapter link. *)
Lemma external_xhtml_url_rewritten :
  rewrite_links (fmt "<a href=`http://example.org/page.xhtml`>x</a>")
    = fmt "<a href=`#http://example.org/page`>x</a>"
  /\ rewrite_links (fmt "<a href=`http://example.org/page.xhtml`>x</a>")
    <> fmt "<a href=`http://example.org/page.xhtml`>x</a>".
Proof. split; [vm_compute; reflexivity|vm_compute; discriminate]. Qed.

(* ----------------------------------------------------------------- *)
(** *** Namespace stripping leaves other text alone *)

Lemma match_at_needs (w : text) (r : regex) (min : nat) (s : text) :
  contains w s = false ->
  match_at (Cat (Rep Greedy min isspace) (Cat (lit w) r)) s = None.
Proof.
  intros Hw. unfold match_at. cbn [exec].
  destruct (rep_greedy _ _ _ _) as [[cs rest]|] eqn:E; [|reflexivity].
  apply rep_greedy_some in E as (a & b & -> & _ & _ & Hk).
  rewrite exec_lit in Hk.
  destruct (starts_with w b) eqn:Hb; [|discriminate].
  apply starts_with_split in Hb as [t ->].
  assert (contains w (a ++ w ++ t) = true) by (apply contains_split; eauto).
  congruence.
Qed.

Lemma re_sub_absent (w : text) (r : regex) (min : nat) (f : captures -> text) (s : text) :
  w <> [] -> contains w s = false ->
  re_sub (Cat (Rep Greedy (S min) isspace) (Cat (lit w) r)) f s = s.
Proof.
  intros Hne Hw. unfold re_sub. rewrite <- (app_nil_r s) at 1.
  rewrite scan_sub_prefix.
  - cbn [scan_sub]. cbv beta.
    rewrite (match_at_needs w r (S min) []); [apply app_nil_r|].
    destruct w; [congruence|reflexivity].
  - intros i _. rewrite app_nil_r. rewrite match_at_needs; [reflexivity|].
    now apply contains_drop.
Qed.

Lemma strip_namespaces_absent body :
  contains (txt "xmlns") body = false -> contains (txt "epub:type=") body = false ->
  strip_namespaces body = body.
Proof.
  intros Hx He. unfold strip_namespaces.
  assert (H1 : re_sub XMLNS_RE drop_match body = body).
  { unfold XMLNS_RE, plus. cbn [cat]. now apply re_sub_absent. }
  rewrite H1. unfold EPUB_TYPE_RE, plus. cbn [cat]. now apply re_sub_absent.
Qed.

(* ----------------------------------------------------------------- *)
(** *** Single-quoted links *)



(** The same chapter link with double quotes is rewritten. *)
Example double_quoted_link_rewritten :
  rewrite_links (fmt "<a href=`chapter2.xhtml`>Next</a>") = fmt "<a href=`#chapter2`>Next</a>".
Proof. vm_compute. reflexivity. Qed.

(* ----------------------------------------------------------------- *)
(** ** Anchor ids *)

Lemma no_dot_head s r q i :
  no_dot s -> i < length s -> starts_with ("."%char :: q) (drop i s ++ r) = false.
Proof.
  intros Hs Hi. apply (forallb_drop _ _ i) in Hs.
  destruct (drop i s) as [|c s'] eqn:E.
  - apply (f_equal length) in E. rewrite length_drop in E. simpl in E. lia.
  - cbn [forallb app] in *. rewrite starts_with_cons.
    apply andb_prop in Hs as [Hc _]. apply negb_true_iff in Hc. now rewrite Hc.
Qed.

(** [replace] leaves a name without a dot alone, whatever extension it
    looks for. *)
Lemma replace_no_dot q new s : no_dot s -> replace ("."%char :: q) new s = s.
Proof.
  intros Hs. unfold replace. rewrite <- (app_nil_r s) at 1.
  rewrite scan_sub_prefix; [apply app_nil_r|].
  intros i Hi. now rewrite no_dot_head.
Qed.

Lemma replace_extension stem : no_dot stem -> replace XHTML [] (stem ++ XHTML) = stem.
Proof.
  intros Hs. unfold replace. rewrite scan_sub_prefix.
  - change (scan_sub _ 0 XHTML) with (@nil ascii). apply app_nil_r.
  - intros i Hi. change XHTML with ("."%char :: txt "xhtml") at 1. now rewrite no_dot_head.
Qed.

Lemma anchor_id_simple it stem :
  basename (href it) = stem ++ XHTML -> no_dot stem -> anchor_id it = stem.
Proof.
  intros Hb Hs. unfold anchor_id. rewrite Hb.
  change (txt ".xhtml") with XHTML. rewrite replace_extension by exact Hs.
  change (txt ".html") with ("."%char :: txt "html"). now apply replace_no_dot.
Qed.

Lemma anchor_ids_distinct (l : list item) :
  (forall it, In it l -> simple_name it) ->
  List.NoDup (map (fun it => basename (href it)) l) ->
  List.NoDup (map anchor_id l).
Proof.
  induction l as [|a l IH]; intros Hsimple Hnd; simpl; [constructor|].
  simpl in Hnd. apply NoDup_cons_iff in Hnd as [Hnotin Hnd].
  apply NoDup_cons_iff. split.
  - intros Hin. apply Hnotin.
    apply in_map_iff in Hin as (b & Heq & Hb). apply in_map_iff. exists b.
    split; [|exact Hb].
    destruct (Hsimple a (or_introl eq_refl)) as (sa & Ha & Hda).
    destruct (Hsimple b (or_intror Hb)) as (sb & Hbn & Hdb).
    rewrite (anchor_id_simple a sa Ha Hda), (anchor_id_simple b sb Hbn Hdb) in Heq.
    rewrite Ha, Hbn. now rewrite Heq.
  - apply IH; [|exact Hnd]. intros it Hit. apply Hsimple. now right.
Qed.

Lemma anchors_of_kept fs spine skip_cover st :
  flatten fs spine skip_cover = Ok st ->
  map anchor (all_bodies st) = map anchor_id (chapters_kept fs spine skip_cover).
Proof.
  intros H. apply flatten_spec in H as [-> _]. unfold chapters_kept.
  rewrite !map_map. reflexivity.
Qed.

(** C1, as the code has it.  The anchor id of a block is the file name of
    its spine entry with every [.xhtml] and then every [.html] removed.
    The code does nothing to keep the ids apart: they are pairwise
    distinct when the kept entries have pairwise distinct file names of
    the form of a name without a dot followed by [.xhtml].  For such an
    entry, a double-quoted link whose target, up to the fragment, is the
    file name of the entry is rewritten to [#] and exactly the anchor id of
    the entry, which is the id of a block of the document. *)
Theorem anchors_match_rewritten_links (fs : filesystem) (spine : list item)
    (skip_cover : bool) (st : loop_state) :
  flatten fs spine skip_cover = Ok st ->
  map anchor (all_bodies st) = map anchor_id (chapters_kept fs spine skip_cover)
  /\ ((forall it, In it (chapters_kept fs spine skip_cover) -> simple_name it) ->
      List.NoDup (map (fun it => basename (href it)) (chapters_kept fs spine skip_cover)) ->
      List.NoDup (map anchor (all_bodies st)))
  /\ (forall it v x,
        In it (chapters_kept fs spine skip_cover) -> simple_name it ->
        forallb unquoted v = true ->
        link_target v = Some (basename (href it)) ->
        rewrite_links (href_attr v ++ x)
          = fmt "href=`#" ++ anchor_id it ++ [DQ] ++ rewrite_links x
        /\ In (anchor_id it) (map anchor (all_bodies st))).
Proof.
  intros H. pose proof (anchors_of_kept _ _ _ _ H) as Hanchors.
  split; [exact Hanchors|]. rewrite Hanchors. split.
  - apply anchor_ids_distinct.
  - intros it v x Hit (stem & Hb & Hs) Hv Ht. split.
    + rewrite (attr_rewritten v (basename (href it))); [|split; [exact Hv|congruence]|exact Ht].
      rewrite Hb, replace_extension by exact Hs.
      now rewrite (anchor_id_simple it stem Hb Hs).
    + now apply in_map.
Qed.

Lemma anchors_match_rewritten_links_witness :
  exists st, flatten SAMPLE_FS SAMPLE_SPINE true = Ok st
  /\ map anchor (all_bodies st) = [txt "ch1"; txt "ch2"]
  /\ (map anchor (all_bodies st) = map anchor_id (chapters_kept SAMPLE_FS SAMPLE_SPINE true)
      /\ ((forall it, In it (chapters_kept SAMPLE_FS SAMPLE_SPINE true) -> simple_name it) ->
          List.NoDup (map (fun it => basename (href it))
                          (chapters_kept SAMPLE_FS SAMPLE_SPINE true)) ->
          List.NoDup (map anchor (all_bodies st)))
      /\ (forall it v x,
            In it (chapters_kept SAMPLE_FS SAMPLE_SPINE true) -> simple_name it ->
            forallb unquoted v = true ->
            link_target v = Some (basename (href it)) ->
            rewrite_links (href_attr v ++ x)
              = fmt "href=`#" ++ anchor_id it ++ [DQ] ++ rewrite_links x
            /\ In (anchor_id it) (map anchor (all_bodies st)))).
Proof.
  eexists. split; [vm_compute; reflexivity|].
  split; [vm_compute; reflexivity|].
  apply (anchors_match_rewritten_links SAMPLE_FS SAMPLE_SPINE true).
  vm_compute. reflexivity.
Defined.

(** C1 as the specification words it fails on the twins: both blocks get
    the id [ch1], and the link to the second chapter is rewritten to
    [#../Extra/ch1], which is the id of no block. *)
Lemma twin_chapters_share_anchor :
  exists st, flatten TWIN_FS TWIN_SPINE false = Ok st
    /\ map anchor (all_bodies st) = [txt "ch1"; txt "ch1"]
    /\ ~ List.NoDup (map anchor (all_bodies st))
    /\ map body_html (all_bodies st)
       = [fmt "<a href=`#../Extra/ch1`>More</a>"; txt "<p>More</p>"]
    /\ ~ In (txt "../Extra/ch1") (map anchor (all_bodies st)).
Proof.
  eexists. split; [vm_compute; reflexivity|].
  split; [vm_compute; reflexivity|].
  split; [|split; [vm_compute; reflexivity|]].
  - intros H. apply NoDup_cons_iff in H as [H _]. apply H. now left.
  - intros [H|[H|[]]]; discriminate H.
Qed.

(* ================================================================= *)
(** * Further properties *)

(* ----------------------------------------------------------------- *)
(** ** The manifest, the spine and the cover reference *)

Lemma manifest_get_set_eq k v m : manifest_get k (manifest_set k v m) = Some v.
Proof.
  unfold manifest_get. induction m as [|[k' v'] m IH]; simpl.
  - now rewrite bool_decide_eq_true_2.
  - destruct (bool_decide (k' = k)) eqn:E; simpl.
    + now rewrite bool_decide_eq_true_2.
    + now rewrite E.
Qed.

Lemma manifest_get_set_ne k k' v m :
  k' <> k -> manifest_get k' (manifest_set k v m) = manifest_get k' m.
Proof.
  intros Hne. unfold manifest_get. induction m as [|[k0 v0] m IH]; simpl.
  - rewrite bool_decide_eq_false_2; [reflexivity|congruence].
  - destruct (bool_decide (k0 = k)) eqn:E; simpl.
    + apply bool_decide_eq_true in E as ->.
      rewrite !bool_decide_eq_false_2 by congruence. reflexivity.
    + destruct (bool_decide (k0 = k')); [reflexivity|exact IH].
Qed.

Lemma manifest_set_keys_old k v m :
  In k (map fst m) -> map fst (manifest_set k v m) = map fst m.
Proof.
  induction m as [|[k' v'] m IH]; simpl; [intros []|].
  destruct (bool_decide (k' = k)) eqn:E; simpl.
  - apply bool_decide_eq_true in E as ->. reflexivity.
  - apply bool_decide_eq_false in E. intros [?|H]; [congruence|]. now rewrite IH.
Qed.

Lemma manifest_set_keys_new k v m :
  ~ In k (map fst m) -> map fst (manifest_set k v m) = map fst m ++ [k].
Proof.
  induction m as [|[k' v'] m IH]; simpl; [reflexivity|].
  intros H. destruct (bool_decide (k' = k)) eqn:E; simpl.
  - apply bool_decide_eq_true in E. tauto.
  - rewrite IH; [reflexivity|tauto].
Qed.

Lemma manifest_set_NoDup k v m :
  List.NoDup (map fst m) -> List.NoDup (map fst (manifest_set k v m)).
Proof.
  intros H. destruct (decide (k ∈ map fst m)) as [Hin|Hin].
  - rewrite manifest_set_keys_old; [exact H|now apply list_elem_of_In].
  - rewrite manifest_set_keys_new by (now rewrite <- list_elem_of_In).
    apply NoDup_ListNoDup, NoDup_app. split; [now apply NoDup_ListNoDup|].
    split; [|apply NoDup_singleton].
    intros x Hx Hk. apply list_elem_of_singleton in Hk as ->. contradiction.
Qed.

Lemma manifest_set_In k v m kv :
  In kv (manifest_set k v m) -> kv = (k, v) \/ In kv m.
Proof.
  induction m as [|[k' v'] m IH]; simpl.
  - intros [<-|[]]. now left.
  - destruct (bool_decide (k' = k)); simpl.
    + intros [<-|H]; [now left|right; now right].
    + intros [<-|H]; [right; now left|].
      destruct (IH H) as [->|H']; [now left|right; now right].
Qed.

Lemma build_manifest_inv opf_dir items : forall m0 m,
  build_manifest opf_dir items m0 = Ok m ->
  (List.NoDup (map fst m0) -> List.NoDup (map fst m))
  /\ (forall k, manifest_get k m =
                match last_with_id k items with
                | Some e => entry_of opf_dir e
                | None => manifest_get k m0
                end)
  /\ (forall kv, In kv m ->
        In kv m0 \/ exists e, In e items /\ fst kv = item_id e
                              /\ entry_of opf_dir e = Some (snd kv)).
Proof.
  induction items as [|it items IH]; intros m0 m H; cbn [build_manifest] in H.
  - injection H as <-. repeat split; auto.
  - destruct (get (txt "href") it) as [h|] eqn:Hh;
      unfold or_raise, mbind, result_bind in H; [|discriminate].
    apply IH in H as (Hnd & Hget & Hin).
    assert (Hentry : entry_of opf_dir it
                     = Some {| href := h;
                               media_type := default [] (get (txt "media-type") it);
                               properties := default [] (get (txt "properties") it);
                               full_path := normpath (path_join opf_dir h) |})
      by (unfold entry_of; now rewrite Hh).
    split; [|split].
    + intros H0. now apply Hnd, manifest_set_NoDup.
    + intros k. rewrite Hget. unfold last_with_id. cbn [List.filter].
      destruct (bool_decide (item_id it = k)) eqn:E.
      * apply bool_decide_eq_true in E. rewrite last_cons.
        destruct (last (List.filter _ items)); [reflexivity|].
        unfold item_id in E. rewrite <- E, manifest_get_set_eq. now rewrite Hentry.
      * apply bool_decide_eq_false in E.
        destruct (last (List.filter _ items)); [reflexivity|].
        apply manifest_get_set_ne. unfold item_id in E. congruence.
    + intros kv Hkv. destruct (Hin kv Hkv) as [H0|(e & He & Hid & Hen)].
      * apply manifest_set_In in H0 as [->|H0]; [|now left].
        right. exists it. split; [now left|]. split; [reflexivity|exact Hentry].
      * right. exists e. split; [now right|]. now split.
Qed.

(** X1.  The manifest is a dictionary keyed by the [id] of the items:
    no key occurs twice, and a key that several items carry holds the
    entry of the last of them. *)
Theorem manifest_last_item_wins (opf_dir : text) (items : list element)
    (manifest : manifest_t) :
  build_manifest opf_dir items [] = Ok manifest ->
  List.NoDup (map fst manifest)
  /\ forall k, manifest_get k manifest = last_with_id k items ≫= entry_of opf_dir.
Proof.
  intros H. apply build_manifest_inv in H as (Hnd & Hget & _). split.
  - apply Hnd. constructor.
  - intros k. rewrite Hget. destruct (last_with_id k items); reflexivity.
Qed.

Lemma manifest_last_item_wins_witness :
  exists manifest,
    build_manifest (txt "/t/OEBPS") (iter (clark OPF_NS (txt "item")) SAMPLE_PACKAGE) []
      = Ok manifest
    /\ href <$> manifest_get (Some (txt "c1")) manifest = Some (txt "Text/ch1.xhtml")
    /\ (List.NoDup (map fst manifest)
        /\ forall k, manifest_get k manifest
                     = last_with_id k (iter (clark OPF_NS (txt "item")) SAMPLE_PACKAGE)
                       ≫= entry_of (txt "/t/OEBPS")).
Proof.
  eexists. split; [vm_compute; reflexivity|]. split; [vm_compute; reflexivity|].
  apply (manifest_last_item_wins (txt "/t/OEBPS")). vm_compute. reflexivity.
Defined.

(** X2.  Building the manifest succeeds exactly when every [<item>] has
    an [href]; an item without one raises [TypeError] (from
    [os.path.join]), whether or not the spine refers to it. *)
Theorem manifest_needs_every_href (opf_dir : text) (items : list element)
    (m0 : manifest_t) :
  ((exists m, build_manifest opf_dir items m0 = Ok m)
   <-> Forall (fun e => is_Some (get (txt "href") e)) items)
  /\ (forall e, build_manifest opf_dir items m0 = Raise e -> e = TypeError).
Proof.
  revert m0. induction items as [|it items IH]; intros m0; cbn [build_manifest].
  - split; [|discriminate]. split; [constructor|]. intros _. now exists m0.
  - destruct (get (txt "href") it) as [h|] eqn:Hh; unfold or_raise, mbind, result_bind.
    + destruct (IH (manifest_set (get (txt "id") it)
                      {| href := h;
                         media_type := default [] (get (txt "media-type") it);
                         properties := default [] (get (txt "properties") it);
                         full_path := normpath (path_join opf_dir h) |} m0))
        as [Hiff Herr].
      split; [|exact Herr]. rewrite Hiff, Forall_cons. rewrite Hh.
      split; [intros H; split; [eauto|exact H]|now intros [_ H]].
    + split; [|now intros e [= <-]]. split.
      * intros [m [=]].
      * intros H. apply Forall_cons in H as [[x Hx] _]. congruence.
Qed.

Lemma omap_cons_case {A B} (f : A -> option B) x l :
  omap f (x :: l) = match f x with Some y => y :: omap f l | None => omap f l end.
Proof. reflexivity. Qed.

Lemma manifest_get_In k it manifest :
  manifest_get k manifest = Some it -> exists k', In (k', it) manifest.
Proof.
  unfold manifest_get.
  destruct (List.find _ manifest) as [[k' v]|] eqn:Hf; [|discriminate].
  simpl. intros [= ->]. apply find_some in Hf as [Hin _]. now exists k'.
Qed.

Lemma spine_in_manifest manifest refs it :
  In it (build_spine manifest refs) -> exists k, In (k, it) manifest.
Proof.
  unfold build_spine. intros Hit.
  apply list_elem_of_In, list_elem_of_omap in Hit as (ref & _ & Hget).
  now apply manifest_get_In in Hget.
Qed.

Lemma find_cover_in_manifest ns_prefix root manifest p :
  find_cover ns_prefix root manifest = Some p ->
  exists k it, In (k, it) manifest /\ p = full_path it.
Proof.
  unfold find_cover. fold declares_cover.
  destruct (List.find declares_cover manifest) as [[k it]|] eqn:Hf.
  - intros [= <-]. apply find_some in Hf as [Hin _]. now exists k, it.
  - intros H. destruct (head _) as [it|] eqn:Hh; [|discriminate].
    injection H as <-. apply head_Some_elem_of in Hh.
    apply list_elem_of_omap in Hh as (meta & _ & Hget).
    destruct (bool_decide _); [|discriminate].
    apply manifest_get_In in Hget as [k Hk]. now exists k, it.
Qed.

(** X3.  The spine keeps the order of the [<itemref>] elements; a
    reference to an id the manifest does not hold is dropped, and every
    spine entry is an entry of the manifest. *)
Theorem spine_resolves_known_ids (manifest : manifest_t) (pre post : list element)
    (r : element) :
  build_spine manifest (pre ++ post) = build_spine manifest pre ++ build_spine manifest post
  /\ (manifest_get (get (txt "idref") r) manifest = None ->
      build_spine manifest (pre ++ r :: post) = build_spine manifest (pre ++ post))
  /\ (forall it, manifest_get (get (txt "idref") r) manifest = Some it ->
      build_spine manifest (pre ++ r :: post)
      = build_spine manifest pre ++ it :: build_spine manifest post)
  /\ (forall it, In it (build_spine manifest (pre ++ post)) ->
      exists k, In (k, it) manifest).
Proof.
  split; [apply omap_app|]. split; [|split].
  - intros H. unfold build_spine. rewrite !omap_app, omap_cons_case. now rewrite H.
  - intros it H. unfold build_spine. rewrite !omap_app, omap_cons_case. now rewrite H.
  - intros it. apply spine_in_manifest.
Qed.

(** X4.  A cover reference is always the path of a manifest entry.  When
    an entry declares [cover-image], the first such entry is the cover
    whatever the [<meta>] elements say; with no such entry and no
    [<meta>] named [cover] there is no cover. *)
Theorem cover_reference_from_manifest (ns_prefix : text) (root : element)
    (manifest : manifest_t) :
  (forall p, find_cover ns_prefix root manifest = Some p ->
     exists k it, In (k, it) manifest /\ p = full_path it)
  /\ (forall kv, List.find declares_cover manifest = Some kv ->
        forall root', find_cover ns_prefix root' manifest = Some (full_path (snd kv)))
  /\ (existsb declares_cover manifest = false ->
      existsb names_cover (iter (ns_prefix ++ txt "meta") root) = false ->
      find_cover ns_prefix root manifest = None).
Proof.
  split; [intros p; apply find_cover_in_manifest|]. unfold find_cover.
  fold declares_cover. split.
  - intros [k it] Hf root'. now rewrite Hf.
  - intros Hnone Hmeta.
    destruct (List.find declares_cover manifest) as [kv|] eqn:Hf.
    { apply find_some in Hf as [Hin Hd].
      assert (existsb declares_cover manifest = true)
        by (apply existsb_exists; now exists kv).
      congruence. }
    destruct (head _) as [it|] eqn:Hh; [|reflexivity]. exfalso.
    apply head_Some_elem_of in Hh. apply list_elem_of_omap in Hh as (meta & Hin & Hget).
    fold (names_cover meta) in Hget.
    destruct (names_cover meta) eqn:Hn; [|discriminate].
    assert (existsb names_cover (iter (ns_prefix ++ txt "meta") root) = true).
    { apply existsb_exists. exists meta. split; [now apply list_elem_of_In|exact Hn]. }
    congruence.
Qed.

Lemma parse_opf_traced xml_parse fs d spine manifest metadata opf_dir cover :
  parse_opf xml_parse fs d = Ok (spine, manifest, metadata, opf_dir, cover) ->
  exists croot rootfile rel pkg,
    ET_parse xml_parse fs (container_path d) = Ok croot
    /\ find_descendant (clark CONTAINER_NS (txt "rootfile")) croot = Some rootfile
    /\ get (txt "full-path") rootfile = Some rel
    /\ opf_dir = dirname (path_join d rel)
    /\ ET_parse xml_parse fs (path_join d rel) = Ok pkg
    /\ build_manifest opf_dir (iter (ns_prefix_of pkg ++ txt "item") pkg) [] = Ok manifest
    /\ spine = build_spine manifest (iter (ns_prefix_of pkg ++ txt "itemref") pkg)
    /\ metadata = build_metadata pkg
    /\ cover = find_cover (ns_prefix_of pkg) pkg manifest.
Proof.
  unfold parse_opf, mbind, result_bind. fold (container_path d).
  destruct (negb _); [discriminate|].
  destruct (ET_parse xml_parse fs (container_path d)) as [croot|] eqn:Hc; [|discriminate].
  destruct (find_descendant _ croot) as [rootfile|] eqn:Hf; [|discriminate]. cbn [or_raise].
  destruct (get (txt "full-path") rootfile) as [rel|] eqn:Hg; [|discriminate]. cbn [or_raise].
  destruct (ET_parse xml_parse fs (path_join d rel)) as [pkg|] eqn:Hp; [|discriminate].
  fold (ns_prefix_of pkg).
  destruct (build_manifest _ _ []) as [m|] eqn:Hm; [|discriminate].
  intros [= <- <- <- <- <-]. exists croot, rootfile, rel, pkg. repeat split; assumption.
Qed.

(** X5.  What a successful parse returns hangs together: the manifest
    has no id twice; the container descriptor was read and parsed, its
    first rootfile element names the package document, that document was
    read and parsed, and [opf_dir] is its directory; the path of every
    entry is its [href] resolved against that directory (not against the
    root of the archive); every spine entry and the cover, if any, come
    from the manifest. *)
Theorem parsed_package_consistent (xml_parse : text -> option element)
    (fs : filesystem) (extract_dir : text) (spine : list item) (manifest : manifest_t)
    (metadata : gmap string (option text)) (opf_dir : text) (cover : option text) :
  parse_opf xml_parse fs extract_dir = Ok (spine, manifest, metadata, opf_dir, cover) ->
  List.NoDup (map fst manifest)
  /\ (exists croot rootfile rel pkg,
        ET_parse xml_parse fs (container_path extract_dir) = Ok croot
        /\ find_descendant (clark CONTAINER_NS (txt "rootfile")) croot = Some rootfile
        /\ get (txt "full-path") rootfile = Some rel
        /\ ET_parse xml_parse fs (path_join extract_dir rel) = Ok pkg
        /\ opf_dir = dirname (path_join extract_dir rel))
  /\ (forall k it, In (k, it) manifest ->
        full_path it = normpath (path_join opf_dir (href it)))
  /\ (forall it, In it spine ->
        (exists k, In (k, it) manifest)
        /\ full_path it = normpath (path_join opf_dir (href it)))
  /\ (forall p, cover = Some p -> exists k it, In (k, it) manifest /\ p = full_path it).
Proof.
  intros H.
  apply parse_opf_traced in H
    as (croot & rootfile & rel & pkg & Hcr & Hrf & Hrel & Hdir & Hpkg & Hm & Hs & _ & Hc).
  apply build_manifest_inv in Hm as (Hnd & _ & Hin).
  assert (Hpath : forall k it, In (k, it) manifest ->
                    full_path it = normpath (path_join opf_dir (href it))).
  { intros k it Hkit. destruct (Hin _ Hkit) as [[]|(e & _ & _ & He)].
    unfold entry_of in He. destruct (get (txt "href") e); [|discriminate].
    simpl in He. injection He as <-. reflexivity. }
  split; [apply Hnd; constructor|]. split; [now exists croot, rootfile, rel, pkg|].
  split; [exact Hpath|]. split.
  - intros it Hit. subst spine.
    destruct (spine_in_manifest manifest _ it Hit) as [k Hk].
    split; [now exists k|now apply (Hpath k)].
  - intros p Hp. subst cover. now apply find_cover_in_manifest in Hp.
Qed.

Lemma parsed_package_consistent_witness :
  exists spine manifest metadata cover,
    parse_opf sample_xml_parse ARCHIVE_FS (txt "/t")
      = Ok (spine, manifest, metadata, txt "/t/OEBPS", cover)
    /\ map full_path spine = [txt "/t/OEBPS/Text/ch1.xhtml"]
    /\ cover = Some (txt "/t/OEBPS/Images/cover.jpg")
    /\ (List.NoDup (map fst manifest)
        /\ (exists croot rootfile rel pkg,
              ET_parse sample_xml_parse ARCHIVE_FS (container_path (txt "/t")) = Ok croot
              /\ find_descendant (clark CONTAINER_NS (txt "rootfile")) croot = Some rootfile
              /\ get (txt "full-path") rootfile = Some rel
              /\ ET_parse sample_xml_parse ARCHIVE_FS (path_join (txt "/t") rel) = Ok pkg
              /\ txt "/t/OEBPS" = dirname (path_join (txt "/t") rel))
        /\ (forall k it, In (k, it) manifest ->
              full_path it = normpath (path_join (txt "/t/OEBPS") (href it)))
        /\ (forall it, In it spine ->
              (exists k, In (k, it) manifest)
              /\ full_path it = normpath (path_join (txt "/t/OEBPS") (href it)))
        /\ (forall p, cover = Some p ->
              exists k it, In (k, it) manifest /\ p = full_path it)).
Proof.
  do 4 eexists. split; [vm_compute; reflexivity|].
  split; [vm_compute; reflexivity|]. split; [reflexivity|].
  eapply (parsed_package_consistent sample_xml_parse ARCHIVE_FS (txt "/t")).
  vm_compute. reflexivity.
Defined.

(* ----------------------------------------------------------------- *)
(** ** The namespace of the package document *)

(** A greedy repetition that can take all of [a] and whose continuation
    succeeds there stops there, when the continuation fails wherever the
    repetition could have gone further. *)
Lemma rep_greedy_longest {R} (p : ascii -> bool) (k : text -> option R) :
  forall a b min r,
    forallb p a = true -> min <= length a -> k b = Some r ->
    (forall c b', b = c ++ b' -> c <> [] -> forallb p c = true -> k b' = None) ->
    rep_greedy p k min (a ++ b) = Some r.
Proof.
  induction a as [|x a IH]; intros b min r Ha Hmin Hk Hfar.
  - simpl in Hmin. assert (min = 0) as -> by lia. simpl app.
    destruct b as [|c0 b0]; [exact Hk|]. cbn [rep_greedy].
    destruct (p c0) eqn:Hc0; [|exact Hk].
    destruct (rep_greedy p k (pred 0) b0) as [r'|] eqn:E; [|exact Hk].
    apply rep_greedy_some in E as (a' & b'' & -> & Ha' & _ & Hk').
    rewrite (Hfar (c0 :: a') b'') in Hk'; [discriminate|reflexivity|discriminate|].
    cbn [forallb]. now rewrite Hc0, Ha'.
  - cbn [forallb] in Ha. apply andb_prop in Ha as [Hx Ha].
    change ((x :: a) ++ b) with (x :: (a ++ b)). cbn [rep_greedy]. rewrite Hx.
    rewrite (IH b (pred min) r Ha); [reflexivity| |exact Hk|exact Hfar].
    simpl in Hmin. lia.
Qed.

Lemma no_brace_head b : forallb no_brace b = true -> starts_with (txt "}") b = false.
Proof.
  destruct b as [|c b]; [reflexivity|]. cbn [forallb]. intros H.
  apply andb_prop in H as [Hc _]. change (txt "}") with ["}"%char].
  rewrite starts_with_cons. unfold no_brace, none_of in Hc. cbn [existsb] in Hc.
  rewrite orb_false_r in Hc. apply negb_true_iff in Hc.
  rewrite Ascii.eqb_sym, Hc. reflexivity.
Qed.

Lemma forallb_app_r {A} (p : A -> bool) l1 l2 :
  forallb p (l1 ++ l2) = true -> forallb p l2 = true.
Proof. rewrite forallb_app. intros H. now apply andb_prop in H as [_ H]. Qed.

Lemma match_ns_clark uri local :
  forallb not_newline uri = true -> forallb no_brace local = true ->
  re_match NS_RE (clark uri local) = Some ([], length uri + 2).
Proof.
  intros Hu Hl. unfold re_match, match_at, NS_RE, star, clark. cbn [cat exec].
  rewrite exec_lit. change (txt "{" ++ uri ++ txt "}" ++ local)
    with ("{"%char :: (uri ++ txt "}" ++ local)).
  change (starts_with (txt "{") ("{"%char :: (uri ++ txt "}" ++ local))) with true.
  cbv iota. change (drop (length (txt "{")) ("{"%char :: (uri ++ txt "}" ++ local)))
    with (uri ++ txt "}" ++ local).
  rewrite (rep_greedy_longest not_newline _ uri (txt "}" ++ local) 0 (([] : captures), local) Hu).
  - f_equal. f_equal. cbn [length]. rewrite !length_app. cbn [length txt list_ascii_of_string].
    lia.
  - lia.
  - rewrite exec_lit. reflexivity.
  - intros c b' Hb Hc _. rewrite exec_lit.
    destruct c as [|c0 c]; [congruence|]. injection Hb as _ ->.
    rewrite no_brace_head; [reflexivity|]. now apply forallb_app_r in Hl.
Qed.

(** X6.  Whatever namespace the root of the package document is declared
    in, the parser reads it off the tag and looks for [item], [itemref]
    and [meta] elements in that same namespace; a root without a
    namespace makes it look for the bare names. *)
Theorem namespace_prefix_discovered (uri local : text) (attrs : list (text * text))
    (t : option text) (cs : list element) :
  forallb not_newline uri = true -> forallb no_brace local = true ->
  ns_prefix_of (Element (clark uri local) attrs t cs) = txt "{" ++ uri ++ txt "}"
  /\ (forall name, ns_prefix_of (Element (clark uri local) attrs t cs) ++ name
                   = clark uri name)
  /\ (forall bare, starts_with (txt "{") bare = false ->
        ns_prefix_of (Element bare attrs t cs) = []).
Proof.
  intros Hu Hl.
  assert (Hp : ns_prefix_of (Element (clark uri local) attrs t cs) = txt "{" ++ uri ++ txt "}").
  { unfold ns_prefix_of. cbn [tag]. rewrite match_ns_clark by assumption.
    unfold clark. change (txt "{" ++ uri ++ txt "}" ++ local)
      with ("{"%char :: (uri ++ "}"%char :: local)).
    replace (length uri + 2) with (S (length (uri ++ ["}"%char])))
      by (rewrite length_app; simpl; lia).
    cbn [take]. change (uri ++ "}"%char :: local) with (uri ++ ["}"%char] ++ local).
    rewrite app_assoc, take_app_length. reflexivity. }
  split; [exact Hp|]. split.
  - intros name. rewrite Hp. unfold clark. now rewrite <- !app_assoc.
  - intros bare Hb. unfold ns_prefix_of, re_match, match_at, NS_RE. cbn [tag cat exec].
    rewrite exec_lit, Hb. reflexivity.
Qed.

Lemma namespace_prefix_discovered_witness :
  ns_prefix_of SAMPLE_PACKAGE = txt "{" ++ OPF_NS ++ txt "}"
  /\ (forall name, ns_prefix_of SAMPLE_PACKAGE ++ name = clark OPF_NS name)
  /\ (forall bare, starts_with (txt "{") bare = false ->
        ns_prefix_of (Element bare [] None (children SAMPLE_PACKAGE)) = []).
Proof.
  apply (namespace_prefix_discovered OPF_NS (txt "package") [] None
           (children SAMPLE_PACKAGE)); vm_compute; reflexivity.
Defined.

(* ----------------------------------------------------------------- *)
(** ** The flattener: failure, order, classes *)

Lemma is_cover_page_unreadable fs html_path it e :
  read_text fs html_path = Raise e -> is_cover_page fs html_path it = false.
Proof. intros H. unfold is_cover_page. rewrite H. now destruct (negb _). Qed.

Lemma chapter_directory fs skip_cover i it st :
  fs (full_path it) = Some Dir ->
  chapter fs skip_cover i it st = Raise (IsADirectoryError (full_path it)).
Proof.
  intros H. unfold chapter, path_exists. rewrite H. cbn [negb].
  rewrite (is_cover_page_unreadable fs (full_path it) it (IsADirectoryError (full_path it)))
    by (unfold read_text; now rewrite H).
  rewrite andb_false_r. unfold read_text. now rewrite H.
Qed.

Lemma chapters_app fs skip_cover pre post : forall i st,
  chapters fs skip_cover i (pre ++ post) st
  = chapters fs skip_cover i pre st ≫= chapters fs skip_cover (i + length pre) post.
Proof.
  induction pre as [|it pre IH]; intros i st; simpl.
  - now rewrite Nat.add_0_r.
  - destruct (chapter fs skip_cover i it st) as [st'|e]; simpl; [|reflexivity].
    rewrite IH. now replace (S i + length pre) with (i + S (length pre)) by lia.
Qed.

(** X7.  The chapter loop fails exactly when the path of a spine entry is
    a directory, and then with the [IsADirectoryError] of the first such
    entry; missing files never make it fail. *)
Theorem flatten_fails_only_on_directories (fs : filesystem) (spine : list item)
    (skip_cover : bool) :
  ((exists st, flatten fs spine skip_cover = Ok st)
   <-> forall it, In it spine -> fs (full_path it) <> Some Dir)
  /\ (forall pre it post,
        spine = pre ++ it :: post ->
        (forall x, In x pre -> fs (full_path x) <> Some Dir) ->
        fs (full_path it) = Some Dir ->
        flatten fs spine skip_cover = Raise (IsADirectoryError (full_path it))).
Proof.
  assert (Hfirst : forall pre it post,
             spine = pre ++ it :: post ->
             (forall x, In x pre -> fs (full_path x) <> Some Dir) ->
             fs (full_path it) = Some Dir ->
             flatten fs spine skip_cover = Raise (IsADirectoryError (full_path it))).
  { intros pre it post -> Hpre Hit. unfold flatten. rewrite chapters_app.
    destruct (chapters_total fs skip_cover pre 0
                {| all_css := ∅; all_bodies := []; skipped_cover := false |} Hpre)
      as [st' ->].
    cbn [mbind result_bind chapters]. now rewrite chapter_directory. }
  split; [|exact Hfirst]. split; [|apply flatten_total].
  intros [st Hst] it Hin Hdir.
  assert (Hex : exists pre x post, spine = pre ++ x :: post
                  /\ (forall y, In y pre -> fs (full_path y) <> Some Dir)
                  /\ fs (full_path x) = Some Dir).
  { clear Hst Hfirst. induction spine as [|a spine IH]; [destruct Hin|].
    assert (Hdec : fs (full_path a) = Some Dir \/ fs (full_path a) <> Some Dir)
      by (destruct (fs (full_path a)) as [[c|]|]; auto; right; discriminate).
    destruct Hdec as [Ha|Ha].
    - exists [], a, spine. split; [reflexivity|]. split; [intros y []|exact Ha].
    - destruct Hin as [->|Hin]; [contradiction|].
      destruct (IH Hin) as (pre & x & post & -> & Hpre & Hx).
      exists (a :: pre), x, post. split; [reflexivity|]. split; [|exact Hx].
      intros y [<-|Hy]; [exact Ha|now apply Hpre]. }
  destruct Hex as (pre & x & post & Hs & Hpre & Hx).
  rewrite (Hfirst pre x post Hs Hpre Hx) in Hst. discriminate.
Qed.

Example flatten_on_directory :
  flatten SAMPLE_FS DIR_SPINE false = Raise (IsADirectoryError (txt "/tmp/x/OEBPS/css")).
Proof. vm_compute. reflexivity. Qed.

Lemma remove_first_map {A B} (f : A -> B) (P : B -> bool) (l : list A) :
  map f (remove_first (fun x => P (f x)) l) = remove_first P (map f l).
Proof.
  induction l as [|x l IH]; simpl; [reflexivity|].
  destruct (P (f x)); simpl; [reflexivity|now rewrite IH].
Qed.

Lemma remove_first_sublist {A} (P : A -> bool) (l : list A) :
  remove_first P l `sublist_of` l.
Proof.
  induction l as [|x l IH]; simpl; [constructor|].
  destruct (P x); [now apply sublist_cons|now apply sublist_skip].
Qed.

Lemma filter_sublist {A} (P : A -> bool) (l : list A) : List.filter P l `sublist_of` l.
Proof.
  induction l as [|x l IH]; simpl; [constructor|].
  destruct (P x); [now apply sublist_skip|now apply sublist_cons].
Qed.

Lemma sublist_map {A B} (f : A -> B) (l1 l2 : list A) :
  l1 `sublist_of` l2 -> map f l1 `sublist_of` map f l2.
Proof.
  induction 1; simpl; [constructor|now apply sublist_skip|now apply sublist_cons].
Qed.

Lemma chapters_kept_alt fs spine skip_cover :
  chapters_kept fs spine skip_cover =
  if skip_cover then remove_first (is_cover fs) (present_items fs spine)
  else present_items fs spine.
Proof.
  unfold chapters_kept, survivors, enumerate.
  rewrite <- (present_enumerate fs spine 0).
  destruct skip_cover; [|reflexivity].
  apply (remove_first_map snd (is_cover fs)).
Qed.

(** X8.  The blocks of the flattened document follow the spine: they are
    the entries whose file exists, in spine order, and with cover skipping
    all but the first entry the detector flags; a second flagged entry is
    kept. *)
Theorem blocks_follow_spine (fs : filesystem) (spine : list item) (skip_cover : bool)
    (st : loop_state) :
  flatten fs spine skip_cover = Ok st ->
  map anchor (all_bodies st) =
    map anchor_id (if skip_cover then remove_first (is_cover fs) (present_items fs spine)
                   else present_items fs spine)
  /\ map anchor (all_bodies st) `sublist_of` map anchor_id spine
  /\ (forall a b rest,
        skip_cover = true -> present_items fs spine = a :: b :: rest ->
        is_cover fs a = true ->
        map anchor (all_bodies st) = map anchor_id (b :: rest)).
Proof.
  intros H. pose proof (anchors_of_kept _ _ _ _ H) as Ha.
  rewrite chapters_kept_alt in Ha. split; [exact Ha|]. split.
  - rewrite Ha. apply sublist_map.
    destruct skip_cover.
    + etrans; [apply remove_first_sublist|apply filter_sublist].
    + apply filter_sublist.
  - intros a b rest -> Hp Hc. rewrite Ha, Hp. simpl. now rewrite Hc.
Qed.

Lemma blocks_follow_spine_witness :
  exists st, flatten SAMPLE_FS SAMPLE_SPINE true = Ok st
    /\ (map anchor (all_bodies st) =
          map anchor_id (if true then remove_first (is_cover SAMPLE_FS)
                                        (present_items SAMPLE_FS SAMPLE_SPINE)
                         else present_items SAMPLE_FS SAMPLE_SPINE)
        /\ map anchor (all_bodies st) `sublist_of` map anchor_id SAMPLE_SPINE
        /\ (forall a b rest,
              true = true -> present_items SAMPLE_FS SAMPLE_SPINE = a :: b :: rest ->
              is_cover SAMPLE_FS a = true ->
              map anchor (all_bodies st) = map anchor_id (b :: rest))).
Proof.
  eexists. split; [vm_compute; reflexivity|].
  apply (blocks_follow_spine SAMPLE_FS SAMPLE_SPINE true). vm_compute. reflexivity.
Defined.

Lemma survivors_index_ge fs active l : forall i,
  Forall (fun e => i <= fst e) (survivors fs active (enumerate_from i l)).
Proof.
  revert active. induction l as [|x l IH]; intros active i; [destruct active; constructor|].
  cbn [enumerate_from]. rewrite survivors_cons.
  assert (Hnext : forall a, Forall (fun e => i <= fst e)
                              (survivors fs a (enumerate_from (S i) l))).
  { intros a. eapply Forall_impl; [apply IH|]. simpl. intros; lia. }
  destruct (on_disk fs (i, x)); [|apply Hnext].
  destruct (active && flagged fs (i, x)); [apply Hnext|].
  constructor; [simpl; lia|apply Hnext].
Qed.

Lemma In_tl {A} (x : A) l : In x (tl l) -> In x l.
Proof. destruct l; simpl; auto. Qed.

Lemma head_In {A} (x : A) l : head l = Some x -> In x l.
Proof. destruct l; simpl; [discriminate|]. intros [= ->]. now left. Qed.

Lemma cls_of_index fs e : 1 <= fst e -> cls (block_of fs e) = CLS_BREAK.
Proof. destruct e as [[|i] it]; simpl; [lia|reflexivity]. Qed.

(** X9.  The page-break classes as the loop assigns them: every block but
    the first carries [epub-chapter-break]; the first block carries
    [epub-chapter-first] exactly when it is the block of the first spine
    entry, and [epub-chapter-break] otherwise. *)
Theorem page_break_classes (fs : filesystem) (spine : list item) (skip_cover : bool)
    (st : loop_state) :
  flatten fs spine skip_cover = Ok st ->
  (forall b, In b (tl (all_bodies st)) -> cls b = CLS_BREAK)
  /\ (forall b, head (all_bodies st) = Some b ->
        cls b = if first_entry_kept fs spine skip_cover then CLS_FIRST else CLS_BREAK).
Proof.
  intros H. apply flatten_spec in H as [-> _]. unfold enumerate, first_entry_kept.
  assert (Hlate : forall a l b,
            In b (map (block_of fs) (survivors fs a (enumerate_from 1 l))) ->
            cls b = CLS_BREAK).
  { intros a l b Hb. apply in_map_iff in Hb as (e & <- & He).
    apply cls_of_index.
    pose proof (survivors_index_ge fs a l 1) as Hge.
    rewrite Forall_forall in Hge. now apply Hge, list_elem_of_In. }
  destruct spine as [|it spine].
  { destruct skip_cover; split; intros b; simpl; intros; contradiction || discriminate. }
  cbn [enumerate_from]. rewrite survivors_cons. unfold on_disk, flagged, is_cover.
  cbn [fst snd].
  destruct (path_exists fs (full_path it)); cbn [andb].
  2:{ split.
      - intros b Hb. apply (Hlate skip_cover spine). now apply In_tl.
      - intros b Hb. apply (Hlate skip_cover spine). now apply head_In. }
  destruct (skip_cover && is_cover_page fs (full_path it) it); cbn [negb].
  - split.
    + intros b Hb. apply (Hlate false spine). now apply In_tl.
    + intros b Hb. apply (Hlate false spine). now apply head_In.
  - cbn [map tl head]. split.
    + apply Hlate.
    + now intros b [= <-].
Qed.

Lemma page_break_classes_witness :
  exists st, flatten SAMPLE_FS SAMPLE_SPINE false = Ok st
    /\ map cls (all_bodies st) = [CLS_FIRST; CLS_BREAK; CLS_BREAK]
    /\ ((forall b, In b (tl (all_bodies st)) -> cls b = CLS_BREAK)
        /\ (forall b, head (all_bodies st) = Some b ->
              cls b = if first_entry_kept SAMPLE_FS SAMPLE_SPINE false
                      then CLS_FIRST else CLS_BREAK)).
Proof.
  eexists. split; [vm_compute; reflexivity|]. split; [vm_compute; reflexivity|].
  apply (page_break_classes SAMPLE_FS SAMPLE_SPINE false). vm_compute. reflexivity.
Defined.

(* ----------------------------------------------------------------- *)
(** ** The flattener: the document it writes *)

Lemma write_text_ok fs p content fs' :
  write_text fs p content = Ok fs' -> fs' = fs_put fs p (File content).
Proof.
  unfold write_text. destruct (fs p) as [[c|]|];
    try discriminate; destruct (dirname p) as [|a d];
    try (now intros [= <-]);
    destruct (fs (a :: d)) as [[c'|]|]; try discriminate; now intros [= <-].
Qed.

Lemma fs_put_other fs p n q : q <> p -> fs_put fs p n q = fs q.
Proof.
  intros H. unfold fs_put, text_eqb. now rewrite bool_decide_eq_false_2.
Qed.

Lemma fs_put_same fs p n : fs_put fs p n p = Some n.
Proof. unfold fs_put, text_eqb. now rewrite bool_decide_eq_true_2. Qed.

Lemma quote_char_safe c : forallb uri_char (quote_char c) = true.
Proof. destruct c as [[] [] [] [] [] [] [] []]; vm_compute; reflexivity. Qed.

Lemma forallb_concat_map {A B} (p : B -> bool) (f : A -> list B) (l : list A) :
  (forall x, forallb p (f x) = true) -> forallb p (concat (map f l)) = true.
Proof.
  intros H. induction l as [|x l IH]; simpl; [reflexivity|].
  now rewrite forallb_app, H, IH.
Qed.

Lemma as_uri_ok p : absolute p = true -> exists u, as_uri p = Ok u.
Proof. unfold as_uri, absolute. intros ->. eauto. Qed.

Lemma css_links_ok paths :
  Forall (fun p => absolute p = true) paths -> exists links, css_links paths = Ok links.
Proof.
  induction 1 as [|p paths Hp _ [links IH]]; simpl; [eauto|].
  destruct (as_uri_ok p Hp) as [u ->]. cbn [mbind result_bind]. rewrite IH.
  cbn [mbind result_bind]. eauto.
Qed.

(** X11.  The stylesheet links can be written exactly when every path is
    absolute; a relative path raises the [ValueError] of [as_uri].  A URI
    starts with [file:///] and is made of unreserved characters, slashes
    and percent escapes only, so it holds no double quote that could end
    the [href] attribute. *)
Theorem stylesheet_links_need_absolute_paths (paths : list text) :
  ((exists links, css_links paths = Ok links)
   <-> Forall (fun p => absolute p = true) paths)
  /\ (forall e, css_links paths = Raise e -> e = RELATIVE_PATH)
  /\ (forall p u, as_uri p = Ok u ->
        starts_with (txt "file:///") u = true
        /\ forallb uri_char u = true
        /\ existsb (Ascii.eqb DQ) u = false).
Proof.
  split; [split; [|apply css_links_ok]|split].
  - induction paths as [|p paths IH]; [constructor|]. simpl.
    unfold as_uri at 1. fold (absolute p).
    destruct (absolute p) eqn:Hp; cbn [mbind result_bind]; [|now intros [l [=]]].
    destruct (css_links paths) as [links|] eqn:Hl; cbn [mbind result_bind];
      [|now intros [l [=]]].
    intros _. constructor; [exact Hp|]. apply IH. eauto.
  - induction paths as [|p paths IH]; [discriminate|]. simpl.
    unfold as_uri at 1. destruct (starts_with [SEP] p); cbn [mbind result_bind];
      [|now intros e0 [= <-]].
    destruct (css_links paths) as [links|err]; cbn [mbind result_bind]; [discriminate|].
    intros e0 [= <-]. now apply IH.
  - intros p u. unfold as_uri. destruct (starts_with [SEP] p) eqn:Hp; [|discriminate].
    intros [= <-].
    assert (Hsafe : forallb uri_char (txt "file://" ++ concat (map quote_char p)) = true).
    { rewrite forallb_app.
      pose proof (forallb_concat_map uri_char quote_char p quote_char_safe) as Hq.
      unfold text in *. rewrite Hq. reflexivity. }
    split; [|split; [exact Hsafe|]].
    + apply starts_with_split in Hp as [t ->]. reflexivity.
    + apply not_true_is_false. intros Hq.
      apply existsb_exists in Hq as (c & Hc & Heq). apply Ascii.eqb_eq in Heq as <-.
      rewrite forallb_forall in Hsafe. specialize (Hsafe _ Hc). discriminate Hsafe.
Qed.

Example relative_stylesheet_path :
  css_links [txt "/b/a.css"; txt "css/b.css"] = Raise RELATIVE_PATH
  /\ as_uri (txt "/my books/a&b.css") = Ok (txt "file:///my%20books/a%26b.css").
Proof. split; vm_compute; reflexivity. Qed.

(* ----------------------------------------------------------------- *)
(** ** Absolute paths stay absolute *)

Lemma normpath_absolute p : absolute p = true -> absolute (normpath p) = true.
Proof.
  unfold absolute, normpath. destruct p as [|c p]; [discriminate|]. intros H.
  rewrite H.
  destruct (starts_with [SEP; SEP] (c :: p) && negb (starts_with [SEP; SEP; SEP] (c :: p)));
    reflexivity.
Qed.

Lemma path_join_absolute a b : absolute a = true -> absolute (path_join a b) = true.
Proof.
  unfold absolute, path_join. intros Ha.
  destruct (starts_with [SEP] b) eqn:Hb; [exact Hb|].
  destruct a as [|c a]; [discriminate|].
  destruct (ends_with [SEP] (c :: a)); now apply starts_with_app.
Qed.

Lemma lstrip_sep_snoc x :
  lstrip_sep (x ++ [SEP]) =
  if forallb (Ascii.eqb SEP) x then [] else lstrip_sep x ++ [SEP].
Proof.
  induction x as [|c x IH]; [reflexivity|].
  cbn [app lstrip_sep forallb]. rewrite (Ascii.eqb_sym c SEP).
  destruct (Ascii.eqb SEP c); [exact IH|reflexivity].
Qed.

Lemma forallb_rev {A} (p : A -> bool) l : forallb p (rev l) = forallb p l.
Proof.
  induction l as [|x l IH]; [reflexivity|].
  simpl. rewrite forallb_app, IH. simpl. rewrite andb_true_r. apply andb_comm.
Qed.

Lemma dirname_absolute p : absolute p = true -> absolute (dirname p) = true.
Proof.
  unfold absolute, dirname. destruct p as [|c p]; [discriminate|].
  change (starts_with [SEP] (c :: p)) with (Ascii.eqb SEP c && true).
  rewrite andb_true_r. intros Hc. apply Ascii.eqb_eq in Hc as <-.
  cbn [split_path]. destruct (split_path p) as [h t]. rewrite Ascii.eqb_refl.
  cbn [fst]. destruct (forallb (Ascii.eqb SEP) (SEP :: h)) eqn:Hall; [reflexivity|].
  unfold rstrip_sep. cbn [rev]. rewrite lstrip_sep_snoc.
  cbn [forallb] in Hall. rewrite Ascii.eqb_refl in Hall. cbn [andb] in Hall.
  rewrite forallb_rev, Hall, rev_app_distr. reflexivity.
Qed.

Lemma chapters_kept_in_spine fs spine skip_cover it :
  In it (chapters_kept fs spine skip_cover) -> In it spine.
Proof.
  rewrite chapters_kept_alt. intros H. apply list_elem_of_In.
  apply list_elem_of_In in H. revert H. apply sublist_subseteq.
  destruct skip_cover.
  - etrans; [apply remove_first_sublist|apply filter_sublist].
  - apply filter_sublist.
Qed.

(** X12.  When the paths of the spine entries are absolute, as they are
    below the temporary directory, every collected stylesheet path is
    absolute and writing the stylesheet links cannot fail. *)
Theorem absolute_spine_links_written (fs : filesystem) (spine : list item)
    (skip_cover : bool) (st : loop_state) :
  flatten fs spine skip_cover = Ok st ->
  Forall (fun it => absolute (full_path it) = true) spine ->
  Forall (fun p => absolute p = true) (sorted_css (all_css st))
  /\ exists links, css_links (sorted_css (all_css st)) = Ok links.
Proof.
  intros H Habs.
  assert (Hall : Forall (fun p => absolute p = true) (sorted_css (all_css st))).
  { apply flatten_spec in H as [_ Hcss]. apply Forall_forall. intros p Hp.
    unfold sorted_css in Hp. rewrite merge_sort_Permutation, elem_of_elements in Hp.
    rewrite Hcss, foldl_css_elem in Hp.
    destruct Hp as [Hp|(it & m & Hit & _ & -> & _)]; [now apply not_elem_of_empty in Hp|].
    apply chapters_kept_in_spine in Hit. rewrite Forall_forall in Habs.
    apply list_elem_of_In, Habs in Hit.
    unfold stylesheet_path. now apply normpath_absolute, path_join_absolute, dirname_absolute. }
  split; [exact Hall|now apply css_links_ok].
Qed.

Lemma absolute_spine_links_written_witness :
  exists st, flatten SAMPLE_FS SAMPLE_SPINE true = Ok st
    /\ (Forall (fun p => absolute p = true) (sorted_css (all_css st))
        /\ exists links, css_links (sorted_css (all_css st)) = Ok links).
Proof.
  eexists. split; [vm_compute; reflexivity|].
  apply (absolute_spine_links_written SAMPLE_FS SAMPLE_SPINE true).
  - vm_compute. reflexivity.
  - repeat constructor.
Defined.

(* ----------------------------------------------------------------- *)
(** ** The cover page: the crop in general *)

Lemma cover_geometry_inv img_w img_h pw_in ph_in g :
  cover_geometry img_w img_h pw_in ph_in = Ok g ->
  crop_left g = ((new_w g - page_w_px g) / 2)%Z
  /\ crop_top g = ((new_h g - page_h_px g) / 2)%Z
  /\ crop_right g = (crop_left g + page_w_px g)%Z
  /\ crop_bottom g = (crop_top g + page_h_px g)%Z
  /\ (new_w g = page_w_px g \/ new_h g = page_h_px g).
Proof.
  unfold cover_geometry, mbind, result_bind.
  destruct (int_of_float (PrimFloat.mul pw_in _)) as [pw|]; [|discriminate].
  destruct (int_of_float (PrimFloat.mul ph_in _)) as [ph|]; [|discriminate].
  destruct (true_div img_w img_h) as [ia|]; [|discriminate].
  destruct (true_div pw ph) as [pa|]; [|discriminate].
  destruct (PrimFloat.ltb pa ia).
  - destruct (int_of_float _) as [nw|]; [|discriminate].
    intros [= <-]. cbn [crop_left crop_top crop_right crop_bottom new_w new_h
                         page_w_px page_h_px].
    repeat split; try reflexivity. now right.
  - destruct (float_div _ ia) as [q|]; [|discriminate].
    destruct (int_of_float q) as [nh|]; [|discriminate].
    intros [= <-]. cbn [crop_left crop_top crop_right crop_bottom new_w new_h
                         page_w_px page_h_px].
    repeat split; try reflexivity. now left.
Qed.

(** X13.  Whatever the image and the page size, a cover geometry that is
    computed crops a box of exactly the page size out of the resized
    image, keeps one of the two dimensions uncropped, and centres the box
    to the pixel: the right and bottom margins are the left and top ones
    or one pixel more. *)
Theorem cover_crop_centred (img_w img_h : Z) (page_width_in page_height_in : float)
    (g : geometry) :
  cover_geometry img_w img_h page_width_in page_height_in = Ok g ->
  (crop_right g - crop_left g = page_w_px g)%Z
  /\ (crop_bottom g - crop_top g = page_h_px g)%Z
  /\ (removed_left g <= removed_right g <= removed_left g + 1)%Z
  /\ (removed_top g <= removed_bottom g <= removed_top g + 1)%Z
  /\ ((removed_left g = 0 /\ removed_right g = 0)%Z
      \/ (removed_top g = 0 /\ removed_bottom g = 0)%Z).
Proof.
  intros H. apply cover_geometry_inv in H as (Hl & Ht & Hr & Hb & Hfit).
  unfold removed_left, removed_right, removed_top, removed_bottom.
  rewrite Hr, Hb.
  pose proof (Z.div_mod (new_w g - page_w_px g) 2 ltac:(lia)) as Hw.
  pose proof (Z.mod_pos_bound (new_w g - page_w_px g) 2 ltac:(lia)) as Hwm.
  pose proof (Z.div_mod (new_h g - page_h_px g) 2 ltac:(lia)) as Hh.
  pose proof (Z.mod_pos_bound (new_h g - page_h_px g) 2 ltac:(lia)) as Hhm.
  rewrite <- Hl in Hw. rewrite <- Ht in Hh.
  repeat split; lia.
Qed.

Lemma cover_crop_centred_witness :
  exists g, cover_geometry 1000 1000 PAGE_WIDTH_IN PAGE_HEIGHT_IN = Ok g
    /\ (new_w g, new_h g, crop_left g, crop_top g) = (1275, 1275, 225, 0)%Z
    /\ ((crop_right g - crop_left g = page_w_px g)%Z
        /\ (crop_bottom g - crop_top g = page_h_px g)%Z
        /\ (removed_left g <= removed_right g <= removed_left g + 1)%Z
        /\ (removed_top g <= removed_bottom g <= removed_top g + 1)%Z
        /\ ((removed_left g = 0 /\ removed_right g = 0)%Z
            \/ (removed_top g = 0 /\ removed_bottom g = 0)%Z)).
Proof.
  eexists. split; [vm_compute; reflexivity|]. split; [reflexivity|].
  apply (cover_crop_centred 1000 1000 PAGE_WIDTH_IN PAGE_HEIGHT_IN).
  vm_compute. reflexivity.
Defined.

(* ----------------------------------------------------------------- *)
(** ** Substitutions that only delete *)

Lemma scan_sub_deletes (m : text -> option (text * nat)) :
  (forall s out n, m s = Some (out, n) -> out = []) ->
  forall s k, scan_sub m k s `sublist_of` s.
Proof.
  intros Hm. induction s as [|c s IH]; intros k.
  - simpl. destruct k; [|constructor].
    destruct (m []) as [[out n]|] eqn:E; [|constructor].
    apply Hm in E as ->. constructor.
  - simpl. destruct k as [|k]; [|apply sublist_cons, IH].
    destruct (m (c :: s)) as [[out n]|] eqn:E; [|apply sublist_skip, IH].
    apply Hm in E as ->. destruct n; [apply sublist_skip, IH|apply sublist_cons, IH].
Qed.

Lemma re_sub_deletes r s : re_sub r drop_match s `sublist_of` s.
Proof.
  unfold re_sub. apply scan_sub_deletes. intros s' out n.
  destruct (match_at r s') as [[cs n']|]; [|discriminate]. now intros [= <- _].
Qed.

(** X15.  Namespace stripping only deletes: what it returns is the body
    with some characters left out, in the same order, never longer; a
    body that holds neither [xmlns] nor [epub:type=] is returned as it
    is. *)
Theorem strip_namespaces_only_deletes (body : text) :
  strip_namespaces body `sublist_of` body
  /\ length (strip_namespaces body) <= length body
  /\ (contains (txt "xmlns") body = false -> contains (txt "epub:type=") body = false ->
      strip_namespaces body = body).
Proof.
  assert (H : strip_namespaces body `sublist_of` body).
  { unfold strip_namespaces. etrans; apply re_sub_deletes. }
  split; [exact H|]. split; [now apply sublist_length|apply strip_namespaces_absent].
Qed.

Example strip_namespaces_example :
  strip_namespaces (fmt "<section xmlns:epub=`http://www.idpf.org/2007/ops` epub:type=`chapter` id=`c1`>")
  = fmt "<section id=`c1`>".
Proof. vm_compute. reflexivity. Qed.

(* ----------------------------------------------------------------- *)
(** ** Matching: what a match consumes *)

(** Whatever a pattern matches, its continuation is run on a rest of the
    subject. *)
Lemma exec_some r : forall cs s k res,
  exec r cs s k = Some res ->
  exists cs' s', s' `suffix_of` s /\ k cs' s' = Some res.
Proof.
  induction r as [|p|r1 IH1 r2 IH2|r1 IH1 r2 IH2|g min p|n r IH];
    intros cs s k res H; cbn [exec] in H.
  - exists cs, s. split; [reflexivity|exact H].
  - destruct s as [|c s]; [discriminate|]. destruct (p c); [|discriminate].
    exists cs, s. split; [now exists [c]|exact H].
  - apply IH1 in H as (cs1 & s1 & Hs1 & H). apply IH2 in H as (cs2 & s2 & Hs2 & H).
    exists cs2, s2. split; [now transitivity s1|exact H].
  - destruct (exec r1 cs s k) as [x|] eqn:E.
    + injection H as ->. now apply IH1 in E.
    + now apply IH2 in H.
  - destruct g.
    + apply rep_greedy_some in H as (a & b & -> & _ & _ & H).
      exists cs, b. split; [now exists a|exact H].
    + apply rep_lazy_some in H as (a & b & -> & _ & _ & H).
      exists cs, b. split; [now exists a|exact H].
  - apply IH in H as (cs' & s' & Hs & H). eauto.
Qed.

Lemma exec_lit_i w : forall cs s k,
  exec (lit_i w) cs s k = if starts_with_i w s then k cs (drop (length w) s) else None.
Proof.
  unfold lit_i. induction w as [|a w IH]; intros cs s k; [reflexivity|].
  destruct w as [|b w].
  - cbn [map cat exec]. destruct s as [|c s]; [reflexivity|].
    cbn [starts_with_i]. rewrite andb_true_r. destruct (is_chr_i a c); reflexivity.
  - change (cat (map (fun c => Chr (is_chr_i c)) (a :: b :: w)))
      with (Cat (Chr (is_chr_i a)) (cat (map (fun c => Chr (is_chr_i c)) (b :: w)))).
    change (exec (Cat ?r1 ?r2) cs s k) with (exec r1 cs s (fun cs' s' => exec r2 cs' s' k)).
    destruct s as [|c s]; [reflexivity|].
    change (starts_with_i (a :: b :: w) (c :: s))
      with (is_chr_i a c && starts_with_i (b :: w) s).
    cbn [exec]. destruct (is_chr_i a c); [|reflexivity].
    rewrite IH. reflexivity.
Qed.

Lemma starts_with_i_lower w s : starts_with_i w s = starts_with (lower w) (lower s).
Proof.
  revert s. induction w as [|a w IH]; intros [|b s]; try reflexivity.
  cbn [starts_with_i lower map starts_with]. fold (lower w) (lower s).
  rewrite IH. unfold is_chr_i. now rewrite Ascii.eqb_sym.
Qed.

Lemma lower_app a b : lower (a ++ b) = lower a ++ lower b.
Proof. apply map_app. Qed.

Lemma lower_drop i s : lower (drop i s) = drop i (lower s).
Proof.
  revert s. induction i as [|i IH]; intros [|c s]; try reflexivity. apply IH.
Qed.

Lemma lower_length s : length (lower s) = length s.
Proof. apply length_map. Qed.

Lemma contains_suffix p s' s :
  s' `suffix_of` s -> starts_with p s' = true -> contains p s = true.
Proof.
  intros [k ->] H. apply starts_with_split in H as [t ->].
  apply contains_split. now exists k, t.
Qed.

Lemma lower_suffix s' s : s' `suffix_of` s -> lower s' `suffix_of` lower s.
Proof. intros [k ->]. exists (lower k). apply lower_app. Qed.

(** Searching. *)
Lemma search_from_none r s : forall i,
  (forall j, j <= length s -> match_at r (drop j s) = None) -> search_from r i s = None.
Proof.
  induction s as [|c s IH]; intros i H; cbn [search_from];
    pose proof (H 0 ltac:(simpl; lia)) as H0; cbn [drop] in H0; rewrite H0.
  - reflexivity.
  - apply IH. intros j Hj. apply (H (S j)). simpl. lia.
Qed.

Lemma search_from_skip r pre s : forall i,
  (forall j, j < length pre -> match_at r (drop j pre ++ s) = None) ->
  search_from r i (pre ++ s) = search_from r (i + length pre) s.
Proof.
  induction pre as [|c pre IH]; intros i H.
  - simpl. now rewrite Nat.add_0_r.
  - change ((c :: pre) ++ s) with (c :: (pre ++ s)). cbn [search_from].
    pose proof (H 0 ltac:(simpl; lia)) as H0. cbn [drop] in H0.
    change ((c :: pre) ++ s) with (c :: (pre ++ s)) in H0. rewrite H0. rewrite IH.
    + f_equal. simpl. lia.
    + intros j Hj. apply (H (S j)). simpl. lia.
Qed.

Lemma search_from_here r i s cs n :
  match_at r s = Some (cs, n) -> search_from r i s = Some (i, cs, n).
Proof. intros H. destruct s; cbn [search_from]; now rewrite H. Qed.

(** An occurrence of a word whose first character does not recur in it
    cannot begin in text that has none and end in a rest that starts
    with that character. *)
Lemma starts_with_app_inv p : forall x r,
  starts_with p (x ++ r) = true ->
  starts_with p x = true \/ exists p2, p = x ++ p2 /\ p2 <> [] /\ starts_with p2 r = true.
Proof.
  induction p as [|a p IH]; intros x r H; [left; apply starts_with_nil_l|].
  destruct x as [|b x].
  - right. exists (a :: p). split; [reflexivity|]. split; [discriminate|exact H].
  - change ((b :: x) ++ r) with (b :: (x ++ r)) in H. rewrite starts_with_cons in *.
    apply andb_prop in H as [Hab H]. rewrite Hab. apply Ascii.eqb_eq in Hab as ->.
    destruct (IH x r H) as [Hx|(p2 & -> & Hp2 & Hr)]; [now left|].
    right. exists p2. auto.
Qed.

Lemma no_straddle_first a q x r :
  existsb (Ascii.eqb a) q = false -> starts_with_chr a r = true ->
  x <> [] -> starts_with (a :: q) x = false ->
  starts_with (a :: q) (x ++ r) = false.
Proof.
  intros Hq Hr Hx Hs. apply not_true_is_false. intros H.
  apply starts_with_app_inv in H as [H|(p2 & Hp & Hp2 & Hr2)]; [congruence|].
  destruct x as [|b x]; [congruence|]. injection Hp as <- ->.
  destruct p2 as [|c p2]; [congruence|].
  destruct r as [|d r]; [discriminate|].
  rewrite starts_with_cons in Hr2. apply andb_prop in Hr2 as [Hcd _].
  apply Ascii.eqb_eq in Hcd as <-. cbn [starts_with_chr] in Hr.
  apply Ascii.eqb_eq in Hr as <-.
  rewrite existsb_app in Hq. cbn [existsb] in Hq. rewrite Ascii.eqb_refl in Hq.
  cbn [orb] in Hq. now rewrite orb_true_r in Hq.
Qed.

(** No match of a word, case ignored, begins in [x] when the lowered [x]
    does not hold the word and the rest starts with its first
    character. *)
Lemma word_absent_i a q x r j :
  lower (a :: q) = a :: q ->
  existsb (Ascii.eqb a) q = false ->
  contains (a :: q) (lower x) = false ->
  starts_with_chr a (lower r) = true ->
  j < length x ->
  starts_with_i (a :: q) (drop j x ++ r) = false.
Proof.
  intros Hl Hq Hx Hr Hj. rewrite starts_with_i_lower, Hl, lower_app.
  apply no_straddle_first; [exact Hq|exact Hr| |].
  - intros H. apply (f_equal length) in H.
    rewrite lower_length, length_drop in H. simpl in H. lia.
  - rewrite lower_drop. now apply contains_head, contains_drop.
Qed.

Lemma starts_with_i_app w x r : lower x = lower w -> starts_with_i w (x ++ r) = true.
Proof.
  intros H. rewrite starts_with_i_lower, lower_app, <- H.
  apply starts_with_split. now exists (lower r).
Qed.

Lemma lower_eq_length x w : lower x = lower w -> length x = length w.
Proof. intros H. apply (f_equal length) in H. now rewrite !lower_length in H. Qed.

Lemma exec_cat r1 r2 cs s k :
  exec (Cat r1 r2) cs s k = exec r1 cs s (fun cs' s' => exec r2 cs' s' k).
Proof. reflexivity. Qed.

(** A match of the body pattern begins with [<body] and runs up to a
    [</body>], case ignored. *)
Lemma body_match_needs s r :
  match_at BODY_RE s = Some r ->
  starts_with_i (txt "<body") s = true
  /\ exists s', s' `suffix_of` s /\ starts_with_i (txt "</body>") s' = true.
Proof.
  unfold match_at.
  destruct (exec BODY_RE [] s _) as [[cs rest]|] eqn:E; [|discriminate]. intros _.
  unfold BODY_RE in E. cbn [cat] in E.
  rewrite exec_cat, exec_lit_i in E.
  destruct (starts_with_i (txt "<body") s); [|discriminate]. split; [reflexivity|].
  assert (Hsuf : drop (length (txt "<body")) s `suffix_of` s) by apply suffix_drop.
  revert Hsuf E. generalize (drop (length (txt "<body")) s). intros s0 Hs0 E.
  rewrite exec_cat in E. apply exec_some in E as (cs1 & s1 & Hs1 & E).
  rewrite exec_cat in E. apply exec_some in E as (cs2 & s2 & Hs2 & E).
  rewrite exec_cat in E. apply exec_some in E as (cs3 & s3 & Hs3 & E).
  rewrite exec_lit_i in E. exists s3. split.
  - transitivity s2; [exact Hs3|]. transitivity s1; [exact Hs2|].
    now transitivity s0.
  - destruct (starts_with_i (txt "</body>") s3); [reflexivity|discriminate].
Qed.

Lemma body_search_none content :
  contains (txt "<body") (lower content) = false
  \/ contains (txt "</body>") (lower content) = false ->
  re_search BODY_RE content = None.
Proof.
  intros H. apply search_from_none. intros j _.
  destruct (match_at BODY_RE (drop j content)) as [r|] eqn:E; [|reflexivity]. exfalso.
  apply body_match_needs in E as (Hopen & s' & Hs' & Hclose).
  rewrite starts_with_i_lower in Hopen, Hclose.
  assert (Hj : drop j content `suffix_of` content) by apply suffix_drop.
  destruct H as [H|H].
  - rewrite (contains_suffix (txt "<body") (lower (drop j content)) (lower content))
      in H; [discriminate|now apply lower_suffix|exact Hopen].
  - rewrite (contains_suffix (txt "</body>") (lower s') (lower content))
      in H; [discriminate| |exact Hclose].
    apply lower_suffix. now transitivity (drop j content).
Qed.

Lemma word_search_i a q pre x rest :
  lower (a :: q) = a :: q -> existsb (Ascii.eqb a) q = false ->
  contains (a :: q) (lower pre) = false -> lower x = a :: q ->
  re_search (lit_i (a :: q)) (pre ++ x ++ rest) = Some (length pre, [], length (a :: q)).
Proof.
  intros Hl Hq Hpre Hx. unfold re_search. rewrite search_from_skip.
  - apply search_from_here. unfold match_at. rewrite exec_lit_i.
    rewrite starts_with_i_app by congruence. f_equal. f_equal.
    rewrite length_drop, length_app.
    assert (length x = length (a :: q)) by (apply lower_eq_length; congruence). lia.
  - intros j Hj. unfold match_at. rewrite exec_lit_i.
    rewrite (word_absent_i a q pre (x ++ rest) j Hl Hq Hpre); [reflexivity| |exact Hj].
    rewrite lower_app, Hx. simpl. apply Ascii.eqb_refl.
Qed.

(** X16.  A chapter without a body element, case ignored: without a
    closing head tag either, the whole file is the body; otherwise the
    body is what follows the first closing head tag, with the html tags
    removed from it. *)
Theorem extract_body_fallbacks (content : text) :
  contains (txt "<body") (lower content) = false
  \/ contains (txt "</body>") (lower content) = false ->
  (contains (txt "</head>") (lower content) = false -> extract_body content = content)
  /\ (forall pre close rest,
        content = pre ++ close ++ rest -> lower close = txt "</head>" ->
        contains (txt "</head>") (lower pre) = false ->
        extract_body content = re_sub HTML_TAG_RE drop_match rest).
Proof.
  intros Hbody. unfold extract_body. rewrite (body_search_none content Hbody). split.
  - intros Hhead. replace (re_search HEAD_END_RE content) with (@None (nat * captures * nat));
      [reflexivity|].
    symmetry. apply search_from_none. intros j _. unfold match_at, HEAD_END_RE.
    rewrite exec_lit_i, starts_with_i_lower, lower_drop.
    change (lower (txt "</head>")) with (txt "</head>").
    now rewrite (contains_head _ _ (contains_drop _ _ j Hhead)).
  - intros pre close rest -> Hclose Hpre. unfold HEAD_END_RE.
    change (txt "</head>") with ("<"%char :: txt "/head>") in *.
    rewrite (word_search_i "<"%char (txt "/head>") pre close rest eq_refl eq_refl Hpre Hclose).
    f_equal. rewrite app_assoc.
    replace (length pre + length ("<"%char :: txt "/head>")) with (length (pre ++ close)).
    + apply drop_app_length.
    + rewrite length_app. f_equal. apply lower_eq_length. exact Hclose.
Qed.

Lemma extract_body_fallbacks_witness :
  extract_body (txt "<p>Hi</p>") = txt "<p>Hi</p>"
  /\ extract_body (txt "<HTML><HEAD><title>T</title></HEAD><p>Hi</p></HTML>")
     = re_sub HTML_TAG_RE drop_match (txt "<p>Hi</p></HTML>")
  /\ re_sub HTML_TAG_RE drop_match (txt "<p>Hi</p></HTML>") = txt "<p>Hi</p>".
Proof.
  split; [|split; [|vm_compute; reflexivity]].
  - apply (extract_body_fallbacks (txt "<p>Hi</p>")); [left|]; vm_compute; reflexivity.
  - apply (extract_body_fallbacks
             (txt "<HTML><HEAD><title>T</title></HEAD><p>Hi</p></HTML>"))
      with (pre := txt "<HTML><HEAD><title>T</title>") (close := txt "</HEAD>");
      [left| | |]; vm_compute; reflexivity.
Defined.

(** The body pattern finds the first body element: the search stops at
    the first opening tag, and the group is the text up to the first
    closing tag. *)
Lemma body_search_hit (pre open attrs inner close post : text) :
  lower open = txt "<body" -> forallb (none_of [">"%char]) attrs = true ->
  lower close = txt "</body>" ->
  contains (txt "<body") (lower pre) = false ->
  contains (txt "</body>") (lower inner) = false ->
  re_search BODY_RE (pre ++ open ++ attrs ++ txt ">" ++ inner ++ close ++ post)
  = Some (0 + length pre, [(1, inner)],
          length (open ++ attrs ++ txt ">" ++ inner ++ close)).
Proof.
  intros Hopen Hattrs Hclose Hpre Hinner.
  assert (Hlen : length open = 5) by (now apply (lower_eq_length open (txt "<body"))).
  assert (Hclen : length close = 7) by (now apply (lower_eq_length close (txt "</body>"))).
  unfold re_search.
  set (tail := attrs ++ txt ">" ++ inner ++ close ++ post).
  assert (Hhit : match_at BODY_RE (open ++ tail)
                 = Some ([(1, inner)], length (open ++ attrs ++ txt ">" ++ inner ++ close))).
  { unfold match_at, BODY_RE. cbn [cat]. rewrite exec_cat, exec_lit_i.
    rewrite starts_with_i_app by exact Hopen.
    change (length (txt "<body")) with 5. rewrite <- Hlen, drop_app_length.
    rewrite exec_cat. unfold star. cbn [exec]. unfold tail.
    rewrite (rep_greedy_longest (none_of [">"%char]) _ attrs
               (txt ">" ++ inner ++ close ++ post) 0 (([(1, inner)] : captures), post)
               Hattrs (Nat.le_0_l _)).
    - f_equal. f_equal. rewrite !length_app. lia.
    - rewrite exec_lit. cbn [starts_with txt list_ascii_of_string app].
      rewrite Ascii.eqb_refl. cbn [andb length drop]. unfold star_lazy. cbn [exec].
      rewrite (rep_lazy_first any_char _ inner (close ++ post) 0
                 (([(1, inner)] : captures), post)).
      + reflexivity.
      + now apply forallb_forall.
      + lia.
      + rewrite exec_lit_i, (starts_with_i_app _ close post) by exact Hclose.
        assert (Hd : forall n, n = 7 -> drop n (close ++ post) = post)
          by (intros ? ->; rewrite <- Hclen; apply drop_app_length).
        rewrite Hd by reflexivity.
        rewrite !drop_0, (length_app inner), Nat.add_sub, take_app_length. reflexivity.
      + intros a1 a2 -> Ha2 _. rewrite exec_lit_i.
        assert (Hno : starts_with_i ("<"%char :: txt "/body>")
                        (drop (length a1) (a1 ++ a2) ++ close ++ post) = false).
        { apply word_absent_i; [reflexivity|reflexivity|exact Hinner| |].
          - rewrite lower_app, Hclose. apply Ascii.eqb_refl.
          - rewrite length_app. destruct a2; [congruence|simpl; lia]. }
        rewrite drop_app_length in Hno.
        match goal with
        | |- (if ?b then _ else _) = None =>
            replace b with false by (symmetry; exact Hno)
        end.
        reflexivity.
    - intros c b' Hb Hc Hne. exfalso. destruct c as [|x c]; [congruence|].
      injection Hb as <- _. discriminate Hne. }
  rewrite search_from_skip.
  - now rewrite (search_from_here _ _ _ _ _ Hhit).
  - intros j Hj. destruct (match_at BODY_RE (drop j pre ++ _)) as [r|] eqn:E; [|reflexivity].
    apply body_match_needs in E as [E _].
    change (txt "<body") with ("<"%char :: txt "body") in *.
    rewrite (word_absent_i "<"%char (txt "body") pre (open ++ tail) j eq_refl eq_refl Hpre)
      in E; [discriminate| |exact Hj].
    rewrite lower_app, Hopen. apply Ascii.eqb_refl.
Qed.

(** X17.  A chapter with a body element: what the body extraction
    returns is the text between the end of the first opening body tag
    and the first closing body tag after it, case ignored; the tag's
    attributes, and everything before and after the element, are
    dropped. *)
Theorem extract_body_inner (pre open attrs inner close post : text) :
  lower open = txt "<body" -> forallb (none_of [">"%char]) attrs = true ->
  lower close = txt "</body>" ->
  contains (txt "<body") (lower pre) = false ->
  contains (txt "</body>") (lower inner) = false ->
  extract_body (pre ++ open ++ attrs ++ txt ">" ++ inner ++ close ++ post) = inner.
Proof.
  intros Hopen Hattrs Hclose Hpre Hinner. unfold extract_body.
  now rewrite (body_search_hit pre open attrs inner close post).
Qed.

Lemma extract_body_inner_witness :
  extract_body (txt "<html><Body class='c'><p>Hi</p></BODY><!-- </body> --></html>")
  = txt "<p>Hi</p>".
Proof.
  apply (extract_body_inner (txt "<html>") (txt "<Body") (txt " class='c'")
           (txt "<p>Hi</p>") (txt "</BODY>") (txt "<!-- </body> --></html>"));
    vm_compute; reflexivity.
Defined.

(* ----------------------------------------------------------------- *)
(** ** The driver: a run that succeeds *)

Lemma step_bind_ok {A B} (m : step A) (f : A -> step B) fs fs' b :
  step_bind m f fs = (fs', Ok b) ->
  exists fs1 a, m fs = (fs1, Ok a) /\ f a fs1 = (fs', Ok b).
Proof.
  unfold step_bind. destruct (m fs) as [fs1 [a|e]]; [|discriminate].
  intros H. now exists fs1, a.
Qed.

Lemma reading_ok {A} (f : filesystem -> result A) fs fs' a :
  reading f fs = (fs', Ok a) -> fs' = fs /\ f fs = Ok a.
Proof. unfold reading. now intros [= <- ->]. Qed.

Lemma writing_ok f fs fs' u :
  writing f fs = (fs', Ok u) -> f fs = Ok fs'.
Proof. unfold writing. destruct (f fs); [now intros [= <-]|discriminate]. Qed.

Example full_run_result :
  snd full_run = Ok (txt "/book.pdf")
  /\ fst full_run (txt "/book.pdf") = Some (File (txt "%PDF cover%PDF"))
  /\ fst full_run TMP_DIR = None.
Proof. repeat split; vm_compute; reflexivity. Qed.

(* ----------------------------------------------------------------- *)
(** ** The driver: the default output path *)

Lemma split_path_name name :
  forallb (fun c => negb (Ascii.eqb c SEP)) name = true -> split_path name = ([], name).
Proof.
  induction name as [|c name IH]; [reflexivity|]. cbn [forallb split_path].
  intros H. apply andb_prop in H as [Hc H]. rewrite (IH H).
  apply negb_true_iff in Hc. now rewrite Hc.
Qed.

Lemma split_path_dir dir name :
  forallb (fun c => negb (Ascii.eqb c SEP)) name = true ->
  split_path (dir ++ SEP :: name) = (dir ++ [SEP], name).
Proof.
  intros H. induction dir as [|c dir IH].
  - cbn [app split_path]. now rewrite (split_path_name name H).
  - change ((c :: dir) ++ SEP :: name) with (c :: (dir ++ SEP :: name)).
    cbn [split_path]. rewrite IH. destruct (Ascii.eqb c SEP); [reflexivity|].
    destruct dir; reflexivity.
Qed.

Lemma no_dot_contains s : no_dot s -> contains (txt ".") s = false.
Proof.
  unfold no_dot. induction s as [|c s IH]; [reflexivity|].
  cbn [forallb]. intros H. apply andb_prop in H as [Hc H].
  cbn [contains]. rewrite (IH H), orb_false_r.
  change (txt ".") with ["."%char]. rewrite starts_with_cons.
  apply negb_true_iff in Hc. now rewrite Hc.
Qed.

Lemma stem_of_dot u ext : no_dot ext -> stem_of (u ++ "."%char :: ext) = u.
Proof.
  intros He. induction u as [|c u IH].
  - cbn [app stem_of]. now rewrite (no_dot_contains ext He).
  - change ((c :: u) ++ "."%char :: ext) with (c :: (u ++ "."%char :: ext)).
    cbn [stem_of]. rewrite IH.
    replace (contains (txt ".") (u ++ "."%char :: ext)) with true; [reflexivity|].
    symmetry. apply contains_split. now exists u, ext.
Qed.

Lemma stem_of_no_dot r : no_dot r -> stem_of r = r.
Proof.
  destruct r as [|c r]; [reflexivity|]. unfold no_dot. cbn [forallb stem_of].
  intros H. apply andb_prop in H as [Hc H]. rewrite (no_dot_contains r H).
  apply negb_true_iff in Hc. rewrite Ascii.eqb_sym in Hc. now rewrite Hc.
Qed.

Lemma no_dot_last ext stem :
  ext <> [] -> no_dot ext -> ends_with (txt ".") (stem ++ "."%char :: ext) = false.
Proof.
  intros Hne He. apply not_true_is_false. intros H.
  apply ends_with_split in H as [t Ht].
  destruct (exists_last Hne) as (e & x & ->).
  change (txt ".") with ["."%char] in Ht.
  rewrite app_comm_cons, app_assoc in Ht. apply app_inj_tail in Ht as [_ ->].
  unfold no_dot in He. rewrite forallb_app in He. apply andb_prop in He as [_ He].
  cbn in He. discriminate.
Qed.

(** X19.  Without an output path the PDF goes next to the book: the
    last extension of the file name is replaced by [.pdf], and a name
    that has no extension (a leading dot does not start one) gets [.pdf]
    appended. *)
Theorem default_output_path (dir name : text) :
  file_name name ->
  (forall stem ext, name = stem ++ "."%char :: ext -> stem <> [] -> ext <> [] ->
     no_dot ext ->
     with_suffix_pdf (dir ++ SEP :: name) = Ok (dir ++ SEP :: stem ++ txt ".pdf"))
  /\ (no_dot (tl name) ->
      with_suffix_pdf (dir ++ SEP :: name) = Ok (dir ++ SEP :: name ++ txt ".pdf")).
Proof.
  intros [Hne Hsep]. unfold with_suffix_pdf, basename.
  rewrite (split_path_dir dir name Hsep). cbn [fst snd]. split.
  - intros stem ext -> Hstem Hext Hdot. destruct stem as [|c stem]; [congruence|].
    pose proof (no_dot_last ext (c :: stem) Hext Hdot) as Hlast.
    cbn [app] in *. rewrite Hlast, (stem_of_dot stem ext Hdot).
    now rewrite <- app_assoc.
  - destruct name as [|c rest]; [congruence|]. cbn [tl]. intros Hdot.
    rewrite (stem_of_no_dot rest Hdot).
    destruct (ends_with (txt ".") (c :: rest)); now rewrite <- app_assoc.
Qed.

Lemma default_output_path_witness :
  with_suffix_pdf (txt "/home/u/my.book.epub") = Ok (txt "/home/u/my.book.pdf")
  /\ with_suffix_pdf (txt "/home/u/.hidden") = Ok (txt "/home/u/.hidden.pdf").
Proof.
  split.
  - apply (default_output_path (txt "/home/u") (txt "my.book.epub"))
      with (stem := txt "my.book") (ext := txt "epub");
      [split; [discriminate|reflexivity]|reflexivity|discriminate|discriminate|reflexivity].
  - apply (default_output_path (txt "/home/u") (txt ".hidden"));
      [split; [discriminate|reflexivity]|reflexivity].
Defined.

(* ================================================================= *)
(** * The detector, the clean-up and the run *)

(* ----------------------------------------------------------------- *)
(** ** Patterns as sets of texts: the matcher finds what is there *)

Section RepeatComplete.
Context {R : Type} (p : ascii -> bool) (k : text -> option R).

Lemma rep_greedy_complete : forall a b min,
  forallb p a = true -> min <= length a -> is_Some (k b) ->
  is_Some (rep_greedy p k min (a ++ b)).
Proof.
  induction a as [|x a IH]; intros b min Ha Hmin Hk.
  - simpl in Hmin. assert (min = 0) as -> by lia. simpl app.
    destruct b as [|c b]; cbn [rep_greedy]; [exact Hk|].
    destruct (p c); [|exact Hk].
    destruct (rep_greedy p k (pred 0) b); [eauto|exact Hk].
  - cbn [forallb] in Ha. apply andb_prop in Ha as [Hx Ha].
    change ((x :: a) ++ b) with (x :: (a ++ b)). cbn [rep_greedy]. rewrite Hx.
    destruct (IH b (pred min) Ha ltac:(simpl in Hmin; lia) Hk) as [r Hr].
    rewrite Hr. eauto.
Qed.

Lemma rep_lazy_complete : forall a b min,
  forallb p a = true -> min <= length a -> is_Some (k b) ->
  is_Some (rep_lazy p k min (a ++ b)).
Proof.
  induction a as [|x a IH]; intros b min Ha Hmin Hk.
  - simpl in Hmin. assert (min = 0) as -> by lia. simpl app.
    destruct Hk as [r Hr]. destruct b; cbn [rep_lazy]; rewrite Hr; eauto.
  - cbn [forallb] in Ha. apply andb_prop in Ha as [Hx Ha].
    change ((x :: a) ++ b) with (x :: (a ++ b)). cbn [rep_lazy]. rewrite Hx.
    pose proof (IH b (pred min) Ha ltac:(simpl in Hmin; lia) Hk) as Hrec.
    destruct min; [|exact Hrec].
    destruct (k (x :: a ++ b)); [eauto|exact Hrec].
Qed.
End RepeatComplete.

(** The matcher succeeds exactly when the subject starts with a text of
    the pattern behind which the continuation succeeds. *)
Lemma exec_matches r : forall k, group_blind k -> forall cs s,
  is_Some (exec r cs s k)
  <-> exists a b, s = a ++ b /\ matches r a /\ is_Some (k cs b).
Proof.
  induction r as [|p|r1 IH1 r2 IH2|r1 IH1 r2 IH2|g min p|n r IH];
    intros k Hk cs s; cbn [exec matches].
  - split; [intros H; now exists [], s|now intros (a & b & -> & -> & H)].
  - split.
    + destruct s as [|c s]; [intros [x [=]]|].
      destruct (p c) eqn:Hc; [|intros [x [=]]].
      intros H. exists [c], s. split; [reflexivity|]. split; [now exists c|exact H].
    + intros (a & b & -> & (c & -> & Hc) & H). simpl. now rewrite Hc.
  - assert (Hk1 : group_blind (fun cs' s' => exec r2 cs' s' k)).
    { intros c1 c2 s' H. apply (IH2 k Hk) in H as (a & b & -> & Ha & Hb).
      apply (IH2 k Hk). exists a, b. split; [reflexivity|]. split; [exact Ha|].
      now apply (Hk c1). }
    rewrite (IH1 _ Hk1). split.
    + intros (a1 & b1 & -> & H1 & H). apply (IH2 k Hk) in H as (a2 & b & -> & H2 & H).
      exists (a1 ++ a2), b. split; [now rewrite app_assoc|]. split; [|exact H].
      now exists a1, a2.
    + intros (a & b & -> & (a1 & a2 & -> & H1 & H2) & H).
      exists a1, (a2 ++ b). split; [now rewrite app_assoc|]. split; [exact H1|].
      apply (IH2 k Hk). now exists a2, b.
  - split.
    + destruct (exec r1 cs s k) as [x|] eqn:E.
      * intros _. assert (H : is_Some (exec r1 cs s k)) by (rewrite E; eauto).
        apply (IH1 k Hk) in H as (a & b & -> & Ha & H). exists a, b. auto.
      * intros H. apply (IH2 k Hk) in H as (a & b & -> & Ha & H). exists a, b. auto.
    + intros (a & b & -> & [Ha|Ha] & H).
      * assert (H1 : is_Some (exec r1 cs (a ++ b) k))
          by (apply (IH1 k Hk); now exists a, b).
        destruct H1 as [x ->]. eauto.
      * destruct (exec r1 cs (a ++ b) k); [eauto|].
        apply (IH2 k Hk). now exists a, b.
  - destruct g.
    + split.
      * intros [x H]. apply rep_greedy_some in H as (a & b & -> & Ha & Hm & H).
        exists a, b. repeat split; [exact Ha|exact Hm|rewrite H; eauto].
      * intros (a & b & -> & [Ha Hm] & H). now apply rep_greedy_complete.
    + split.
      * intros [x H]. apply rep_lazy_some in H as (a & b & -> & Ha & Hm & H).
        exists a, b. repeat split; [exact Ha|exact Hm|rewrite H; eauto].
      * intros (a & b & -> & [Ha Hm] & H). now apply rep_lazy_complete.
  - assert (Hk' : group_blind
                    (fun cs' s' => k ((n, take (length s - length s') s) :: cs') s')).
    { intros c1 c2 s'. apply Hk. }
    rewrite (IH _ Hk'). split.
    + intros (a & b & -> & Ha & H). exists a, b. split; [reflexivity|].
      split; [exact Ha|]. revert H. apply Hk.
    + intros (a & b & -> & Ha & H). exists a, b. split; [reflexivity|].
      split; [exact Ha|]. revert H. apply Hk.
Qed.

Lemma match_at_matches r s :
  is_Some (match_at r s) <-> exists a b, s = a ++ b /\ matches r a.
Proof.
  unfold match_at.
  assert (Hk : group_blind (fun cs s' => Some (cs, s'))) by (intros ? ? ? _; eauto).
  pose proof (exec_matches r _ Hk [] s) as H. split.
  - intros Hm. destruct (exec r [] s _) as [[cs rest]|] eqn:E;
      [|now apply is_Some_None in Hm].
    destruct (proj1 H ltac:(eauto)) as (a & b & -> & Ha & _). now exists a, b.
  - intros (a & b & -> & Ha).
    destruct (proj2 H) as [[cs rest] ->]; [|eauto].
    exists a, b. split; [reflexivity|]. split; [exact Ha|eauto].
Qed.

Lemma search_from_some r s : forall i,
  is_Some (search_from r i s) <-> exists j, j <= length s /\ is_Some (match_at r (drop j s)).
Proof.
  induction s as [|c s IH]; intros i; cbn [search_from].
  - destruct (match_at r []) as [[cs n]|] eqn:E.
    + split; [intros _; exists 0; split; [lia|cbn [drop]; rewrite E; eauto]|eauto].
    + split; [intros [x [=]]|].
      intros (j & Hj & H). simpl in Hj. assert (j = 0) as -> by lia.
      cbn [drop] in H. rewrite E in H. now apply is_Some_None in H.
  - destruct (match_at r (c :: s)) as [[cs n]|] eqn:E.
    + split; [intros _; exists 0; split; [lia|cbn [drop]; rewrite E; eauto]|eauto].
    + rewrite IH. split.
      * intros (j & Hj & H). exists (S j). split; [simpl; lia|exact H].
      * intros (j & Hj & H). destruct j as [|j].
        -- cbn [drop] in H. rewrite E in H. now apply is_Some_None in H.
        -- exists j. split; [simpl in Hj; lia|exact H].
Qed.

(** [re.search] finds something exactly when the subject holds a text of
    the pattern. *)
Lemma re_search_matches r s :
  is_Some (re_search r s) <-> exists pre a post, s = pre ++ a ++ post /\ matches r a.
Proof.
  unfold re_search. rewrite search_from_some. split.
  - intros (j & Hj & H). apply match_at_matches in H as (a & b & Hs & Ha).
    exists (take j s), a, b. split; [|exact Ha]. now rewrite <- Hs, take_drop.
  - intros (pre & a & post & -> & Ha). exists (length pre). split.
    + rewrite length_app. lia.
    + rewrite drop_app_length. apply match_at_matches. now exists a, post.
Qed.

Lemma matches_cat_cons r rs a :
  matches (cat (r :: rs)) a
  <-> exists a1 a2, a = a1 ++ a2 /\ matches r a1 /\ matches (cat rs) a2.
Proof.
  destruct rs as [|r' rs]; [|reflexivity]. cbn [cat matches]. split.
  - intros H. exists a, []. now rewrite app_nil_r.
  - intros (a1 & a2 & -> & H & ->). now rewrite app_nil_r.
Qed.

Lemma matches_lit_i w a : matches (lit_i w) a <-> lower a = lower w.
Proof.
  unfold lit_i. revert a. induction w as [|x w IH]; intros a.
  - cbn. split; [now intros ->|]. now destruct a.
  - cbn [map]. rewrite matches_cat_cons. split.
    + intros (a1 & a2 & -> & (c & -> & Hc) & H2). apply IH in H2.
      cbn [app lower map]. fold (lower a2) (lower w). rewrite H2. f_equal.
      unfold is_chr_i in Hc. now apply Ascii.eqb_eq in Hc.
    + destruct a as [|c a]; [discriminate|]. cbn [lower map]. intros [= Hc Ha].
      exists [c], a. split; [reflexivity|]. split.
      * exists c. split; [reflexivity|]. unfold is_chr_i. now apply Ascii.eqb_eq.
      * now apply IH.
Qed.

Lemma matches_lit w a : matches (lit w) a <-> a = w.
Proof.
  unfold lit. revert a. induction w as [|x w IH]; intros a.
  - cbn. reflexivity.
  - cbn [map]. rewrite matches_cat_cons. split.
    + intros (a1 & a2 & -> & (c & -> & Hc) & H2). apply IH in H2 as ->.
      unfold is_chr in Hc. now apply Ascii.eqb_eq in Hc as ->.
    + intros ->. exists [x], w. split; [reflexivity|]. split.
      * exists x. split; [reflexivity|]. apply Ascii.eqb_refl.
      * now apply IH.
Qed.

(* ----------------------------------------------------------------- *)
(** ** The cover-page rule

    The detector is compared with the decision rule in the words of the
    specification. *)

Lemma lower_char_sep c : Ascii.eqb (lower_char c) SEP = Ascii.eqb c SEP.
Proof. destruct c as [[] [] [] [] [] [] [] []]; reflexivity. Qed.

Lemma split_path_lower p :
  split_path (lower p) = (lower (fst (split_path p)), lower (snd (split_path p))).
Proof.
  induction p as [|c p IH]; [reflexivity|].
  cbn [lower map split_path]. fold (lower p). rewrite IH, lower_char_sep.
  destruct (split_path p) as [h t]. cbn [fst snd].
  destruct (Ascii.eqb c SEP); [reflexivity|].
  destruct h; reflexivity.
Qed.

Lemma basename_lower p : basename (lower p) = lower (basename p).
Proof. unfold basename. now rewrite split_path_lower. Qed.

Lemma name_check_spec it :
  contains (txt "cover") (basename (lower (href it))) = true <-> name_mentions_cover it.
Proof.
  rewrite basename_lower, contains_split. unfold name_mentions_cover, lower. split.
  - intros (pre & post & H).
    apply map_eq_app in H as (pre' & rest & Hb & Hpre & Hrest).
    apply map_eq_app in Hrest as (mid & post' & -> & Hmid & Hpost).
    now exists pre', mid, post'.
  - intros (pre & mid & post & -> & Hmid).
    exists (map lower_char pre), (map lower_char post).
    now rewrite !map_app, Hmid.
Qed.

(** The detector on the sample book: the cover wrapper is flagged, a
    chapter is not, and a directory in place of the file is not. *)
Example cover_page_examples :
  is_cover_page SAMPLE_FS (txt "/tmp/x/OEBPS/cover.xhtml") (sample_item (txt "cover.xhtml")) = true
  /\ is_cover_page SAMPLE_FS (txt "/tmp/x/OEBPS/ch1.xhtml") (sample_item (txt "ch1.xhtml")) = false
  /\ is_cover_page SAMPLE_FS (txt "/tmp/x/OEBPS/css") (sample_item (txt "Cover.xhtml")) = false.
Proof. repeat split; vm_compute; reflexivity. Qed.

(* ----------------------------------------------------------------- *)
(** ** The cover-page rule: the image tag and the class *)

Lemma none_of_lacks x s : forallb (none_of [x]) s = lacks x s.
Proof.
  unfold lacks. induction s as [|c s IH]; [reflexivity|]. cbn [forallb].
  rewrite IH. unfold none_of. cbn [existsb]. now rewrite orb_false_r.
Qed.

Lemma image_tag_spec body : is_Some (re_search IMG_RE body) <-> has_image_tag body.
Proof.
  rewrite re_search_matches. unfold has_image_tag, IMG_RE. split.
  - intros (pre & a & post & -> & Ha).
    apply matches_cat_cons in Ha as (w & a2 & -> & Hw & (c & -> & Hc)).
    apply matches_lit_i in Hw. exists pre, w, c, post.
    now rewrite <- app_assoc.
  - intros (pre & w & c & post & -> & Hw & Hc). exists pre, (w ++ [c]), post.
    split; [now rewrite <- app_assoc|].
    apply matches_cat_cons. exists w, [c]. split; [reflexivity|].
    split; [now apply matches_lit_i|]. now exists c.
Qed.

Lemma body_class_spec content :
  is_Some (re_search BODY_CLASS_RE content) <-> body_class_mentions_cover content.
Proof.
  rewrite re_search_matches. unfold body_class_mentions_cover, BODY_CLASS_RE. split.
  - intros (pre & a & post & -> & Ha).
    apply matches_cat_cons in Ha as (open & a1 & -> & Hopen & Ha).
    apply matches_cat_cons in Ha as (attrs & a2 & -> & [Hattrs _] & Ha).
    apply matches_cat_cons in Ha as (cls & a3 & -> & Hcls & Ha).
    apply matches_cat_cons in Ha as (q1 & a4 & -> & (c1 & -> & Hq1) & Ha).
    apply matches_cat_cons in Ha as (v1 & a5 & -> & [Hv1 _] & Ha).
    apply matches_cat_cons in Ha as (cov & a6 & -> & Hcov & Ha).
    apply matches_cat_cons in Ha as (v2 & a7 & -> & [Hv2 _] & (c2 & -> & Hq2)).
    apply matches_lit_i in Hopen, Hcls, Hcov.
    apply Ascii.eqb_eq in Hq1 as <-. apply Ascii.eqb_eq in Hq2 as <-.
    rewrite none_of_lacks in Hattrs, Hv1, Hv2.
    exists pre, open, attrs, cls, v1, cov, v2, post.
    repeat split; try assumption. now rewrite <- !app_assoc.
  - intros (pre & open & attrs & cls & v1 & cov & v2 & post
            & -> & Hopen & Hattrs & Hcls & Hcov & Hv1 & Hv2).
    exists pre, (open ++ attrs ++ cls ++ [DQ] ++ v1 ++ cov ++ v2 ++ [DQ]), post.
    split; [now rewrite <- !app_assoc|].
    rewrite <- none_of_lacks in Hattrs, Hv1, Hv2.
    apply matches_cat_cons. exists open, (attrs ++ cls ++ [DQ] ++ v1 ++ cov ++ v2 ++ [DQ]).
    split; [reflexivity|]. split; [now apply matches_lit_i|].
    apply matches_cat_cons. exists attrs, (cls ++ [DQ] ++ v1 ++ cov ++ v2 ++ [DQ]).
    split; [reflexivity|]. split; [split; [exact Hattrs|lia]|].
    apply matches_cat_cons. exists cls, ([DQ] ++ v1 ++ cov ++ v2 ++ [DQ]).
    split; [reflexivity|]. split; [now apply matches_lit_i|].
    apply matches_cat_cons. exists [DQ], (v1 ++ cov ++ v2 ++ [DQ]).
    split; [reflexivity|]. split; [exists DQ; split; [reflexivity|apply Ascii.eqb_refl]|].
    apply matches_cat_cons. exists v1, (cov ++ v2 ++ [DQ]).
    split; [reflexivity|]. split; [split; [exact Hv1|lia]|].
    apply matches_cat_cons. exists cov, (v2 ++ [DQ]).
    split; [reflexivity|]. split; [now apply matches_lit_i|].
    apply matches_cat_cons. exists v2, [DQ].
    split; [reflexivity|]. split; [split; [exact Hv2|lia]|].
    exists DQ. split; [reflexivity|apply Ascii.eqb_refl].
Qed.

(* ----------------------------------------------------------------- *)
(** ** The cover-page rule: trimming *)

Lemma lstrip_spaces a t : forallb isspace a = true -> lstrip (a ++ t) = lstrip t.
Proof.
  induction a as [|c a IH]; [reflexivity|]. cbn [forallb app lstrip].
  intros H. apply andb_prop in H as [-> H]. now apply IH.
Qed.

Lemma lstrip_all_space b : forallb isspace b = true -> lstrip b = [].
Proof. intros H. rewrite <- (app_nil_r b). now rewrite lstrip_spaces. Qed.

Lemma lstrip_split s :
  exists a, s = a ++ lstrip s /\ forallb isspace a = true
            /\ match lstrip s with [] => true | c :: _ => negb (isspace c) end = true.
Proof.
  induction s as [|c s (a & Hs & Ha & Hh)]; [now exists []|]. cbn [lstrip].
  destruct (isspace c) eqn:Hc.
  - exists (c :: a). cbn [app forallb]. rewrite Hc, Ha. now rewrite <- Hs.
  - exists []. cbn [app forallb]. now rewrite Hc.
Qed.

Lemma strip_trimmed s : trimmed_of s (strip s).
Proof.
  destruct (lstrip_split s) as (a & Hs & Ha & Hh).
  destruct (lstrip_split (rev (lstrip s))) as (b & Hr & Hb & Hl).
  unfold strip, rstrip. set (u := lstrip s) in *. set (v := lstrip (rev u)) in *.
  assert (Hu : u = rev v ++ rev b).
  { rewrite <- (rev_involutive u), Hr. now rewrite rev_app_distr. }
  exists a, (rev b). split; [now rewrite <- Hu|]. split; [exact Ha|].
  split; [unfold text in *; now rewrite forallb_rev|].
  unfold tight. rewrite rev_involutive, Hl, andb_true_r.
  destruct (rev v) as [|c t] eqn:Ev; [reflexivity|].
  rewrite Hu in Hh. exact Hh.
Qed.

Lemma trimmed_strip s t : trimmed_of s t -> t = strip s.
Proof.
  intros (a & b & -> & Ha & Hb & Ht). unfold strip, rstrip.
  rewrite lstrip_spaces by exact Ha. unfold tight in Ht.
  apply andb_prop in Ht as [Hh Hl].
  destruct t as [|c t].
  - cbn [app]. rewrite (lstrip_all_space b Hb). reflexivity.
  - assert (E : lstrip ((c :: t) ++ b) = (c :: t) ++ b).
    { cbn [app lstrip]. apply negb_true_iff in Hh. now rewrite Hh. }
    rewrite E, rev_app_distr, lstrip_spaces
      by (unfold text in *; now rewrite forallb_rev).
    destruct (rev (c :: t)) as [|x r] eqn:Er.
    + apply (f_equal (@rev ascii)) in Er. now rewrite rev_involutive in Er.
    + cbn [lstrip]. apply negb_true_iff in Hl. rewrite Hl, <- Er.
      now rewrite rev_involutive.
Qed.

(* ----------------------------------------------------------------- *)
(** ** The cover-page rule: the text without its tags *)

Lemma lacks_app x a b : lacks x (a ++ b) = lacks x a && lacks x b.
Proof. apply forallb_app. Qed.

(** A text is a run without [x], followed by nothing or by [x]. *)
Lemma lacks_span x s :
  exists r t, s = r ++ t /\ lacks x r = true /\ (t = [] \/ exists t', t = x :: t').
Proof.
  induction s as [|c s (r & t & -> & Hr & Ht)]; [exists [], []; auto|].
  destruct (Ascii.eqb c x) eqn:E.
  - apply Ascii.eqb_eq in E as ->. exists [], (x :: r ++ t). eauto.
  - exists (c :: r), t. split; [reflexivity|]. split; [|exact Ht].
    unfold lacks in *. cbn [forallb]. now rewrite E.
Qed.

Lemma tag_match_hit r rest :
  r <> [] -> lacks ">" r = true ->
  match_at TAG_RE ("<"%char :: r ++ ">"%char :: rest) = Some ([], S (S (length r))).
Proof.
  intros Hne Hr. unfold match_at, TAG_RE. cbn [cat]. rewrite exec_cat, exec_lit.
  cbn [starts_with txt list_ascii_of_string length drop]. rewrite Ascii.eqb_refl.
  cbn [andb]. rewrite drop_0, exec_cat. unfold plus. cbn [exec].
  rewrite <- none_of_lacks in Hr.
  rewrite (rep_greedy_longest (none_of [">"%char]) _ r (">"%char :: rest) 1
             (([] : captures), rest) Hr).
  - f_equal. f_equal. cbn [length]. rewrite length_app. cbn [length]. lia.
  - destruct r; [congruence|simpl; lia].
  - rewrite exec_lit. cbn [starts_with txt list_ascii_of_string length drop].
    rewrite Ascii.eqb_refl. reflexivity.
  - intros c b' Hb Hc Hp. exfalso. destruct c as [|x c]; [congruence|].
    injection Hb as <- _. discriminate Hp.
Qed.

Lemma tag_match_needs s :
  is_Some (match_at TAG_RE s) ->
  exists r b, s = "<"%char :: r ++ ">"%char :: b /\ r <> [] /\ lacks ">" r = true.
Proof.
  intros H. apply match_at_matches in H as (a & b & -> & Ha). unfold TAG_RE in Ha.
  apply matches_cat_cons in Ha as (a1 & a2 & -> & H1 & Ha).
  apply matches_cat_cons in Ha as (r & a3 & -> & [Hr Hmin] & H3).
  cbn [cat] in H3. apply matches_lit in H1 as ->. apply matches_lit in H3 as ->.
  exists r, b. rewrite none_of_lacks in Hr. split; [|split; [|exact Hr]].
  - cbn [txt list_ascii_of_string app]. now rewrite <- app_assoc.
  - intros ->. simpl in Hmin. lia.
Qed.

Lemma tag_match_none s :
  (forall r b, s = "<"%char :: r ++ ">"%char :: b -> lacks ">" r = true -> r = []) ->
  match_at TAG_RE s = None.
Proof.
  intros H. destruct (match_at TAG_RE s) as [x|] eqn:E; [|reflexivity]. exfalso.
  destruct (tag_match_needs s) as (r & b & Hs & Hne & Hr); [rewrite E; eauto|].
  apply Hne. now apply (H r b).
Qed.

Lemma untag_run r : forall buf s,
  lacks ">" r = true -> untag (Some buf) (r ++ s) = untag (Some (rev r ++ buf)) s.
Proof.
  induction r as [|c r IH]; intros buf s Hr; [reflexivity|].
  unfold lacks in Hr. cbn [forallb] in Hr. apply andb_prop in Hr as [Hc Hr].
  apply negb_true_iff in Hc. cbn [app untag]. rewrite Hc.
  rewrite IH by exact Hr. cbn [rev]. now rewrite <- app_assoc.
Qed.

Lemma untag_end r buf :
  lacks ">" r = true -> untag (Some buf) r = "<"%char :: rev buf ++ r.
Proof.
  intros Hr. rewrite <- (app_nil_r r) at 1. rewrite untag_run by exact Hr.
  cbn [untag]. now rewrite rev_app_distr, rev_involutive.
Qed.

(** Without a [>] nothing is a tag. *)
Lemma scan_no_gt f s :
  lacks ">" s = true ->
  scan_sub (fun s' => match match_at TAG_RE s' with
                      | Some (cs, n) => Some (f cs, n)
                      | None => None
                      end) 0 s = s.
Proof.
  intros Hs.
  assert (Hnone : forall t, lacks ">" t = true -> match_at TAG_RE t = None).
  { intros t Ht. apply tag_match_none. intros r b -> _. exfalso.
    change ("<"%char :: r ++ ">"%char :: b) with (("<"%char :: r) ++ ">"%char :: b) in Ht.
    rewrite (lacks_app ">" ("<"%char :: r) (">"%char :: b)) in Ht.
    apply andb_prop in Ht as [_ Ht]. discriminate Ht. }
  induction s as [|c s IH].
  - cbn [scan_sub]. now rewrite (Hnone [] eq_refl).
  - rewrite scan_sub_miss by (now rewrite (Hnone _ Hs)).
    f_equal. apply IH. unfold lacks in *. cbn [forallb] in Hs.
    now apply andb_prop in Hs as [_ Hs].
Qed.

Lemma re_sub_tags s : re_sub TAG_RE drop_match s = without_tags s.
Proof.
  unfold re_sub, without_tags.
  set (m := fun s' : text => match match_at TAG_RE s' with
                             | Some (cs, n) => Some (drop_match cs, n)
                             | None => None
                             end).
  remember (length s) as n eqn:Hn. revert s Hn.
  induction n as [n IH] using lt_wf_ind. intros s Hn.
  destruct s as [|c s].
  - cbn [scan_sub untag]. unfold m.
    now rewrite (tag_match_none []) by (intros r b [=]).
  - destruct (Ascii.eqb c "<") eqn:Ec.
    2:{ rewrite scan_sub_miss.
        - cbn [untag]. rewrite Ec. f_equal. apply (IH (length s)); [simpl in Hn; lia|reflexivity].
        - unfold m. rewrite tag_match_none; [reflexivity|].
          intros r b [= -> _]. discriminate Ec. }
    apply Ascii.eqb_eq in Ec as ->. cbn [untag]. rewrite Ascii.eqb_refl.
    destruct (lacks_span ">" s) as (r & t & -> & Hr & [->|[t' ->]]).
    + rewrite app_nil_r in *.
      etransitivity; [|symmetry; exact (untag_end r [] Hr)]. cbn [rev app].
      apply (scan_no_gt drop_match ("<"%char :: r)).
      unfold lacks in *. cbn [forallb]. now rewrite Hr.
    + destruct r as [|x r].
      * cbn [app untag]. rewrite scan_sub_miss.
        2:{ unfold m. rewrite tag_match_none; [reflexivity|].
            intros r b [= Hs] Hr'. destruct r as [|y r]; [reflexivity|].
            injection Hs as <- _. discriminate Hr'. }
        f_equal. rewrite scan_sub_miss.
        2:{ unfold m. rewrite tag_match_none; [reflexivity|]. intros r b [=]. }
        f_equal. apply (IH (length t')); [simpl in Hn; lia|reflexivity].
      * etransitivity; [|symmetry; exact (untag_run (x :: r) [] _ Hr)].
        assert (Hb : rev (x :: r) ++ [] <> []).
        { rewrite app_nil_r. intros E. apply (f_equal (@rev ascii)) in E.
          rewrite rev_involutive in E. discriminate. }
        destruct (rev (x :: r) ++ []) as [|y buf] eqn:Eb; [congruence|].
        cbn [untag]. rewrite Ascii.eqb_refl.
        replace ("<"%char :: (x :: r) ++ ">"%char :: t')
          with (("<"%char :: (x :: r) ++ [">"%char]) ++ t')
          by (cbn [app]; now rewrite <- app_assoc).
        rewrite (scan_sub_hit m [] _ t').
        -- cbn [app]. apply (IH (length t')); [|reflexivity].
           rewrite Hn. cbn [length]. rewrite length_app. simpl. lia.
        -- discriminate.
        -- unfold m.
           replace (("<"%char :: (x :: r) ++ [">"%char]) ++ t')
             with ("<"%char :: (x :: r) ++ ">"%char :: t')
             by (cbn [app]; now rewrite <- app_assoc).
           rewrite (tag_match_hit (x :: r) t' ltac:(discriminate) Hr).
           unfold drop_match. f_equal. f_equal. cbn [length].
           rewrite length_app. simpl. lia.
Qed.

(* ----------------------------------------------------------------- *)
(** ** The cover-page rule: the body of the document *)

Lemma starts_with_i_split w s :
  starts_with_i w s = true <-> exists x b, s = x ++ b /\ lower x = lower w.
Proof.
  rewrite starts_with_i_lower, starts_with_split. split.
  - intros [t Ht]. exists (take (length w) s), (drop (length w) s).
    split; [now rewrite take_drop|].
    rewrite <- (take_drop (length w) s), lower_app in Ht.
    apply (f_equal (take (length w))) in Ht.
    destruct (Nat.le_gt_cases (length w) (length s)) as [Hl|Hl].
    + rewrite !take_app_length' in Ht
        by (rewrite lower_length; rewrite ?length_take; lia).
      exact Ht.
    + exfalso. apply (f_equal length) in Ht.
      rewrite !length_take, !length_app, !lower_length, length_take, length_drop in Ht.
      lia.
  - intros (x & b & -> & Hx). exists (lower b). now rewrite lower_app, Hx.
Qed.

Lemma starts_with_i_drop w s :
  starts_with_i w s = true ->
  exists x, s = x ++ drop (length w) s /\ lower x = lower w.
Proof.
  intros H. apply starts_with_i_split in H as (x & b & -> & Hx).
  exists x. split; [|exact Hx]. apply lower_eq_length in Hx.
  now rewrite <- Hx, drop_app_length.
Qed.

Lemma cut_i_some w : forall s a b,
  cut_i w s = Some (a, b) ->
  (exists x, s = a ++ x ++ b /\ lower x = lower w)
  /\ (forall j, j < length a -> starts_with_i w (drop j s) = false).
Proof.
  induction s as [|c s IH]; intros a b; cbn [cut_i].
  - destruct (starts_with_i w []) eqn:E; [|discriminate]. intros [= <- <-]. split.
    + apply starts_with_i_drop in E as (x & Hs & Hx). now exists x.
    + intros j Hj. simpl in Hj. lia.
  - destruct (starts_with_i w (c :: s)) eqn:E.
    + intros [= <- <-]. split.
      * apply starts_with_i_drop in E as (x & Hs & Hx). now exists x.
      * intros j Hj. simpl in Hj. lia.
    + destruct (cut_i w s) as [[a' b']|] eqn:Ec; [|discriminate].
      intros [= <- <-]. destruct (IH a' b' eq_refl) as [(x & -> & Hx) Hno]. split.
      * now exists x.
      * intros [|j] Hj; [exact E|]. cbn [drop]. apply Hno. simpl in Hj. lia.
Qed.

Lemma cut_i_none w : forall s,
  cut_i w s = None -> forall j, starts_with_i w (drop j s) = false.
Proof.
  induction s as [|c s IH]; cbn [cut_i].
  - destruct (starts_with_i w []) eqn:E; [discriminate|]. intros _ j.
    now rewrite drop_nil.
  - destruct (starts_with_i w (c :: s)) eqn:E; [discriminate|].
    destruct (cut_i w s) as [[a b]|] eqn:Ec; [discriminate|]. intros _ [|j]; [exact E|].
    cbn [drop]. now apply IH.
Qed.

(** No occurrence starts in [pre]: none lies in [pre]. *)
Lemma no_start_contains w pre rest :
  w <> [] ->
  (forall j, j < length pre -> starts_with_i w (drop j (pre ++ rest)) = false) ->
  contains (lower w) (lower pre) = false.
Proof.
  intros Hw Hno. apply not_true_is_false. intros H.
  apply contains_split in H as (u & v & H).
  assert (Hlen : length pre = length u + length w + length v).
  { apply (f_equal length) in H. rewrite !length_app, !lower_length in H. lia. }
  assert (Hj : length u < length pre) by (destruct w; [congruence|simpl in Hlen; lia]).
  specialize (Hno (length u) Hj).
  rewrite starts_with_i_lower, lower_drop, lower_app, H in Hno.
  rewrite <- app_assoc, drop_app_length, <- app_assoc in Hno.
  rewrite (proj2 (starts_with_split _ _)) in Hno; [discriminate|eauto].
Qed.

Lemma lower_char_gt c : lower_char c = ">"%char -> c = ">"%char.
Proof. destruct c as [[] [] [] [] [] [] [] []]; intros H; try reflexivity; discriminate H. Qed.

Lemma no_start_lacks x s rest :
  (forall j, j < length s -> starts_with_i [x] (drop j (s ++ rest)) = false) ->
  lacks x s = true.
Proof.
  intros Hno. unfold lacks. apply forallb_forall. intros c Hc.
  apply negb_true_iff, not_true_is_false. intros E. apply Ascii.eqb_eq in E as ->.
  apply in_split in Hc as (u & v & ->).
  specialize (Hno (length u)). rewrite <- app_assoc, drop_app_length in Hno.
  cbn [app starts_with_i] in Hno. unfold is_chr_i in Hno.
  rewrite Ascii.eqb_refl in Hno. cbn in Hno.
  assert (false = true); [|discriminate]. rewrite <- Hno; [reflexivity|].
  rewrite length_app. simpl. lia.
Qed.

(** What the body pattern stands for. *)
Lemma matches_body a :
  matches BODY_RE a <->
  exists open attrs inner close,
    a = open ++ attrs ++ ">"%char :: inner ++ close
    /\ lower open = txt "<body" /\ lacks ">" attrs = true /\ lower close = txt "</body>".
Proof.
  unfold BODY_RE. split.
  - intros Ha.
    apply matches_cat_cons in Ha as (open & a1 & -> & Hopen & Ha).
    apply matches_cat_cons in Ha as (attrs & a2 & -> & [Hattrs _] & Ha).
    apply matches_cat_cons in Ha as (gt & a3 & -> & Hgt & Ha).
    apply matches_cat_cons in Ha as (inner & close & -> & _ & Hclose).
    cbn [cat] in Hclose. apply matches_lit_i in Hopen, Hclose. apply matches_lit in Hgt as ->.
    rewrite none_of_lacks in Hattrs. now exists open, attrs, inner, close.
  - intros (open & attrs & inner & close & -> & Hopen & Hattrs & Hclose).
    apply matches_cat_cons. exists open, (attrs ++ ">"%char :: inner ++ close).
    split; [reflexivity|]. split; [now apply matches_lit_i|].
    apply matches_cat_cons. exists attrs, (">"%char :: inner ++ close).
    split; [reflexivity|]. split; [split; [now rewrite none_of_lacks|lia]|].
    apply matches_cat_cons. exists (txt ">"), (inner ++ close).
    split; [reflexivity|]. split; [now apply matches_lit|].
    apply matches_cat_cons. exists inner, close.
    split; [reflexivity|]. split; [|cbn [cat]; now apply matches_lit_i].
    cbn [matches]. unfold star_lazy. cbn [matches]. split; [|lia].
    now apply forallb_forall.
Qed.

(** Behind a run without [>] and a [>]: whatever follows a later [>]
    follows the first one. *)
Lemma behind_first_gt a1 s2 : forall v w,
  lacks ">" a1 = true -> a1 ++ ">"%char :: s2 = v ++ ">"%char :: w ->
  w `suffix_of` s2.
Proof.
  induction a1 as [|c a1 IH]; intros v w Ha H.
  - destruct v as [|x v]; cbn [app] in H.
    + injection H as ->. reflexivity.
    + injection H as _ ->. exists (v ++ [">"%char]). now rewrite <- app_assoc.
  - unfold lacks in Ha. cbn [forallb] in Ha. apply andb_prop in Ha as [Hc Ha].
    destruct v as [|x v]; cbn [app] in H.
    + injection H as -> _. discriminate Hc.
    + injection H as _ H. now apply (IH v w).
Qed.

Lemma body_of_some content inner :
  body_of content = Some inner ->
  exists start n, re_search BODY_RE content = Some (start, [(1, inner)], n).
Proof.
  unfold body_of. cbn [mbind option_bind].
  destruct (cut_i (txt "<body") content) as [[a0 s1]|] eqn:E0; [|discriminate].
  cbn [mbind option_bind].
  destruct (cut_i (txt ">") s1) as [[a1 s2]|] eqn:E1; [|discriminate].
  cbn [mbind option_bind].
  destruct (cut_i (txt "</body>") s2) as [[a2 s3]|] eqn:E2; [|discriminate].
  cbn [mbind option_bind]. intros [= ->].
  apply cut_i_some in E0 as [(open & -> & Hopen) Hno0].
  apply cut_i_some in E1 as [(gt & -> & Hgt) Hno1].
  apply cut_i_some in E2 as [(close & -> & Hclose) Hno2].
  assert (gt = txt ">") as ->.
  { destruct gt as [|c [|c' gt]]; try discriminate. injection Hgt as Hc.
    now apply lower_char_gt in Hc as ->. }
  assert (Hattrs : forallb (none_of [">"%char]) a1 = true).
  { rewrite none_of_lacks. apply (no_start_lacks _ _ _ Hno1). }
  do 2 eexists.
  apply (body_search_hit a0 open a1 inner close s3 Hopen Hattrs Hclose).
  - apply (no_start_contains (txt "<body") a0 _ ltac:(discriminate) Hno0).
  - apply (no_start_contains (txt "</body>") inner _ ltac:(discriminate) Hno2).
Qed.

Lemma body_of_none content :
  body_of content = None -> re_search BODY_RE content = None.
Proof.
  intros Hb. destruct (re_search BODY_RE content) as [found|] eqn:E; [|reflexivity].
  exfalso. assert (Hs : is_Some (re_search BODY_RE content)) by (rewrite E; eauto).
  apply re_search_matches in Hs as (pre & a & post & Hc & Ha).
  apply matches_body in Ha as (open & attrs & inner & close & -> & Hopen & Hattrs & Hclose).
  assert (Hat : forall w x u v, lower x = lower w ->
                  starts_with_i w (drop (length u) (u ++ x ++ v)) = true).
  { intros w x u v Hx. rewrite drop_app_length. apply starts_with_i_split. now exists x, v. }
  unfold body_of in Hb. cbn [mbind option_bind] in Hb.
  destruct (cut_i (txt "<body") content) as [[a0 s1]|] eqn:E0.
  2:{ pose proof (cut_i_none _ _ E0 (length pre)) as Hno. subst content.
      rewrite <- !app_assoc, (Hat (txt "<body") open) in Hno by exact Hopen.
      discriminate. }
  cbn [mbind option_bind] in Hb.
  apply cut_i_some in E0 as [(open0 & Hc0 & Hopen0) Hno0].
  assert (Hle : length a0 <= length pre).
  { apply Nat.nlt_ge. intros Hlt. specialize (Hno0 (length pre) Hlt).
    rewrite Hc, <- !app_assoc, (Hat (txt "<body") open) in Hno0 by exact Hopen.
    discriminate. }
  assert (Hlen0 : length open0 = 5) by (now apply (lower_eq_length open0 (txt "<body"))).
  assert (Hlen : length open = 5) by (now apply (lower_eq_length open (txt "<body"))).
  assert (Hsuf : (attrs ++ ">"%char :: inner ++ close ++ post) `suffix_of` s1).
  { assert (H1 : s1 = drop (length a0 + 5) content).
    { rewrite Hc0, app_assoc, <- Hlen0, <- length_app. now rewrite drop_app_length. }
    assert (H2 : attrs ++ ">"%char :: inner ++ close ++ post
                 = drop (length pre + 5) content).
    { rewrite Hc, <- !app_assoc. rewrite (app_assoc pre open), <- Hlen, <- length_app.
      rewrite drop_app_length. cbn [app]. now rewrite <- !app_assoc. }
    rewrite H1, H2.
    replace (drop (length pre + 5) content)
      with (drop (length pre - length a0) (drop (length a0 + 5) content))
      by (rewrite drop_drop; f_equal; lia).
    apply suffix_drop. }
  destruct Hsuf as [u Hu].
  destruct (cut_i (txt ">") s1) as [[a1 s2]|] eqn:E1.
  2:{ pose proof (cut_i_none _ _ E1 (length (u ++ attrs))) as Hno.
      rewrite Hu, app_assoc, drop_app_length in Hno. cbn in Hno. discriminate. }
  cbn [mbind option_bind] in Hb.
  apply cut_i_some in E1 as [(gt & Hs1 & Hgt) Hno1].
  assert (gt = txt ">") as ->.
  { destruct gt as [|c [|c' gt]]; try discriminate. injection Hgt as Hcg.
    now apply lower_char_gt in Hcg as ->. }
  assert (Ha1 : lacks ">" a1 = true).
  { rewrite Hs1 in Hno1. apply (no_start_lacks _ _ _ Hno1). }
  assert (Hsuf2 : (inner ++ close ++ post) `suffix_of` s2).
  { apply (behind_first_gt a1 s2 (u ++ attrs) _ Ha1).
    transitivity s1; [symmetry; exact Hs1|]. rewrite Hu. now rewrite <- app_assoc. }
  destruct Hsuf2 as [u2 Hu2].
  destruct (cut_i (txt "</body>") s2) as [[a2 s3]|] eqn:E2; [discriminate|].
  pose proof (cut_i_none _ _ E2 (length (u2 ++ inner))) as Hno.
  rewrite Hu2, app_assoc in Hno.
  rewrite (Hat (txt "</body>") close (u2 ++ inner) post) in Hno by exact Hclose.
  discriminate.
Qed.

(* ----------------------------------------------------------------- *)
(** ** The cover-page rule: the statement *)

(** The test on the body of the document, as the detector runs it,
    against the rule. *)
Lemma wraps_image_spec content :
  match re_search BODY_RE content with
  | Some (_, cs, _) =>
      bool_decide (is_Some (re_search IMG_RE (strip (default [] (group 1 cs)))))
      && (length (strip (re_sub TAG_RE drop_match (strip (default [] (group 1 cs)))))
          <? 100)
  | None => false
  end = true
  <-> wraps_image content.
Proof.
  unfold wraps_image. destruct (body_of content) as [inner|] eqn:Hb.
  - destruct (body_of_some content inner Hb) as (start & n & ->).
    change (default [] (group 1 [(1, inner)])) with inner.
    rewrite andb_true_iff, bool_decide_eq_true, Nat.ltb_lt, image_tag_spec, re_sub_tags.
    split.
    + intros [Himg Hlen].
      exists inner, (strip inner), (strip (without_tags (strip inner))).
      split; [reflexivity|]. split; [apply strip_trimmed|]. split; [exact Himg|].
      split; [apply strip_trimmed|exact Hlen].
    + intros (inner' & body & plain & [= <-] & Hbody & Himg & Hplain & Hlen).
      apply trimmed_strip in Hbody as ->. apply trimmed_strip in Hplain as ->.
      now split.
  - rewrite (body_of_none content Hb). split; [discriminate|].
    intros (inner & body & plain & [=] & _).
Qed.

(** C5.  On a file that can be read, the detector flags the entry exactly
    when its file name mentions [cover] and either the trimmed body holds
    [<img] followed by white space around less than 100 characters of
    trimmed text outside tags, or a [<body] is followed, before any [>],
    by [class=] and a value in double quotes that holds [cover]; an entry
    whose name does not mention [cover] is never flagged, and a file that
    cannot be read is not a cover page. *)
Theorem cover_page_rule (fs : filesystem) (html_path : text) (it : item) :
  (forall content, read_text fs html_path = Ok content ->
     (is_cover_page fs html_path it = true <-> cover_rule it content))
  /\ (~ name_mentions_cover it -> is_cover_page fs html_path it = false)
  /\ (forall e, read_text fs html_path = Raise e -> is_cover_page fs html_path it = false).
Proof.
  unfold is_cover_page. split; [|split].
  - intros content Hread. rewrite Hread. unfold cover_rule.
    rewrite <- name_check_spec, <- wraps_image_spec, <- body_class_spec.
    destruct (contains (txt "cover") (basename (lower (href it)))); cbn [negb].
    2:{ split; [discriminate|]. now intros [H _]. }
    cbn [mbind result_bind].
    destruct (match re_search BODY_RE content with
              | Some (_, cs, _) => _
              | None => false
              end) eqn:Hw.
    + split; [|reflexivity]. intros _. split; [reflexivity|now left].
    + destruct (bool_decide (is_Some (re_search BODY_CLASS_RE content))) eqn:Hcls.
      * apply bool_decide_eq_true in Hcls. split; [|reflexivity].
        intros _. split; [reflexivity|now right].
      * apply bool_decide_eq_false in Hcls. split; [discriminate|].
        intros [_ [H|H]]; [discriminate|contradiction].
  - intros Hname. rewrite <- name_check_spec in Hname.
    apply not_true_is_false in Hname. now rewrite Hname.
  - intros e Hread. rewrite Hread.
    destruct (negb _); reflexivity.
Qed.

(** The rule as the specification words it says more than the detector
    does: a class in single quotes and an image tag without white space
    behind [<img] meet the wording, and the detector passes both pages. *)
Lemma cover_rule_not_as_worded :
  worded_rule (cover_item (txt "cover1.xhtml")) SINGLE_QUOTED_COVER
  /\ is_cover_page COVER_PAGES_FS (txt "/b/cover1.xhtml") (cover_item (txt "cover1.xhtml"))
     = false
  /\ worded_rule (cover_item (txt "cover2.xhtml")) BARE_IMAGE_COVER
  /\ is_cover_page COVER_PAGES_FS (txt "/b/cover2.xhtml") (cover_item (txt "cover2.xhtml"))
     = false.
Proof.
  split; [|split; [vm_compute; reflexivity|split; [|vm_compute; reflexivity]]].
  - split; [now exists [], (txt "cover"), (txt "1.xhtml")|]. right.
    exists (txt "<html>"), (txt "<body"), (txt " "), (txt "class="), SQ,
      [], (txt "cover"), [], (txt "><p>Title</p></body></html>").
    repeat split; auto.
  - split; [now exists [], (txt "cover"), (txt "2.xhtml")|]. left.
    exists (txt "<img/>"), (txt "<img/>"), [].
    split; [vm_compute; reflexivity|].
    split; [exists [], []; repeat split; reflexivity|].
    split; [now exists [], (txt "<img"), (txt "/>")|].
    split; [exists [], []; repeat split; reflexivity|simpl; lia].
Qed.

(** With double quotes and with white space in the image tag the
    detector flags the same pages. *)
Example cover_rule_as_detected :
  is_cover_page
    (fs_of [(txt "/b/cover1.xhtml",
             File (fmt "<html><body class=`cover`><p>Title</p></body></html>"))])
    (txt "/b/cover1.xhtml") (cover_item (txt "cover1.xhtml")) = true
  /\ is_cover_page
       (fs_of [(txt "/b/cover2.xhtml", File (txt "<html><body><img /></body></html>"))])
       (txt "/b/cover2.xhtml") (cover_item (txt "cover2.xhtml")) = true.
Proof. split; vm_compute; reflexivity. Qed.

(* ----------------------------------------------------------------- *)
(** ** Failure and cleanup in the driver *)



Lemma rmtree_outside locked fs d p : below d p = false -> rmtree locked fs d p = fs p.
Proof. unfold rmtree. now intros ->. Qed.



Section Cleanup.
Variable xml_parse : text -> option element.
Variable mkdtemp : step text.
Variable extractall : text -> text -> step unit.
Variable image_open : text -> option (Z * Z).
Variable image_pdf : text -> geometry -> result text.
Variable render_to_pdf : text -> text -> step unit.
Variable merge_pdf : option text -> text -> gmap string (option text) -> result text.
Variable locked : list text.

Let run := epub_to_pdf xml_parse mkdtemp extractall image_open image_pdf
             render_to_pdf merge_pdf locked.
Let body := convert xml_parse extractall image_open image_pdf render_to_pdf merge_pdf.



Lemma run_after_mkdtemp epub_path pdf_path out fs fs0 d :
  match pdf_path with Some p => Ok p | None => with_suffix_pdf epub_path end = Ok out ->
  mkdtemp fs = (fs0, Ok d) ->
  run epub_path pdf_path fs =
    (rmtree locked (fst (body epub_path out d fs0)) d, snd (body epub_path out d fs0)).
Proof.
  intros Hout Hd. unfold run, epub_to_pdf, step_bind, reading, try_finally.
  rewrite Hout, Hd. fold body. now destruct (body epub_path out d fs0).
Qed.
End Cleanup.

Example toy_run_fails :
  snd toy_run = Raise NO_CONTAINER
  /\ fst toy_run (path_join TMP_DIR (txt "mimetype")) = None
  /\ fst toy_run TMP_DIR = None.
Proof. repeat split; vm_compute; reflexivity. Qed.

(* ----------------------------------------------------------------- *)
(** ** Paths of plain names *)




















(* ----------------------------------------------------------------- *)
(** ** Failure and cleanup in the driver: the statement *)




(** A removal that the operating system refuses is ignored: the run ends
    as it would have, and the file and the directory above it stay. *)
Example locked_file_stays :
  snd locked_run = Raise NO_CONTAINER
  /\ is_Some (fst locked_run (path_join TMP_DIR (txt "mimetype")))
  /\ is_Some (fst locked_run TMP_DIR).
Proof.
  split; [vm_compute; reflexivity|].
  split.
  - destruct (fst locked_run (path_join TMP_DIR (txt "mimetype"))) as [n|] eqn:E; [eauto|].
    exfalso. revert E. vm_compute. discriminate.
  - destruct (fst locked_run TMP_DIR) as [n|] eqn:E; [eauto|].
    exfalso. revert E. vm_compute. discriminate.
Qed.

(* ----------------------------------------------------------------- *)
(** ** The combined document: what it holds *)

Lemma css_links_uris paths links :
  css_links paths = Ok links ->
  exists uris, Forall2 (fun p u => as_uri p = Ok u) paths uris
               /\ links = concat (map link_element uris).
Proof.
  revert links. induction paths as [|p paths IH]; intros links; cbn [css_links].
  - intros [= <-]. exists []. split; [constructor|reflexivity].
  - destruct (as_uri p) as [u|] eqn:Hu; [|discriminate]. cbn [mbind result_bind].
    destruct (css_links paths) as [l|]; [|discriminate]. cbn [mbind result_bind].
    intros [= <-]. destruct (IH l eq_refl) as (uris & HF & ->).
    exists (u :: uris). split; [now constructor|].
    cbn [map concat]. unfold link_element. now rewrite <- !app_assoc.
Qed.

Lemma tags_not_body_app a b :
  tags_not_body a = true -> tags_not_body b = true -> tags_not_body (a ++ b) = true.
Proof.
  induction a as [|c a IH]; intros Ha Hb; [exact Hb|].
  cbn [tags_not_body app] in *. apply andb_prop in Ha as [Hc Ha].
  rewrite (IH Ha Hb), andb_true_r.
  destruct (Ascii.eqb c "<"); [|reflexivity].
  destruct a as [|c' a]; [discriminate|exact Hc].
Qed.

Lemma lower_char_lt c : Ascii.eqb "<" (lower_char c) = Ascii.eqb c "<".
Proof. destruct c as [[] [] [] [] [] [] [] []]; reflexivity. Qed.

Lemma tags_not_body_contains s :
  tags_not_body s = true -> contains (txt "<body") (lower s) = false.
Proof.
  induction s as [|c s IH]; [reflexivity|]. cbn [tags_not_body]. intros H.
  apply andb_prop in H as [Hc H]. cbn [lower map contains]. fold (lower s).
  rewrite (IH H), orb_false_r.
  change (txt "<body") with ("<"%char :: txt "body"). rewrite starts_with_cons, lower_char_lt.
  destruct (Ascii.eqb c "<"); [|reflexivity]. cbn [andb].
  destruct s as [|c' s]; [reflexivity|]. cbn [lower map].
  change (txt "body") with ("b"%char :: txt "ody"). rewrite starts_with_cons.
  apply negb_true_iff in Hc. now rewrite (Ascii.eqb_sym "b"), Hc.
Qed.

Lemma uri_char_not_lt c : uri_char c = true -> Ascii.eqb c "<" = false.
Proof. destruct c as [[] [] [] [] [] [] [] []]; vm_compute; congruence. Qed.

Lemma tags_not_body_uri u : forallb uri_char u = true -> tags_not_body u = true.
Proof.
  induction u as [|c u IH]; [reflexivity|]. cbn [forallb tags_not_body]. intros H.
  apply andb_prop in H as [Hc H]. now rewrite (uri_char_not_lt c Hc), (IH H).
Qed.

Lemma as_uri_chars p u : as_uri p = Ok u -> forallb uri_char u = true.
Proof.
  unfold as_uri. destruct (starts_with [SEP] p); [|discriminate]. intros [= <-].
  pose proof (forallb_app uri_char (txt "file://") (concat (map quote_char p))) as Ha.
  change (forallb uri_char (txt "file://" ++ concat (map quote_char p)) = true).
  unfold text in *. rewrite Ha. apply andb_true_iff. split; [reflexivity|].
  apply forallb_concat_map, quote_char_safe.
Qed.

Lemma tags_not_body_links paths uris :
  Forall2 (fun p u => as_uri p = Ok u) paths uris ->
  tags_not_body (concat (map link_element uris)) = true.
Proof.
  induction 1 as [|p u paths uris Hu _ IH]; [reflexivity|]. cbn [map concat].
  apply tags_not_body_app; [|exact IH]. unfold link_element.
  apply tags_not_body_app; [reflexivity|].
  apply tags_not_body_app; [|reflexivity].
  apply tags_not_body_uri. now apply (as_uri_chars p).
Qed.

(** A word that does not end with [c] does not come up when [c] is put
    behind a text. *)
Lemma contains_snoc w x c :
  ends_with [c] w = false -> contains w x = false -> contains w (x ++ [c]) = false.
Proof.
  intros Hw. induction x as [|y x IH]; intros Hx.
  - cbn [app contains]. destruct w as [|a [|b w]].
    + discriminate Hx.
    + cbn [starts_with]. unfold ends_with in Hw. cbn [rev app starts_with] in Hw.
      rewrite andb_true_r in *. rewrite (Ascii.eqb_sym a c), Hw. reflexivity.
    + cbn [starts_with]. rewrite andb_false_r. reflexivity.
  - cbn [contains] in Hx. apply orb_false_elim in Hx as [Hs Hx].
    change ((y :: x) ++ [c]) with (y :: (x ++ [c])). cbn [contains].
    rewrite (IH Hx), orb_false_r. apply not_true_is_false. intros H.
    change (y :: (x ++ [c])) with ((y :: x) ++ [c]) in H.
    apply starts_with_app_inv in H as [H|(p2 & Hp & Hne & Hp2)]; [congruence|].
    destruct p2 as [|a p2]; [congruence|]. rewrite starts_with_cons in Hp2.
    apply andb_prop in Hp2 as [Ha Hp2]. apply Ascii.eqb_eq in Ha as ->.
    destruct p2; [|discriminate Hp2].
    rewrite Hp in Hw. unfold ends_with in Hw. rewrite rev_app_distr in Hw.
    cbn [rev app starts_with] in Hw. now rewrite Ascii.eqb_refl in Hw.
Qed.

(** X10.  A successful [build_combined_html] answers with the path
    [_combined_epub.html] in the directory of the package document and
    leaves every other path of the file system as it was.  What it
    writes there is an HTML5 document: it starts with the doctype; its
    head links the collected stylesheets in sorted order and holds the
    page-break rule of [epub-chapter-break]; nothing before the body
    element looks like a body tag; and the body element holds the blocks
    of the loop in their order, so that the body extraction of the
    script, run on this document, gives the blocks back. *)
Theorem combined_document_written (fs fs' : filesystem) (spine : list item)
    (opf_dir : text) (skip_cover : bool) (path : text) :
  build_combined_html fs spine opf_dir skip_cover = Ok (fs', path) ->
  path = path_join opf_dir (txt "_combined_epub.html")
  /\ (forall q, q <> path -> fs' q = fs q)
  /\ exists st uris before after doc,
       flatten fs spine skip_cover = Ok st
       /\ Forall2 (fun p u => as_uri p = Ok u) (sorted_css (all_css st)) uris
       /\ fs' path = Some (File doc)
       /\ doc = (before ++ concat (map link_element uris) ++ after)
                ++ txt "<body>" ++ [NL] ++ concat (map block_html (all_bodies st))
                ++ [NL] ++ txt "</body>" ++ [NL] ++ txt "</html>"
       /\ starts_with (txt "<!DOCTYPE html>") before = true
       /\ contains (txt ".epub-chapter-break") after = true
       /\ contains (txt "page-break-before: always") after = true
       /\ contains (txt "<body")
            (lower (before ++ concat (map link_element uris) ++ after)) = false
       /\ (contains (txt "</body>") (lower (concat (map block_html (all_bodies st)))) = false ->
           extract_body doc = [NL] ++ concat (map block_html (all_bodies st)) ++ [NL]).
Proof.
  unfold build_combined_html, mbind, result_bind.
  destruct (flatten fs spine skip_cover) as [st|] eqn:Hst; [|discriminate].
  destruct (css_links _) as [links|] eqn:Hl; [|discriminate].
  destruct (write_text fs _ _) as [fs1|] eqn:Hw; [|discriminate].
  intros [= <- <-]. apply write_text_ok in Hw as ->.
  split; [reflexivity|]. split; [intros q Hq; now apply fs_put_other|].
  apply css_links_uris in Hl as (uris & HF & ->).
  set (blocks := concat (map block_html (all_bodies st))).
  set (links := concat (map link_element uris)).
  unfold combined_html. fold blocks links.
  match goal with
  | |- context [fs_put _ _ (File (?l1 ++ links ++ ?l2 ++ blocks ++ ?l3))] =>
      set (before := l1); set (middle := l2); set (tail := l3)
  end.
  set (after := take (length middle - 7) middle).
  assert (Hmid : middle = after ++ txt "<body>" ++ [NL]) by (vm_compute; reflexivity).
  assert (Htail : tail = [NL] ++ txt "</body>" ++ [NL] ++ txt "</html>")
    by (vm_compute; reflexivity).
  assert (Hpre : contains (txt "<body") (lower (before ++ links ++ after)) = false).
  { apply tags_not_body_contains, tags_not_body_app; [vm_compute; reflexivity|].
    apply tags_not_body_app; [|vm_compute; reflexivity].
    now apply (tags_not_body_links (sorted_css (all_css st))). }
  exists st, uris, before, after, (before ++ links ++ middle ++ blocks ++ tail).
  split; [reflexivity|]. split; [exact HF|]. split; [apply fs_put_same|].
  assert (Hdoc : before ++ links ++ middle ++ blocks ++ tail
                 = (before ++ links ++ after) ++ txt "<body>" ++ [NL] ++ blocks
                   ++ [NL] ++ txt "</body>" ++ [NL] ++ txt "</html>").
  { rewrite Hmid, Htail. now rewrite <- !app_assoc. }
  split; [exact Hdoc|].
  split; [vm_compute; reflexivity|]. split; [vm_compute; reflexivity|].
  split; [vm_compute; reflexivity|]. split; [exact Hpre|].
  intros Hblocks. rewrite Hdoc. unfold extract_body.
  replace (txt "<body>" ++ [NL] ++ blocks ++ [NL] ++ txt "</body>" ++ [NL] ++ txt "</html>")
    with (txt "<body" ++ [] ++ txt ">" ++ (NL :: blocks ++ [NL]) ++ txt "</body>"
          ++ ([NL] ++ txt "</html>"))
    by (cbn [txt list_ascii_of_string app]; now rewrite <- app_assoc).
  rewrite (body_search_hit (before ++ links ++ after) (txt "<body") []
             (NL :: blocks ++ [NL]) (txt "</body>") ([NL] ++ txt "</html>"));
    [reflexivity|reflexivity|reflexivity|reflexivity|exact Hpre|].
  change (contains (txt "</body>") (lower blocks) = false) in Hblocks.
  rewrite app_comm_cons, lower_app. apply contains_snoc; [reflexivity|].
  change (lower (NL :: blocks)) with (lower_char NL :: lower blocks).
  cbn [contains]. rewrite Hblocks, orb_false_r. reflexivity.
Qed.

Lemma combined_document_written_witness :
  exists fs',
    build_combined_html SAMPLE_FS SAMPLE_SPINE SAMPLE_DIR true
      = Ok (fs', txt "/tmp/x/OEBPS/_combined_epub.html")
    /\ (extract_body <$> read_text fs' (txt "/tmp/x/OEBPS/_combined_epub.html"))
       = Ok ([NL] ++ concat (map block_html
                               (map (block_of SAMPLE_FS)
                                    (survivors SAMPLE_FS true (enumerate SAMPLE_SPINE))))
             ++ [NL])
    /\ (txt "/tmp/x/OEBPS/_combined_epub.html" = path_join SAMPLE_DIR (txt "_combined_epub.html")
        /\ (forall q, q <> txt "/tmp/x/OEBPS/_combined_epub.html" -> fs' q = SAMPLE_FS q)
        /\ exists st uris before after doc,
             flatten SAMPLE_FS SAMPLE_SPINE true = Ok st
             /\ Forall2 (fun p u => as_uri p = Ok u) (sorted_css (all_css st)) uris
             /\ fs' (txt "/tmp/x/OEBPS/_combined_epub.html") = Some (File doc)
             /\ doc = (before ++ concat (map link_element uris) ++ after)
                      ++ txt "<body>" ++ [NL] ++ concat (map block_html (all_bodies st))
                      ++ [NL] ++ txt "</body>" ++ [NL] ++ txt "</html>"
             /\ starts_with (txt "<!DOCTYPE html>") before = true
             /\ contains (txt ".epub-chapter-break") after = true
             /\ contains (txt "page-break-before: always") after = true
             /\ contains (txt "<body")
                  (lower (before ++ concat (map link_element uris) ++ after)) = false
             /\ (contains (txt "</body>")
                   (lower (concat (map block_html (all_bodies st)))) = false ->
                 extract_body doc
                 = [NL] ++ concat (map block_html (all_bodies st)) ++ [NL])).
Proof.
  exists (match build_combined_html SAMPLE_FS SAMPLE_SPINE SAMPLE_DIR true with
          | Ok (fs', _) => fs'
          | Raise _ => SAMPLE_FS
          end).
  split; [vm_compute; reflexivity|]. split; [vm_compute; reflexivity|].
  apply (combined_document_written SAMPLE_FS
           (match build_combined_html SAMPLE_FS SAMPLE_SPINE SAMPLE_DIR true with
            | Ok (fs', _) => fs'
            | Raise _ => SAMPLE_FS
            end)
           SAMPLE_SPINE SAMPLE_DIR true (txt "/tmp/x/OEBPS/_combined_epub.html")).
  vm_compute. reflexivity.
Defined.

(* ----------------------------------------------------------------- *)
(** ** The driver: the steps of a run that succeeds *)

Section Success.
Variable xml_parse : text -> option element.
Variable mkdtemp : step text.
Variable extractall : text -> text -> step unit.
Variable image_open : text -> option (Z * Z).
Variable image_pdf : text -> geometry -> result text.
Variable render_to_pdf : text -> text -> step unit.
Variable merge_pdf : option text -> text -> gmap string (option text) -> result text.
Variable locked : list text.

Lemma create_cover_pdf_path c out w h fs fs2 p :
  create_cover_pdf image_open image_pdf c out w h fs = (fs2, Ok p) -> p = out.
Proof.
  unfold create_cover_pdf. intros H. apply step_bind_ok in H as (fs1 & [] & _ & H).
  unfold step_ret in H. congruence.
Qed.

Lemma convert_trace epub_path out d fs0 fsc p :
  convert xml_parse extractall image_open image_pdf render_to_pdf merge_pdf
    epub_path out d fs0 = (fsc, Ok p) ->
  p = out
  /\ exists fs1 spine manifest metadata opf_dir cover_ref fs2 fs3 html_path fs4
            cover content merged,
       extractall epub_path d fs0 = (fs1, Ok tt)
       /\ parse_opf xml_parse fs1 d = Ok (spine, manifest, metadata, opf_dir, cover_ref)
       /\ (if cover_wanted fs1 cover_ref
           then exists c, cover_ref = Some c
                  /\ create_cover_pdf image_open image_pdf c (path_join d (txt "_cover.pdf"))
                       PAGE_WIDTH_IN PAGE_HEIGHT_IN fs1
                     = (fs2, Ok (path_join d (txt "_cover.pdf")))
           else fs2 = fs1)
       /\ build_combined_html fs2 spine opf_dir (cover_wanted fs1 cover_ref)
          = Ok (fs3, html_path)
       /\ render_to_pdf html_path (path_join d (txt "_content.pdf")) fs3 = (fs4, Ok tt)
       /\ fs4 (path_join d (txt "_content.pdf")) = Some (File content)
       /\ cover = (if cover_wanted fs1 cover_ref
                   then file_at fs4 (path_join d (txt "_cover.pdf")) else None)
       /\ merge_pdf cover content metadata = Ok merged
       /\ fsc = fs_put fs4 out (File merged).
Proof.
  unfold convert, extract_epub. intros H.
  apply step_bind_ok in H as (fs1 & [] & Hx & H).
  apply step_bind_ok in H as (fs1' & [[[[spine manifest] metadata] opf_dir] cover_ref] & Hp & H).
  apply reading_ok in Hp as [-> Hp].
  apply step_bind_ok in H as (fs2 & cover_pdf_path & Hc & H).
  apply step_bind_ok in H as (fs3 & html_path & Hb & H).
  apply step_bind_ok in H as (fs4 & [] & Hr & H).
  apply step_bind_ok in H as (fs4' & cover & Hcov & H).
  apply reading_ok in Hcov as [-> Hcov].
  apply step_bind_ok in H as (fs4' & content & Hcon & H).
  apply reading_ok in Hcon as [-> Hcon].
  apply step_bind_ok in H as (fs4' & merged & Hm & H).
  apply reading_ok in Hm as [-> Hm].
  apply step_bind_ok in H as (fs5 & [] & Hw & H).
  apply writing_ok, write_text_ok in Hw as ->.
  unfold step_ret in H. injection H as <- <-. split; [reflexivity|].
  assert (Hmade : cover_pdf_path
                  = (if cover_wanted fs1 cover_ref
                     then Some (path_join d (txt "_cover.pdf")) else None)
                  /\ (if cover_wanted fs1 cover_ref
                      then exists c, cover_ref = Some c
                             /\ create_cover_pdf image_open image_pdf c
                                  (path_join d (txt "_cover.pdf"))
                                  PAGE_WIDTH_IN PAGE_HEIGHT_IN fs1
                                = (fs2, Ok (path_join d (txt "_cover.pdf")))
                      else fs2 = fs1)).
  { unfold cover_wanted. destruct cover_ref as [c|].
    - destruct (path_exists fs1 c).
      + apply step_bind_ok in Hc as (fs2' & path & Hcc & Hret).
        unfold step_ret in Hret. injection Hret as <- <-.
        pose proof (create_cover_pdf_path _ _ _ _ _ _ _ Hcc) as ->.
        split; [reflexivity|]. now exists c.
      + unfold step_ret in Hc. injection Hc as <- <-. now split.
    - unfold step_ret in Hc. injection Hc as <- <-. now split. }
  destruct Hmade as [-> Hmade].
  exists fs1, spine, manifest, metadata, opf_dir, cover_ref, fs2, fs3, html_path, fs4,
    cover, content, merged.
  split; [exact Hx|]. split; [exact Hp|]. split; [exact Hmade|].
  split.
  { destruct (build_combined_html fs2 spine opf_dir _) as [[fs3' path]|] eqn:E.
    - injection Hb as <- <-.
      destruct (cover_wanted fs1 cover_ref); exact E.
    - discriminate Hb. }
  split; [exact Hr|]. split.
  { unfold read_text in Hcon. destruct (fs4 _) as [[c|]|]; congruence. }
  split; [|split; [exact Hm|reflexivity]].
  destruct (cover_wanted fs1 cover_ref); [|congruence].
  unfold file_at, path_exists, read_text in *.
  destruct (fs4 (path_join d (txt "_cover.pdf"))) as [[c|]|]; cbn in Hcov; congruence.
Qed.

(** X18.  A run that answers with a path answers with the output path
    (the given one, or the input with the suffix [.pdf]), and it went
    through these steps: the archive was extracted into the temporary
    directory and the package document parsed; a cover page was made,
    at [_cover.pdf], exactly when the package document names a cover
    image that the archive holds, and exactly then the flattener ran
    with cover skipping; the renderer was run on the flattened document
    and left the content at [_content.pdf]; the merger got this content,
    the metadata of the package document and the cover page if it was
    made and still there.  Outside the temporary directory the run
    leaves the file system as the renderer left it, but for the output
    path, which holds what the merger answered. *)
Theorem conversion_result (epub_path : text) (pdf_path : option text) (out : text)
    (fs fs0 fs' : filesystem) (d p : text) :
  match pdf_path with Some q => Ok q | None => with_suffix_pdf epub_path end = Ok out ->
  mkdtemp fs = (fs0, Ok d) ->
  epub_to_pdf xml_parse mkdtemp extractall image_open image_pdf render_to_pdf merge_pdf
    locked epub_path pdf_path fs = (fs', Ok p) ->
  p = out
  /\ exists fs1 spine manifest metadata opf_dir cover_ref fs2 fs3 html_path fs4
            cover content merged,
       extractall epub_path d fs0 = (fs1, Ok tt)
       /\ parse_opf xml_parse fs1 d = Ok (spine, manifest, metadata, opf_dir, cover_ref)
       /\ (if cover_wanted fs1 cover_ref
           then exists c, cover_ref = Some c
                  /\ create_cover_pdf image_open image_pdf c (path_join d (txt "_cover.pdf"))
                       PAGE_WIDTH_IN PAGE_HEIGHT_IN fs1
                     = (fs2, Ok (path_join d (txt "_cover.pdf")))
           else fs2 = fs1)
       /\ build_combined_html fs2 spine opf_dir (cover_wanted fs1 cover_ref)
          = Ok (fs3, html_path)
       /\ render_to_pdf html_path (path_join d (txt "_content.pdf")) fs3 = (fs4, Ok tt)
       /\ fs4 (path_join d (txt "_content.pdf")) = Some (File content)
       /\ cover = (if cover_wanted fs1 cover_ref
                   then file_at fs4 (path_join d (txt "_cover.pdf")) else None)
       /\ merge_pdf cover content metadata = Ok merged
       /\ (forall q, below d q = false ->
             fs' q = if text_eqb q out then Some (File merged) else fs4 q).
Proof.
  intros Hout Hd H.
  rewrite (run_after_mkdtemp _ _ _ _ _ _ _ locked epub_path pdf_path out fs fs0 d Hout Hd)
    in H.
  destruct (convert _ _ _ _ _ _ epub_path out d fs0) as [fsc r] eqn:Hc.
  cbn [fst snd] in H. injection H as <- ->.
  apply convert_trace in Hc
    as (-> & fs1 & spine & manifest & metadata & opf_dir & cover_ref & fs2 & fs3
        & html_path & fs4 & cover & content & merged
        & Hx & Hp & Hmade & Hb & Hr & Hcon & Hcov & Hm & ->).
  split; [reflexivity|].
  exists fs1, spine, manifest, metadata, opf_dir, cover_ref, fs2, fs3, html_path, fs4,
    cover, content, merged.
  repeat (split; [assumption|]).
  intros q Hq. now rewrite rmtree_outside by exact Hq.
Qed.
End Success.

Lemma conversion_result_witness :
  snd full_run = Ok (txt "/book.pdf")
  /\ exists fs1 spine manifest metadata opf_dir cover_ref fs2 fs3 html_path fs4
            cover content merged,
       full_extractall (txt "/book.epub") TMP_DIR (fs_put ROOT_FS TMP_DIR Dir) = (fs1, Ok tt)
       /\ parse_opf sample_xml_parse fs1 TMP_DIR
          = Ok (spine, manifest, metadata, opf_dir, cover_ref)
       /\ (if cover_wanted fs1 cover_ref
           then exists c, cover_ref = Some c
                  /\ create_cover_pdf toy_image_open toy_image_pdf c
                       (path_join TMP_DIR (txt "_cover.pdf"))
                       PAGE_WIDTH_IN PAGE_HEIGHT_IN fs1
                     = (fs2, Ok (path_join TMP_DIR (txt "_cover.pdf")))
           else fs2 = fs1)
       /\ build_combined_html fs2 spine opf_dir (cover_wanted fs1 cover_ref)
          = Ok (fs3, html_path)
       /\ toy_render html_path (path_join TMP_DIR (txt "_content.pdf")) fs3 = (fs4, Ok tt)
       /\ fs4 (path_join TMP_DIR (txt "_content.pdf")) = Some (File content)
       /\ cover = (if cover_wanted fs1 cover_ref
                   then file_at fs4 (path_join TMP_DIR (txt "_cover.pdf")) else None)
       /\ toy_merge cover content metadata = Ok merged
       /\ (forall q, below TMP_DIR q = false ->
             fst full_run q
             = if text_eqb q (txt "/book.pdf") then Some (File merged) else fs4 q).
Proof.
  split; [vm_compute; reflexivity|].
  apply (conversion_result sample_xml_parse toy_mkdtemp full_extractall toy_image_open
           toy_image_pdf toy_render toy_merge [] (txt "/book.epub") None (txt "/book.pdf")
           ROOT_FS (fs_put ROOT_FS TMP_DIR Dir) (fst full_run) TMP_DIR (txt "/book.pdf")).
  - vm_compute. reflexivity.
  - reflexivity.
  - transitivity (fst full_run, snd full_run); [apply surjective_pairing|].
    f_equal; vm_compute; reflexivity.
Defined.
